(** * Kex: a shallow embedding of the scanner, parser and evaluator

    The development follows [kex_main.py], the self-contained variant of the
    interpreter (scanner with comments and float literals, recursive-descent
    parser, tree-walking evaluator, flat symbol table).

    - Python [int] is [Z]; Python [float] is IEEE binary64, written with the
      Standard Library's [spec_float] and its correctly rounded operations;
      Python [str] is [string], read as the code points below 256;
      a Python [dict] is an association list in insertion order whose keys
      are compared with Python's [==].
    - A method that mutates [self] is a function from the object's state to
      an [outcome]: a returned value with the new state, a raised exception
      with the state at the moment of the raise, or [OutOfFuel] for a loop
      or recursion that was cut by the fuel it was given.
    - Output ([print]) is not modelled, nor are the limits of the Python
      interpreter (recursion depth, memory, the number of digits [int]
      accepts). *)

From Stdlib Require Import ZArith List String Ascii Bool Lia.
From Stdlib Require Import SpecFloat.
Import ListNotations.

Set Warnings "-register-all".

Local Open Scope list_scope.
Local Open Scope string_scope.

(** ** Python values and built-ins *)

Module Py.

(** The hashable scalars: what a token's [value] can hold, and what can key
    a dict. *)
Inductive atom :=
| PyInt (z : Z)
| PyFloat (f : spec_float)
| PyStr (s : string)
| PyBool (b : bool)
| PyNone.

(** A dict: keys in insertion order. *)
Definition dict (V : Type) := list (atom * V).

Inductive value :=
| Atom (a : atom)
| PyList (elements : list value)
| PyDict (items : dict value).

(** [type(v).__name__] *)
Definition type_name (v : value) : string :=
  match v with
  | Atom (PyInt _) => "int"
  | Atom (PyFloat _) => "float"
  | Atom (PyStr _) => "str"
  | Atom (PyBool _) => "bool"
  | Atom PyNone => "NoneType"
  | PyList _ => "list"
  | PyDict _ => "dict"
  end.

(** Exceptions, with the data their messages are formatted from. The first
    four are plain [Exception]s told apart by their message. *)
Inductive exn :=
| InvalidCharacter (c : ascii) (line column : Z)
| UnterminatedString (line : Z) (column : Z)
| InvalidSyntax
| NoVisitMethod (class_name : string)
| ZeroDivisionError
| TypeError (op : atom) (left_type right_type : string)
| NameError (name : atom)
| ValueError (literal : string)
| AttributeError (class_name attribute : string)
| OverflowError.

(** *** Character classes of [str], on the code points 0..255 *)

Definition code (c : ascii) : N := N_of_ascii c.

Definition between (lo hi : N) (c : ascii) : bool :=
  (lo <=? code c)%N && (code c <=? hi)%N.

(** [c.isspace()]: tab..carriage return, the four separators 28..31, space,
    NEL (133) and the no-break space (160). *)
Definition isspace (c : ascii) : bool :=
  between 9 13 c || between 28 32 c || between 133 133 c || between 160 160 c.

(** [c.isdecimal()] *)
Definition isdecimal (c : ascii) : bool := between 48 57 c.

(** [c.isdigit()]: the decimal digits and the superscripts two, three and
    one (178, 179, 185). *)
Definition isdigit (c : ascii) : bool :=
  isdecimal c || between 178 179 c || between 185 185 c.

(** [c.isalpha()] *)
Definition isalpha (c : ascii) : bool :=
  between 65 90 c || between 97 122 c || between 170 170 c
  || between 181 181 c || between 186 186 c || between 192 214 c
  || between 216 246 c || between 248 255 c.

(** [c.isalnum()]: alphabetic, digit, or one of the fractions 188..190. *)
Definition isalnum (c : ascii) : bool :=
  isalpha c || isdigit c || between 188 190 c.

(** *** Numbers *)

Definition prec : Z := 53.
Definition emax : Z := 1024.

Definition fadd := SFadd prec emax.
Definition fsub := SFsub prec emax.
Definition fmul := SFmul prec emax.
Definition fdiv := SFdiv prec emax.

(** The correctly rounded quotient of two integers, [b] not zero. The
    operands go in as unnormalised mantissas, so no rounding happens before
    the division. A zero numerator gives the zero with the sign of the
    divisor: [0 / -5] is [-0.0]. *)
Definition round_quotient (a b : Z) : spec_float :=
  match a, b with
  | _, Z0 => S754_nan
  | Z0, _ => S754_zero (b <? 0)%Z
  | _, _ =>
    fdiv (S754_finite (a <? 0)%Z (Z.to_pos (Z.abs a)) 0)
         (S754_finite (b <? 0)%Z (Z.to_pos (Z.abs b)) 0)
  end.

Definition is_infinity (f : spec_float) : bool :=
  match f with S754_infinity _ => true | _ => false end.

(** [float(z)] for an int: round to nearest even, [None] for the
    [OverflowError] of an int beyond the float range. *)
Definition float_of_int (z : Z) : option spec_float :=
  let f := binary_normalize prec emax z 0 false in
  if is_infinity f then None else Some f.

(** [a / b] on two ints, [b] not zero: [None] for [OverflowError]. *)
Definition int_true_div (a b : Z) : option spec_float :=
  let f := round_quotient a b in
  if is_infinity f then None else Some f.

Definition digit_value (c : ascii) : Z := Z.of_N (code c) - 48.

Fixpoint digits_value (acc : Z) (s : string) : Z :=
  match s with
  | EmptyString => acc
  | String c s' => digits_value (10 * acc + digit_value c) s'
  end.

Fixpoint all_decimal (s : string) : bool :=
  match s with
  | EmptyString => true
  | String c s' => isdecimal c && all_decimal s'
  end.

(** [int(s)] on a string of digits and dots: [None] for [ValueError]. *)
Definition int (s : string) : option Z :=
  match s with
  | EmptyString => None
  | _ => if all_decimal s then Some (digits_value 0 s) else None
  end.

(** Splits at the first ['.']. *)
Fixpoint split_dot (s : string) : string * option string :=
  match s with
  | EmptyString => (EmptyString, None)
  | String c s' =>
    if (c =? ".")%char then (EmptyString, Some s')
    else let '(whole, frac) := split_dot s' in (String c whole, frac)
  end.

(** [float(s)] on a string of digits and dots: decimal digits around one
    optional point, at least one digit; the value is the correctly rounded
    quotient of the digits by the power of ten. [None] for [ValueError]. *)
Definition float (s : string) : option spec_float :=
  let '(whole, frac) := split_dot s in
  let frac := match frac with Some f => f | None => EmptyString end in
  let digits := whole ++ frac in
  match digits with
  | EmptyString => None
  | _ =>
    if all_decimal digits
    then Some (round_quotient (digits_value 0 digits)
                              (10 ^ Z.of_nat (String.length frac)))
    else None
  end.

(** ['.' in s] *)
Fixpoint contains_dot (s : string) : bool :=
  match s with
  | EmptyString => false
  | String c s' => (c =? ".")%char || contains_dot s'
  end.

(** A number as the arithmetic operators see it: [bool] is a subclass of
    [int]. *)
Inductive number :=
| NInt (z : Z)
| NFloat (f : spec_float).

Definition as_number (v : value) : option number :=
  match v with
  | Atom (PyInt z) => Some (NInt z)
  | Atom (PyBool b) => Some (NInt (if b then 1 else 0))
  | Atom (PyFloat f) => Some (NFloat f)
  | _ => None
  end.

(** The exact value of a finite float is [m * 2^e]; an int equals it when
    they denote the same rational. *)
Definition float_eq_int (f : spec_float) (z : Z) : bool :=
  match f with
  | S754_zero _ => (z =? 0)%Z
  | S754_finite s m e =>
    let v := if s then Zneg m else Zpos m in
    if (0 <=? e)%Z then (z =? v * 2 ^ e)%Z else (z * 2 ^ (- e) =? v)%Z
  | _ => false
  end.

Definition number_eqb (x y : number) : bool :=
  match x, y with
  | NInt a, NInt b => (a =? b)%Z
  | NFloat f, NFloat g => SFeqb f g
  | NFloat f, NInt b => float_eq_int f b
  | NInt a, NFloat g => float_eq_int g a
  end.

(** [x == y] on scalars. *)
Definition eqb (x y : atom) : bool :=
  match as_number (Atom x), as_number (Atom y) with
  | Some n, Some m => number_eqb n m
  | None, None =>
    match x, y with
    | PyStr s, PyStr t => String.eqb s t
    | PyNone, PyNone => true
    | _, _ => false
    end
  | _, _ => false
  end.

(** [d.get(k)] *)
Fixpoint dict_get {V : Type} (d : dict V) (k : atom) : option V :=
  match d with
  | [] => None
  | (k', v) :: d' => if eqb k' k then Some v else dict_get d' k
  end.

(** [d[k] = v]: an equal key keeps its place (and its first spelling) and
    takes the new value; a new key goes last. *)
Fixpoint dict_set {V : Type} (d : dict V) (k : atom) (v : V) : dict V :=
  match d with
  | [] => [(k, v)]
  | (k', v') :: d' =>
    if eqb k' k then (k', v) :: d' else (k', v') :: dict_set d' k v
  end.

(** *** Arithmetic on numbers: the value, or the exception raised *)

Definition of_number (x : number) : value :=
  match x with
  | NInt z => Atom (PyInt z)
  | NFloat f => Atom (PyFloat f)
  end.

(** The operand as a C double, as a mixed operation converts it. *)
Definition to_float (x : number) : option spec_float :=
  match x with
  | NInt z => float_of_int z
  | NFloat f => Some f
  end.

Definition float_op (op : spec_float -> spec_float -> spec_float)
  (x y : number) : exn + number :=
  match to_float x, to_float y with
  | Some f, Some g => inr (NFloat (op f g))
  | _, _ => inl OverflowError
  end.

(** [x + y], [x - y], [x * y]: exact on two ints, in floats otherwise. *)
Definition add (x y : number) : exn + number :=
  match x, y with
  | NInt a, NInt b => inr (NInt (a + b))
  | _, _ => float_op fadd x y
  end.

Definition sub (x y : number) : exn + number :=
  match x, y with
  | NInt a, NInt b => inr (NInt (a - b))
  | _, _ => float_op fsub x y
  end.

Definition mul (x y : number) : exn + number :=
  match x, y with
  | NInt a, NInt b => inr (NInt (a * b))
  | _, _ => float_op fmul x y
  end.

(** [x / y]: true division, a float also on two ints. *)
Definition truediv (x y : number) : exn + number :=
  match x, y with
  | NInt a, NInt b =>
    if (b =? 0)%Z then inl ZeroDivisionError
    else
      match int_true_div a b with
      | Some f => inr (NFloat f)
      | None => inl OverflowError
      end
  | _, _ =>
    match to_float x, to_float y with
    | Some f, Some g =>
      if SFeqb g (S754_zero false) then inl ZeroDivisionError
      else inr (NFloat (fdiv f g))
    | _, _ => inl OverflowError
    end
  end.

End Py.

Import Py.

(** ** Outcomes of a method call *)

Inductive outcome (S A : Type) :=
| Ret (a : A) (s : S)
| Raise (e : exn) (s : S)
| OutOfFuel.

Arguments Ret {S A} a s.
Arguments Raise {S A} e s.
Arguments OutOfFuel {S A}.

Definition M (S A : Type) := S -> outcome S A.

Definition ret {S A} (a : A) : M S A := fun s => Ret a s.

Definition raise {S A} (e : exn) : M S A := fun s => Raise e s.

Definition bind {S A B} (m : M S A) (k : A -> M S B) : M S B :=
  fun s =>
    match m s with
    | Ret a s' => k a s'
    | Raise e s' => Raise e s'
    | OutOfFuel => OutOfFuel
    end.

Notation "x <- m ;; k" := (bind m (fun x => k))
  (at level 61, m at next level, right associativity).
Notation "m ;;; k" := (bind m (fun _ => k))
  (at level 61, right associativity).

(** ** Tokens *)

Inductive TokenType :=
| INTEGER | FLOAT | STRING | BOOLEAN | IDENTIFIER
| ASSIGN | PLUS | MINUS | MUL | DIV
| LPAREN | RPAREN | LBRACKET | RBRACKET | LBRACE | RBRACE
| COMMA | COLON | EOF.

Definition TokenType_eqb (a b : TokenType) : bool :=
  match a, b with
  | INTEGER, INTEGER | FLOAT, FLOAT | STRING, STRING | BOOLEAN, BOOLEAN
  | IDENTIFIER, IDENTIFIER | ASSIGN, ASSIGN | PLUS, PLUS | MINUS, MINUS
  | MUL, MUL | DIV, DIV | LPAREN, LPAREN | RPAREN, RPAREN
  | LBRACKET, LBRACKET | RBRACKET, RBRACKET | LBRACE, LBRACE
  | RBRACE, RBRACE | COMMA, COMMA | COLON, COLON | EOF, EOF => true
  | _, _ => false
  end.

Module Token.

Record t := make { type : TokenType; value : atom; line : Z; column : Z }.

End Token.

(** ** The scanner *)

Module Lexer.

Record t := make {
  text : string;
  pos : nat;
  current_char : option ascii;
  line : Z;
  column : Z
}.

(** [Lexer(text)] *)
Definition init (text : string) : t :=
  {| text := text; pos := 0; current_char := String.get 0 text;
     line := 1; column := 1 |}.

Definition newline : ascii := "010"%char.
Definition quote : ascii := "034"%char.

Definition is_char (c : ascii) (cur : option ascii) : bool :=
  match cur with
  | Some c' => (c' =? c)%char
  | None => false
  end.

Definition advance (l : t) : t :=
  let p := S (pos l) in
  {| text := text l;
     pos := p;
     current_char := String.get p (text l);
     line := if is_char newline (current_char l) then (line l + 1)%Z else line l;
     column := if is_char newline (current_char l) then 1%Z else (column l + 1)%Z |}.

Definition peek (l : t) : option ascii := String.get (S (pos l)) (text l).

(** Enough iterations for any loop that advances once per round: the
    characters left, one round for a stale [current_char], and the round
    whose test fails. *)
Definition budget (l : t) : nat := S (S (String.length (text l) - pos l)).

(** [while self.current_char is not None and keep(self.current_char):
       result += self.current_char; self.advance()]
    [None] when the fuel runs out first. *)
Fixpoint scan_while (fuel : nat) (keep : ascii -> bool) (result : string) (l : t)
  : option (string * t) :=
  match fuel with
  | O => None
  | S fuel' =>
    match current_char l with
    | Some c =>
      if keep c then scan_while fuel' keep (result ++ String c "") (advance l)
      else Some (result, l)
    | None => Some (result, l)
    end
  end.

(** The same loop where the source keeps no [result]. *)
Definition advance_while (keep : ascii -> bool) : M t unit := fun l =>
  match scan_while (budget l) keep "" l with
  | Some (_, l') => Ret tt l'
  | None => OutOfFuel
  end.

Definition skip_whitespace : M t unit := advance_while isspace.

(** The loop of a block comment: up to and including the closing star and
    slash, or to the end of the text. *)
Fixpoint skip_block (fuel : nat) (l : t) : option t :=
  match fuel with
  | O => None
  | S fuel' =>
    match current_char l with
    | None => Some l
    | Some c =>
      if (c =? "*")%char && is_char "/" (peek l) then Some (advance (advance l))
      else skip_block fuel' (advance l)
    end
  end.

Definition skip_comment : M t (option Token.t) := fun l =>
  if is_char "/" (current_char l) then
    let l1 := advance l in
    if is_char "/" (current_char l1) then
      (advance_while (fun c => negb (c =? newline)%char) ;;;
       fun l2 => Ret None (advance l2)) l1
    else if is_char "*" (current_char l1) then
      let l2 := advance l1 in
      match skip_block (budget l2) l2 with
      | Some l3 => Ret None l3
      | None => OutOfFuel
      end
    else
      Ret (Some (Token.make DIV (PyStr "/") (line l1) (column l1 - 1))) l1
  else Ret None l.

Definition number : M t Token.t := fun l =>
  let start_pos := Z.of_nat (pos l) in
  match scan_while (budget l) (fun c => isdigit c || (c =? ".")%char) "" l with
  | None => OutOfFuel
  | Some (result, l') =>
    if contains_dot result then
      match Py.float result with
      | Some f => Ret (Token.make FLOAT (PyFloat f) (line l') start_pos) l'
      | None => Raise (ValueError result) l'
      end
    else
      match Py.int result with
      | Some z => Ret (Token.make INTEGER (PyInt z) (line l') start_pos) l'
      | None => Raise (ValueError result) l'
      end
  end.

(** [string]; the name is taken. *)
Definition string_ : M t Token.t := fun l =>
  let start_pos := Z.of_nat (pos l) in
  let l0 := advance l in
  match scan_while (budget l0) (fun c => negb (c =? quote)%char) "" l0 with
  | None => OutOfFuel
  | Some (result, l') =>
    match current_char l' with
    | None => Raise (UnterminatedString (line l') start_pos) l'
    | Some _ =>
      let l'' := advance l' in
      Ret (Token.make STRING (PyStr result) (line l'') start_pos) l''
    end
  end.

Definition identifier : M t Token.t := fun l =>
  let start_pos := Z.of_nat (pos l) in
  match scan_while (budget l) (fun c => isalnum c || (c =? "_")%char) "" l with
  | None => OutOfFuel
  | Some (result, l') =>
    if (result =? "true")%string then
      Ret (Token.make BOOLEAN (PyBool true) (line l') start_pos) l'
    else if (result =? "false")%string then
      Ret (Token.make BOOLEAN (PyBool false) (line l') start_pos) l'
    else Ret (Token.make IDENTIFIER (PyStr result) (line l') start_pos) l'
  end.

Definition single_character_tokens : list (TokenType * ascii) :=
  [ (ASSIGN, "="); (PLUS, "+"); (MINUS, "-"); (MUL, "*");
    (LPAREN, "("); (RPAREN, ")"); (LBRACKET, "["); (RBRACKET, "]");
    (LBRACE, "{"); (RBRACE, "}"); (COMMA, ","); (COLON, ":") ]%char.

(** The first entry of the table whose character is [c]. *)
Fixpoint single_character (table : list (TokenType * ascii)) (c : ascii)
  : option TokenType :=
  match table with
  | [] => None
  | (token_type, char) :: table' =>
    if (c =? char)%char then Some token_type else single_character table' c
  end.

Fixpoint get_next_token_loop (fuel : nat) (l : t) : outcome t Token.t :=
  match fuel with
  | O => OutOfFuel
  | S fuel' =>
    match current_char l with
    | None => Ret (Token.make EOF PyNone (line l) (column l)) l
    | Some c =>
      if isspace c then
        (skip_whitespace ;;; get_next_token_loop fuel') l
      else if (c =? "/")%char then
        (comment_token <- skip_comment ;;
         match comment_token with
         | Some token => ret token
         | None => get_next_token_loop fuel'
         end) l
      else if isdigit c || (c =? ".")%char then number l
      else if (c =? quote)%char then string_ l
      else if isalpha c || (c =? "_")%char then identifier l
      else
        match single_character single_character_tokens c with
        | Some token_type =>
          Ret (Token.make token_type (PyStr (String c "")) (line l) (column l))
              (advance l)
        | None => Raise (InvalidCharacter c (line l) (column l)) l
        end
    end
  end.

Definition get_next_token : M t Token.t := fun l =>
  get_next_token_loop (budget l) l.

(** [debug_tokens], without the printing: the tokens up to and including
    the first [EOF]. *)
Fixpoint debug_tokens (fuel : nat) (l : t) : outcome t (list Token.t) :=
  match fuel with
  | O => OutOfFuel
  | S fuel' =>
    match get_next_token l with
    | Ret token l' =>
      match Token.type token with
      | EOF => Ret [token] l'
      | _ =>
        match debug_tokens fuel' l' with
        | Ret tokens l'' => Ret (token :: tokens) l''
        | other => other
        end
      end
    | Raise e l' => Raise e l'
    | OutOfFuel => OutOfFuel
    end
  end.

End Lexer.

(** ** The scanner of the [Kex] package

    [Kex/kex_lexer.py] is an earlier scanner with the same cursor. Its
    [number] and [string] differ from the ones above: they are kept here to
    state where. *)

Module Package.

(** [number]: always an [INTEGER], through [int]. *)
Definition number : M Lexer.t Token.t := fun l =>
  match Lexer.scan_while (Lexer.budget l)
          (fun c => isdigit c || (c =? ".")%char) "" l with
  | None => OutOfFuel
  | Some (result, l') =>
    match Py.int result with
    | Some z =>
      Ret (Token.make INTEGER (PyInt z) (Lexer.line l') (Lexer.column l')) l'
    | None => Raise (ValueError result) l'
    end
  end.

(** [string]: no test for the end of the text before the closing quote. *)
Definition string_ : M Lexer.t Token.t := fun l =>
  let l0 := Lexer.advance l in
  match Lexer.scan_while (Lexer.budget l0)
          (fun c => negb (c =? Lexer.quote)%char) "" l0 with
  | None => OutOfFuel
  | Some (result, l') =>
    let l'' := Lexer.advance l' in
    Ret (Token.make STRING (PyStr result) (Lexer.line l'') (Lexer.column l'')) l''
  end.

End Package.

(** ** Syntax trees *)

(** A node of the tree, or Python's [None] where the parser returned no
    node. [DictExpr] holds the dict the parser built, keyed by the key
    nodes' [value]. *)
Inductive AST :=
| BinOp (left : AST) (op : Token.t) (right : AST)
| Num (token : Token.t)
| Var (token : Token.t)
| Assign (left : AST) (op : Token.t) (right : AST)
| ListExpr (elements : list AST)
| DictExpr (pairs : dict AST)
| None_node.

(** [type(node).__name__] *)
Definition class_name (node : AST) : string :=
  match node with
  | BinOp _ _ _ => "BinOp"
  | Num _ => "Num"
  | Var _ => "Var"
  | Assign _ _ _ => "Assign"
  | ListExpr _ => "ListExpr"
  | DictExpr _ => "DictExpr"
  | None_node => "NoneType"
  end.

(** [node.value]: only [Num] and [Var] have the attribute. *)
Definition attr_value {S : Type} (node : AST) : M S atom :=
  match node with
  | Num token | Var token => ret (Token.value token)
  | _ => raise (AttributeError (class_name node) "value")
  end.

(** [isinstance(node, Var)] *)
Definition is_Var (node : AST) : bool :=
  match node with Var _ => true | _ => false end.

(** ** The parser *)

Module Parser.

Record t := make { lexer : Lexer.t; current_token : Token.t }.

(** [Parser(lexer)]: the first token is read at once. *)
Definition init (lexer : Lexer.t) : outcome Lexer.t t :=
  match Lexer.get_next_token lexer with
  | Ret token lexer' => Ret (make lexer' token) lexer'
  | Raise e lexer' => Raise e lexer'
  | OutOfFuel => OutOfFuel
  end.

Definition error {A : Type} : M t A := raise InvalidSyntax.

Definition eat (token_type : TokenType) : M t unit := fun p =>
  if TokenType_eqb (Token.type (current_token p)) token_type then
    match Lexer.get_next_token (lexer p) with
    | Ret token lexer' => Ret tt (make lexer' token)
    | Raise e lexer' => Raise e (make lexer' (current_token p))
    | OutOfFuel => OutOfFuel
    end
  else error p.

(** [self.current_token.type == token_type] *)
Definition at_token (token_type : TokenType) (p : t) : bool :=
  TokenType_eqb (Token.type (current_token p)) token_type.

(** [if self.current_token.type == COMMA: self.eat(COMMA)] *)
Definition eat_comma : M t unit := fun p =>
  if at_token COMMA p then eat COMMA p else Ret tt p.

(** The methods call each other and loop on the tokens; each call and each
    round of a loop takes one unit of fuel. The loops carry what they have
    built so far: [elements], [pairs], [node]. *)
Fixpoint factor (fuel : nat) {struct fuel} : M t AST :=
  match fuel with
  | O => fun _ => OutOfFuel
  | S fuel' => fun p =>
    let token := current_token p in
    match Token.type token with
    | INTEGER | FLOAT | STRING | BOOLEAN =>
      (eat (Token.type token) ;;; ret (Num token)) p
    | IDENTIFIER =>
      (eat IDENTIFIER ;;; ret (Var token)) p
    | LPAREN =>
      (eat LPAREN ;;;
       node <- expr fuel' ;;
       eat RPAREN ;;;
       ret node) p
    | LBRACKET =>
      (eat LBRACKET ;;;
       elements <- factor_list fuel' [] ;;
       eat RBRACKET ;;;
       ret (ListExpr elements)) p
    | LBRACE =>
      (eat LBRACE ;;;
       pairs <- factor_dict fuel' [] ;;
       eat RBRACE ;;;
       ret (DictExpr pairs)) p
    | _ => Ret None_node p
    end
  end

with factor_list (fuel : nat) (elements : list AST) {struct fuel} : M t (list AST) :=
  match fuel with
  | O => fun _ => OutOfFuel
  | S fuel' => fun p =>
    if at_token RBRACKET p then Ret elements p
    else
      (node <- expr fuel' ;;
       eat_comma ;;;
       factor_list fuel' (elements ++ [node])%list) p
  end

with factor_dict (fuel : nat) (pairs : dict AST) {struct fuel} : M t (dict AST) :=
  match fuel with
  | O => fun _ => OutOfFuel
  | S fuel' => fun p =>
    if at_token RBRACE p then Ret pairs p
    else
      (key <- expr fuel' ;;
       eat COLON ;;;
       value <- expr fuel' ;;
       key_value <- attr_value key ;;
       eat_comma ;;;
       factor_dict fuel' (dict_set pairs key_value value)) p
  end

with term (fuel : nat) {struct fuel} : M t AST :=
  match fuel with
  | O => fun _ => OutOfFuel
  | S fuel' => node <- factor fuel' ;; term_loop fuel' node
  end

with term_loop (fuel : nat) (node : AST) {struct fuel} : M t AST :=
  match fuel with
  | O => fun _ => OutOfFuel
  | S fuel' => fun p =>
    let token := current_token p in
    match Token.type token with
    | MUL =>
      (eat MUL ;;;
       right <- factor fuel' ;;
       term_loop fuel' (BinOp node token right)) p
    | DIV =>
      (eat DIV ;;;
       right <- factor fuel' ;;
       term_loop fuel' (BinOp node token right)) p
    | _ => Ret node p
    end
  end

with expr (fuel : nat) {struct fuel} : M t AST :=
  match fuel with
  | O => fun _ => OutOfFuel
  | S fuel' => node <- term fuel' ;; expr_loop fuel' node
  end

with expr_loop (fuel : nat) (node : AST) {struct fuel} : M t AST :=
  match fuel with
  | O => fun _ => OutOfFuel
  | S fuel' => fun p =>
    let token := current_token p in
    match Token.type token with
    | PLUS =>
      (eat PLUS ;;;
       right <- term fuel' ;;
       expr_loop fuel' (BinOp node token right)) p
    | MINUS =>
      (eat MINUS ;;;
       right <- term fuel' ;;
       expr_loop fuel' (BinOp node token right)) p
    | DIV =>
      (eat DIV ;;;
       right <- term fuel' ;;
       expr_loop fuel' (BinOp node token right)) p
    | _ => Ret node p
    end
  end.

Definition assignment (fuel : nat) : M t AST :=
  left <- expr fuel ;;
  fun p =>
    if is_Var left && at_token ASSIGN p then
      let token := current_token p in
      (eat ASSIGN ;;;
       right <- expr fuel ;;
       ret (Assign left token right)) p
    else Ret left p.

Definition parse (fuel : nat) : M t AST := assignment fuel.

End Parser.

(** ** The symbol table *)

Module SymbolTable.

(** The [symbols] dict. *)
Definition t := dict value.

Definition init : t := [].

(** [self.symbols.get(name)]: [None] for a name that is not there. *)
Definition get (symbols : t) (name : atom) : value :=
  match dict_get symbols name with
  | Some v => v
  | None => Atom PyNone
  end.

Definition set (symbols : t) (name : atom) (v : value) : t :=
  dict_set symbols name v.

End SymbolTable.

(** ** The evaluator *)

Module Interpreter.

Record t := make { parser : Parser.t; symbol_table : SymbolTable.t }.

(** [Interpreter(parser)] *)
Definition init (parser : Parser.t) : t :=
  {| parser := parser; symbol_table := SymbolTable.init |}.

(** The value of an operator, or its exception, as the outcome of the
    visit. *)
Definition returning {S : Type} (r : exn + number) : M S value :=
  match r with
  | inr x => ret (of_number x)
  | inl e => raise e
  end.

(** [visit_BinOp] once both operands are visited. A numeric pair under an
    operator other than the four falls off the end of the method. *)
Definition visit_BinOp_values (op : Token.t) (left right : value)
  : M SymbolTable.t value :=
  match as_number left, as_number right with
  | Some x, Some y =>
    match Token.type op with
    | PLUS => returning (add x y)
    | MINUS => returning (sub x y)
    | MUL => returning (mul x y)
    | DIV =>
      if number_eqb y (NInt 0) then raise ZeroDivisionError
      else returning (truediv x y)
    | _ => ret (Atom PyNone)
    end
  | _, _ =>
    match left, right, Token.type op with
    | Atom (PyStr a), Atom (PyStr b), PLUS => ret (Atom (PyStr (a ++ b)))
    | _, _, _ =>
      raise (TypeError (Token.value op) (type_name left) (type_name right))
    end
  end.

(** [value is None] *)
Definition is_None (v : value) : bool :=
  match v with Atom PyNone => true | _ => false end.

Section Comprehensions.

Variable visit : AST -> M SymbolTable.t value.

(** [[self.visit(element) for element in node.elements]] *)
Fixpoint visit_elements (elements : list AST) : M SymbolTable.t (list value) :=
  match elements with
  | [] => ret []
  | element :: rest =>
    v <- visit element ;;
    vs <- visit_elements rest ;;
    ret (v :: vs)
  end.

(** [{key: self.visit(value) for key, value in node.pairs.items()}],
    filling [result] item by item. *)
Fixpoint visit_items (items : dict AST) (result : dict value)
  : M SymbolTable.t (dict value) :=
  match items with
  | [] => ret result
  | (key, value) :: rest =>
    v <- visit value ;;
    visit_items rest (dict_set result key v)
  end.

End Comprehensions.

(** [visit], with the [visit_<class>] method of each node class inline;
    [None] has no method and goes to [generic_visit]. *)
Fixpoint visit (node : AST) : M SymbolTable.t value :=
  match node with
  | BinOp node_left op node_right =>
    left <- visit node_left ;;
    right <- visit node_right ;;
    visit_BinOp_values op left right
  | Num token => ret (Atom (Token.value token))
  | Var token => fun symbols =>
    let value := SymbolTable.get symbols (Token.value token) in
    if is_None value then Raise (NameError (Token.value token)) symbols
    else Ret value symbols
  | Assign node_left op node_right =>
    var_name <- attr_value node_left ;;
    value <- visit node_right ;;
    fun symbols => Ret value (SymbolTable.set symbols var_name value)
  | ListExpr elements =>
    vs <- visit_elements visit elements ;;
    ret (PyList vs)
  | DictExpr pairs =>
    d <- visit_items visit pairs [] ;;
    ret (PyDict d)
  | None_node => raise (NoVisitMethod (class_name None_node))
  end.

(** An action on a part of the state, run inside the whole. *)
Definition on_parser {A : Type} (m : M Parser.t A) : M t A := fun i =>
  match m (parser i) with
  | Ret a p => Ret a {| parser := p; symbol_table := symbol_table i |}
  | Raise e p => Raise e {| parser := p; symbol_table := symbol_table i |}
  | OutOfFuel => OutOfFuel
  end.

Definition on_symbol_table {A : Type} (m : M SymbolTable.t A) : M t A := fun i =>
  match m (symbol_table i) with
  | Ret a s => Ret a {| parser := parser i; symbol_table := s |}
  | Raise e s => Raise e {| parser := parser i; symbol_table := s |}
  | OutOfFuel => OutOfFuel
  end.

Definition interpret (fuel : nat) : M t value :=
  tree <- on_parser (Parser.parse fuel) ;;
  on_symbol_table (visit tree).

End Interpreter.

(** ** The read-evaluate-print loop *)

Module Main.

(** [text.strip()] and [text.lower()] *)
Fixpoint lstrip (s : string) : string :=
  match s with
  | EmptyString => EmptyString
  | String c s' => if isspace c then lstrip s' else s
  end.

Fixpoint rstrip (s : string) : string :=
  match s with
  | EmptyString => EmptyString
  | String c s' =>
    match rstrip s' with
    | EmptyString => if isspace c then EmptyString else String c EmptyString
    | r => String c r
    end
  end.

Definition strip (s : string) : string := rstrip (lstrip s).

Definition lower_char (c : ascii) : ascii :=
  if between 65 90 c || between 192 214 c || between 216 222 c
  then ascii_of_N (code c + 32)
  else c.

Fixpoint lower (s : string) : string :=
  match s with
  | EmptyString => EmptyString
  | String c s' => String (lower_char c) (lower s')
  end.

(** The objects [main] creates before its loop: a scanner on the empty
    text, a parser on it (which reads the first token), the interpreter.
    [None] stands for an exception before the loop; [session_starts] shows
    there is none. *)
Definition session : option Interpreter.t :=
  match Parser.init (Lexer.init "") with
  | Ret parser _ => Some (Interpreter.init parser)
  | _ => None
  end.

(** The session as it stands when the loop is entered. *)
Definition fresh : Interpreter.t :=
  Interpreter.init
    (Parser.make (Lexer.init "") (Token.make EOF PyNone 1 1)).

(** The first statements of the [try] block: the scanner is pointed at the
    line (its [line] and [column] are left as they are) and the parser takes
    its first token. *)
Definition start_line (text : string) : M Interpreter.t unit :=
  Interpreter.on_parser
    (fun p =>
       let l := Parser.lexer p in
       let lexer :=
         {| Lexer.text := text; Lexer.pos := 0;
            Lexer.current_char := String.get 0 text;
            Lexer.line := Lexer.line l; Lexer.column := Lexer.column l |} in
       match Lexer.get_next_token lexer with
       | Ret token lexer' => Ret tt (Parser.make lexer' token)
       | Raise e lexer' => Raise e (Parser.make lexer' (Parser.current_token p))
       | OutOfFuel => OutOfFuel
       end).

(** The [try] block on one line of input, up to the result. *)
Definition evaluate_line (fuel : nat) (text : string) : M Interpreter.t value :=
  start_line text ;;; Interpreter.interpret fuel.

(** What one round of the loop does. *)
Inductive round :=
| Skipped                                  (* blank line: [continue] *)
| Exited                                   (* [exit]: [break] *)
| Printed (result : value) (i : Interpreter.t)
| Silent (i : Interpreter.t)               (* the result was [None] *)
| Reported (e : exn) (i : Interpreter.t)   (* [Error: ...], the loop goes on *)
| Hung.                                    (* the fuel ran out *)

Definition loop_round (fuel : nat) (text : string) (i : Interpreter.t) : round :=
  if (strip text =? "")%string then Skipped
  else if (lower (strip text) =? "exit")%string then Exited
  else
    match evaluate_line fuel text i with
    | Ret result i' =>
      if Interpreter.is_None result then Silent i' else Printed result i'
    | Raise e i' => Reported e i'
    | OutOfFuel => Hung
    end.

(** One line on a fresh session. *)
Definition run (fuel : nat) (text : string) : outcome Interpreter.t value :=
  evaluate_line fuel text fresh.

End Main.

(** ** Vocabulary of the statements below *)

(** What a call answered, without the state it left. *)
Definition answer {S A : Type} (o : outcome S A) : option (exn + A) :=
  match o with
  | Ret a _ => Some (inr a)
  | Raise e _ => Some (inl e)
  | OutOfFuel => None
  end.

(** The tree the parser returns for a line on a fresh session. *)
Definition parse_line (fuel : nat) (text : string) : outcome Interpreter.t AST :=
  (Main.start_line text ;;; Interpreter.on_parser (Parser.parse fuel)) Main.fresh.

(** The scanner after [n] calls of [advance]. *)
Fixpoint advances (n : nat) (l : Lexer.t) : Lexer.t :=
  match n with
  | O => l
  | S n' => advances n' (Lexer.advance l)
  end.

(** Every character of [s] passes [keep]. *)
Fixpoint all_chars (keep : ascii -> bool) (s : string) : bool :=
  match s with
  | EmptyString => true
  | String c s' => keep c && all_chars keep s'
  end.

(** [s] is empty or starts with a character that fails [keep]. *)
Definition stops (keep : ascii -> bool) (s : string) : bool :=
  match s with
  | EmptyString => true
  | String c _ => negb (keep c)
  end.

(** The characters of a numeral, and of the inside of a string literal. *)
Definition numeral_char (c : ascii) : bool := isdigit c || (c =? ".")%char.
Definition not_quote (c : ascii) : bool := negb (c =? Lexer.quote)%char.

Fixpoint count_dots (s : string) : nat :=
  match s with
  | EmptyString => 0
  | String c s' => (if (c =? ".")%char then 1 else 0) + count_dots s'
  end.

(** The scanner's cached character is the one under its cursor. *)
Definition in_step (l : Lexer.t) : Prop :=
  Lexer.current_char l = String.get (Lexer.pos l) (Lexer.text l).

(** The token kinds on which [factor] takes one of its branches. *)
Definition starts_factor (token_type : TokenType) : bool :=
  match token_type with
  | INTEGER | FLOAT | STRING | BOOLEAN | IDENTIFIER
  | LPAREN | LBRACKET | LBRACE => true
  | _ => false
  end.

(** The token kinds the loops of [term] and [expr] go on with. *)
Definition is_operator (token_type : TokenType) : bool :=
  match token_type with
  | PLUS | MINUS | MUL | DIV => true
  | _ => false
  end.

(** A number that is zero: the int 0 (and [False]), or a float zero of
    either sign. *)
Definition is_zero (x : number) : bool :=
  match x with
  | NInt Z0 => true
  | NFloat (S754_zero _) => true
  | _ => false
  end.

Definition is_float (x : number) : bool :=
  match x with NFloat _ => true | NInt _ => false end.

(** No [Assign] node anywhere in the tree. *)
Fixpoint assign_free (node : AST) : bool :=
  match node with
  | BinOp node_left _ node_right => assign_free node_left && assign_free node_right
  | Num _ | Var _ | None_node => true
  | Assign _ _ _ => false
  | ListExpr elements => forallb assign_free elements
  | DictExpr pairs => forallb (fun kv => assign_free (snd kv)) pairs
  end.

(** The string literal with [s] between the quotes. *)
Definition quoted (s : string) : string :=
  String Lexer.quote (s ++ String Lexer.quote "").

(** [m'] answers as [m] does wherever [m] did not run out of fuel. *)
Definition extends {S A : Type} (m m' : M S A) : Prop :=
  forall s, m s <> OutOfFuel -> m' s = m s.

(** The tokens of a one-line example: an integer, and a token spelt [c],
    at their columns. *)
Definition integer_token (z : Z) (column : Z) : Token.t :=
  Token.make INTEGER (PyInt z) 1 column.

Definition operator_token (token_type : TokenType) (c : string) (column : Z)
  : Token.t :=
  Token.make token_type (PyStr c) 1 column.

(** The floats 1.0, 2.5 and 3.5. *)
Definition float_1_0 : spec_float := S754_finite false 4503599627370496 (-52).
Definition float_2_5 : spec_float := S754_finite false 5629499534213120 (-51).
Definition float_3_5 : spec_float := S754_finite false 7881299347898368 (-51).

(** The value is an int. *)
Definition is_Integer (v : option (exn + value)) : bool :=
  match v with
  | Some (inr (Atom (PyInt _))) => true
  | _ => false
  end.

(** A decimal digit or the point. *)
Definition decimal_or_dot (c : ascii) : bool := isdecimal c || (c =? ".")%char.

(** No entry of [d] has a key equal to [k]. *)
Definition key_absent {V : Type} (d : dict V) (k : atom) : bool :=
  forallb (fun kv => negb (eqb (fst kv) k)) d.

(** No key of [d] equals a later one. *)
Fixpoint distinct_keys {V : Type} (d : dict V) : bool :=
  match d with
  | [] => true
  | (k, _) :: d' =>
    forallb (fun kv => negb (eqb k (fst kv))) d' && distinct_keys d'
  end.

(** The line [{"a": 1, "a": 2}]. *)
Definition dict_with_a_twice : string :=
  "{" ++ quoted "a" ++ ": 1, " ++ quoted "a" ++ ": 2}".

(** The call left the state [s] as it was, whatever it answered. *)
Definition unchanged {S A : Type} (o : outcome S A) (s : S) : Prop :=
  match o with
  | Ret _ s' | Raise _ s' => s' = s
  | OutOfFuel => False
  end.

(** Every value expression of the dict is free of [Assign]. *)
Definition values_assign_free (pairs : dict AST) : bool :=
  forallb (fun kv => assign_free (snd kv)) pairs.

(** The characters from the cursor to the end of the text. *)
Definition remaining (l : Lexer.t) : nat :=
  String.length (Lexer.text l) - Lexer.pos l.

(** [l'] is a later state of the scanner [l] on the same text. *)
Definition follows (l l' : Lexer.t) : Prop :=
  Lexer.text l' = Lexer.text l /\ in_step l' /\ Lexer.pos l <= Lexer.pos l'.

(** The same, at least one character further. *)
Definition moved (l l' : Lexer.t) : Prop :=
  Lexer.text l' = Lexer.text l /\ in_step l' /\ Lexer.pos l < Lexer.pos l'.

(** A scanning method answered with a token that is not [EOF], having
    moved on, or raised. *)
Definition token_or_error (o : outcome Lexer.t Token.t) (l : Lexer.t) : Prop :=
  match o with
  | Ret token l' => moved l l' /\ Token.type token <> EOF
  | Raise _ _ => True
  | OutOfFuel => False
  end.

(** [get_next_token] answered with [EOF] at the end of the text, or with
    another token and less text left, or raised. *)
Definition scanned (o : outcome Lexer.t Token.t) (l : Lexer.t) : Prop :=
  match o with
  | Ret token l' =>
    follows l l' /\
    (token = Token.make EOF PyNone (Lexer.line l') (Lexer.column l') /\
     Lexer.current_char l' = None
     \/
     Token.type token <> EOF /\ remaining l' < remaining l)
  | Raise _ _ => True
  | OutOfFuel => False
  end.

(** The tokens end with [eof], the only [EOF] among them. *)
Definition ends_with_one_EOF (tokens : list Token.t) (eof : Token.t) : Prop :=
  exists body,
    tokens = (body ++ [eof])%list /\
    Forall (fun token => Token.type token <> EOF) body /\
    Token.type eof = EOF.

(** ** Vocabulary of the further properties *)

(** The newlines of [s]. *)
Fixpoint count_newlines (s : string) : Z :=
  match s with
  | EmptyString => 0%Z
  | String c s' =>
    ((if (c =? Lexer.newline)%char then 1 else 0) + count_newlines s')%Z
  end.

(** The characters of a name, and of the inside of a line comment. *)
Definition word_char (c : ascii) : bool := isalnum c || (c =? "_")%char.
Definition not_newline (c : ascii) : bool := negb (c =? Lexer.newline)%char.

(** The two characters that make a slash the start of a comment. *)
Definition comment_opener (c : ascii) : bool :=
  (c =? "/")%char || (c =? "*")%char.

(** [s] holds a star directly followed by a slash. *)
Fixpoint closes_in (s : string) : bool :=
  match s with
  | EmptyString => false
  | String c s' =>
    ((c =? "*")%char && negb (stops (fun c' => (c' =? "/")%char) s'))
    || closes_in s'
  end.

(** The characters on which [get_next_token] takes one of its branches. *)
Definition starts_token (c : ascii) : bool :=
  isspace c || (c =? "/")%char || isdigit c || (c =? ".")%char
  || (c =? Lexer.quote)%char || isalpha c || (c =? "_")%char
  || match Lexer.single_character Lexer.single_character_tokens c with
     | Some _ => true
     | None => false
     end.

(** The exceptions of the scanner. *)
Definition is_lexical (e : exn) : bool :=
  match e with
  | InvalidCharacter _ _ _ | UnterminatedString _ _ | ValueError _ => true
  | _ => false
  end.

(** Two spaces, a newline and the name [x]. *)
Definition blank_then_x : string := "  " ++ String Lexer.newline "x".

(** The token [identifier] makes of the name [run]. *)
Definition word_token (run : string) (line column : Z) : Token.t :=
  if (run =? "true")%string then Token.make BOOLEAN (PyBool true) line column
  else if (run =? "false")%string then Token.make BOOLEAN (PyBool false) line column
  else Token.make IDENTIFIER (PyStr run) line column.

(** The exceptions of the parser: the scanner's, a token that is not the
    expected one, and a dict key that is no literal and no name. *)
Definition is_parse_error (e : exn) : bool :=
  match e with
  | InvalidSyntax => true
  | AttributeError _ attribute => (attribute =? "value")%string
  | _ => is_lexical e
  end.

(** The exceptions of the evaluator on the trees the parser returns. *)
Definition is_evaluation_error (e : exn) : bool :=
  match e with
  | NameError _ | TypeError _ _ _ | ZeroDivisionError | OverflowError
  | NoVisitMethod _ => true
  | _ => false
  end.

(** Every dict of the tree has distinct keys. *)
Fixpoint dicts_distinct (node : AST) : bool :=
  match node with
  | BinOp node_left _ node_right
  | Assign node_left _ node_right =>
    dicts_distinct node_left && dicts_distinct node_right
  | Num _ | Var _ | None_node => true
  | ListExpr elements => forallb dicts_distinct elements
  | DictExpr pairs =>
    distinct_keys pairs && forallb (fun kv => dicts_distinct (snd kv)) pairs
  end.

(** The value is a string. *)
Definition is_str (v : value) : bool :=
  match v with Atom (PyStr _) => true | _ => false end.

(** The parser with the scanner [l] and the token [token]. *)
Definition parser_at (text : string) (token : Token.t) : Parser.t :=
  Parser.make (Lexer.init text) token.

(** The value of a token has the Python type of its kind: an int, a
    float, a bool, [None] for [EOF], and a string for every other kind. *)
Definition well_typed (token : Token.t) : bool :=
  match Token.type token, Token.value token with
  | INTEGER, PyInt _ | FLOAT, PyFloat _ | BOOLEAN, PyBool _ | EOF, PyNone => true
  | INTEGER, _ | FLOAT, _ | BOOLEAN, _ | EOF, _ => false
  | _, PyStr _ => true
  | _, _ => false
  end.

(** Every literal of the tree carries a value that is not [None], every
    name is a string, and every operator node has one of the four
    operators. *)
Fixpoint valued (node : AST) : bool :=
  match node with
  | BinOp node_left op node_right =>
    is_operator (Token.type op) && valued node_left && valued node_right
  | Num token => negb (Interpreter.is_None (Atom (Token.value token)))
  | Var token => is_str (Atom (Token.value token))
  | Assign node_left _ node_right => valued node_left && valued node_right
  | ListExpr elements => forallb valued elements
  | DictExpr pairs => forallb (fun kv => valued (snd kv)) pairs
  | None_node => true
  end.

(** The operators of [term]'s loop. *)
Definition is_term_operator (token_type : TokenType) : bool :=
  match token_type with
  | MUL | DIV => true
  | _ => false
  end.

(** The scanner [l'] is [l] after some calls of [advance]. *)
Definition ahead (l l' : Lexer.t) : Prop := exists n, l' = advances n l.

(** The state a call left, seen through [scanner], is ahead of the scanner
    it started on. *)
Definition stays_ahead {S A : Type} (scanner : S -> Lexer.t)
  (o : outcome S A) (s : S) : Prop :=
  match o with
  | Ret _ s' | Raise _ s' => ahead (scanner s) (scanner s')
  | OutOfFuel => True
  end.

(** The scanner of a session. *)
Definition scanner_of (i : Interpreter.t) : Lexer.t :=
  Parser.lexer (Interpreter.parser i).

(** The session after the line [1 + 2] on a fresh one. *)
Definition after_1_plus_2 : Interpreter.t :=
  Interpreter.make
    (Parser.make (advances 5 (Lexer.init "1 + 2")) (Token.make EOF PyNone 1 6))
    SymbolTable.init.

(** ** The scanner of the [Kex] package, with its own tokens

    [Kex/kex_tokens.py] has nine token kinds more than [kex_main.py]:
    three keywords and six comparisons. The [Lexer] of [Kex/kex_lexer.py]
    has the fields, the constructor, [advance] and [skip_whitespace] of
    the one above, character for character; the other methods are its
    own. It knows no comment. *)

Module Kex.

Inductive TokenType :=
| INTEGER | FLOAT | STRING | BOOLEAN | IDENTIFIER
| ASSIGN | PLUS | MINUS | MUL | DIV
| LPAREN | RPAREN | LBRACKET | RBRACKET | LBRACE | RBRACE
| COMMA | COLON | EOF
| IF | ELIF | ELSE | EQ | NE | LT | LE | GT | GE.

Module Token.

Record t := make { type : TokenType; value : atom; line : Z; column : Z }.

End Token.

(** [number]: always an [INTEGER], through [int]; the column is the
    scanner's after the numeral. *)
Definition number : M Lexer.t Token.t := fun l =>
  match Lexer.scan_while (Lexer.budget l)
          (fun c => isdigit c || (c =? ".")%char) "" l with
  | None => OutOfFuel
  | Some (result, l') =>
    match Py.int result with
    | Some z =>
      Ret (Token.make INTEGER (PyInt z) (Lexer.line l') (Lexer.column l')) l'
    | None => Raise (ValueError result) l'
    end
  end.

(** [string]: no test for the end of the text before the closing quote. *)
Definition string_ : M Lexer.t Token.t := fun l =>
  let l0 := Lexer.advance l in
  match Lexer.scan_while (Lexer.budget l0)
          (fun c => negb (c =? Lexer.quote)%char) "" l0 with
  | None => OutOfFuel
  | Some (result, l') =>
    let l'' := Lexer.advance l' in
    Ret (Token.make STRING (PyStr result) (Lexer.line l'') (Lexer.column l'')) l''
  end.

Definition skip_whitespace : M Lexer.t unit := Lexer.advance_while isspace.

Definition identifier_or_keyword : M Lexer.t Token.t := fun l =>
  let start_pos := Z.of_nat (Lexer.pos l) in
  match Lexer.scan_while (Lexer.budget l)
          (fun c => isalnum c || (c =? "_")%char) "" l with
  | None => OutOfFuel
  | Some (result, l') =>
    if (result =? "if")%string then
      Ret (Token.make IF (PyStr result) (Lexer.line l') start_pos) l'
    else if (result =? "elif")%string then
      Ret (Token.make ELIF (PyStr result) (Lexer.line l') start_pos) l'
    else if (result =? "else")%string then
      Ret (Token.make ELSE (PyStr result) (Lexer.line l') start_pos) l'
    else if (result =? "true")%string then
      Ret (Token.make BOOLEAN (PyBool true) (Lexer.line l') start_pos) l'
    else if (result =? "false")%string then
      Ret (Token.make BOOLEAN (PyBool false) (Lexer.line l') start_pos) l'
    else Ret (Token.make IDENTIFIER (PyStr result) (Lexer.line l') start_pos) l'
  end.

(** [return Token(token_type, spelling, self.line, self.column - 1)] *)
Definition token_before (token_type : TokenType) (spelling : string)
  : M Lexer.t Token.t := fun l =>
  Ret (Token.make token_type (PyStr spelling) (Lexer.line l) (Lexer.column l - 1)) l.

(** [self.advance()] and that [return]. *)
Definition advance_and_return (token_type : TokenType) (spelling : string)
  : M Lexer.t Token.t := fun l =>
  token_before token_type spelling (Lexer.advance l).

Fixpoint get_next_token_loop (fuel : nat) (l : Lexer.t) : outcome Lexer.t Token.t :=
  match fuel with
  | O => OutOfFuel
  | S fuel' =>
    match Lexer.current_char l with
    | None => Ret (Token.make EOF PyNone (Lexer.line l) (Lexer.column l)) l
    | Some c =>
      if isspace c then
        (skip_whitespace ;;; get_next_token_loop fuel') l
      else if isalpha c || (c =? "_")%char then identifier_or_keyword l
      else if isdigit c || (c =? ".")%char then number l
      else if (c =? Lexer.quote)%char then string_ l
      else if (c =? "=")%char then
        let l1 := Lexer.advance l in
        if Lexer.is_char "=" (Lexer.current_char l1)
        then advance_and_return EQ "==" l1
        else token_before ASSIGN "=" l1
      else if (c =? "!")%char then
        let l1 := Lexer.advance l in
        if Lexer.is_char "=" (Lexer.current_char l1)
        then advance_and_return NE "!=" l1
        else Raise (InvalidCharacter "!" (Lexer.line l1) (Lexer.column l1)) l1
      else if (c =? "<")%char then
        let l1 := Lexer.advance l in
        if Lexer.is_char "=" (Lexer.current_char l1)
        then advance_and_return LE "<=" l1
        else token_before LT "<" l1
      else if (c =? ">")%char then
        let l1 := Lexer.advance l in
        if Lexer.is_char "=" (Lexer.current_char l1)
        then advance_and_return GE ">=" l1
        else token_before GT ">" l1
      else if (c =? "+")%char then advance_and_return PLUS "+" l
      else if (c =? "-")%char then advance_and_return MINUS "-" l
      else if (c =? "*")%char then advance_and_return MUL "*" l
      else if (c =? "/")%char then advance_and_return DIV "/" l
      else if (c =? "(")%char then advance_and_return LPAREN "(" l
      else if (c =? ")")%char then advance_and_return RPAREN ")" l
      else if (c =? "[")%char then advance_and_return LBRACKET "[" l
      else if (c =? "]")%char then advance_and_return RBRACKET "]" l
      else if (c =? "{")%char then advance_and_return LBRACE "{" l
      else if (c =? "}")%char then advance_and_return RBRACE "}" l
      else if (c =? ",")%char then advance_and_return COMMA "," l
      else if (c =? ":")%char then advance_and_return COLON ":" l
      else Raise (InvalidCharacter c (Lexer.line l) (Lexer.column l)) l
    end
  end.

Definition get_next_token : M Lexer.t Token.t := fun l =>
  get_next_token_loop (Lexer.budget l) l.

(** [reset(text)]: the scanner of [Lexer(text)] again, line and column
    included. *)
Definition reset (text : string) (l : Lexer.t) : Lexer.t :=
  {| Lexer.text := text; Lexer.pos := 0;
     Lexer.current_char := String.get 0 text;
     Lexer.line := 1; Lexer.column := 1 |}.

End Kex.

(** ** Vocabulary of the properties of the package scanner *)

(** The characters that start an operator of one or two characters, with
    the kind of the operator with [=] and, where there is one, the kind of
    the character alone. *)
Definition operator_pair (c : ascii) : option (Kex.TokenType * option Kex.TokenType) :=
  if (c =? "=")%char then Some (Kex.EQ, Some Kex.ASSIGN)
  else if (c =? "!")%char then Some (Kex.NE, None)
  else if (c =? "<")%char then Some (Kex.LE, Some Kex.LT)
  else if (c =? ">")%char then Some (Kex.GE, Some Kex.GT)
  else None.

(** The twelve tokens of one character that no [=] can extend. *)
Definition plain_character (c : ascii) : option Kex.TokenType :=
  if (c =? "+")%char then Some Kex.PLUS
  else if (c =? "-")%char then Some Kex.MINUS
  else if (c =? "*")%char then Some Kex.MUL
  else if (c =? "/")%char then Some Kex.DIV
  else if (c =? "(")%char then Some Kex.LPAREN
  else if (c =? ")")%char then Some Kex.RPAREN
  else if (c =? "[")%char then Some Kex.LBRACKET
  else if (c =? "]")%char then Some Kex.RBRACKET
  else if (c =? "{")%char then Some Kex.LBRACE
  else if (c =? "}")%char then Some Kex.RBRACE
  else if (c =? ",")%char then Some Kex.COMMA
  else if (c =? ":")%char then Some Kex.COLON
  else None.

(** The token [identifier_or_keyword] makes of the word [run]. *)
Definition keyword_token (run : string) (line column : Z) : Kex.Token.t :=
  if (run =? "if")%string then Kex.Token.make Kex.IF (PyStr run) line column
  else if (run =? "elif")%string then Kex.Token.make Kex.ELIF (PyStr run) line column
  else if (run =? "else")%string then Kex.Token.make Kex.ELSE (PyStr run) line column
  else if (run =? "true")%string then Kex.Token.make Kex.BOOLEAN (PyBool true) line column
  else if (run =? "false")%string then Kex.Token.make Kex.BOOLEAN (PyBool false) line column
  else Kex.Token.make Kex.IDENTIFIER (PyStr run) line column.

(** The words with a token kind of their own. *)
Definition is_reserved (run : string) : bool :=
  (run =? "if")%string || (run =? "elif")%string || (run =? "else")%string
  || (run =? "true")%string || (run =? "false")%string.

(** The exceptions of the package scanner. *)
Definition is_package_lexical (e : exn) : bool :=
  match e with
  | InvalidCharacter _ _ _ | ValueError _ => true
  | _ => false
  end.

(** The package scanner answered with a token that is not [EOF], having
    moved on, or raised. *)
Definition package_token_or_error (o : outcome Lexer.t Kex.Token.t) (l : Lexer.t)
  : Prop :=
  match o with
  | Ret token l' => moved l l' /\ Kex.Token.type token <> Kex.EOF
  | Raise e _ => is_package_lexical e = true
  | OutOfFuel => False
  end.

(** The package's [get_next_token] answered with [EOF] at the end of the
    text, or with another token and less text left, or raised one of its
    two exceptions. *)
Definition package_scanned (o : outcome Lexer.t Kex.Token.t) (l : Lexer.t) : Prop :=
  match o with
  | Ret token l' =>
    follows l l' /\
    (token = Kex.Token.make Kex.EOF PyNone (Lexer.line l') (Lexer.column l') /\
     Lexer.current_char l' = None
     \/
     Kex.Token.type token <> Kex.EOF /\ remaining l' < remaining l)
  | Raise e _ => is_package_lexical e = true
  | OutOfFuel => False
  end.

(** The characters other than the opening bracket. *)
Definition not_bracket (c : ascii) : bool := negb (c =? "[")%char.

(** What is left to parse: the characters not yet scanned, and the
    current token unless it is [EOF]. *)
Definition left_to_parse (p : Parser.t) : nat :=
  remaining (Parser.lexer p)
  + (if Parser.at_token EOF p then 0 else 1).

(** A parser on a text without opening bracket: its scanner's cached
    character is the one under the cursor, an [EOF] token means the
    scanner is at the end of the text, and the current token is no
    opening bracket. *)
Definition bracket_free (p : Parser.t) : Prop :=
  in_step (Parser.lexer p) /\
  all_chars not_bracket (Lexer.text (Parser.lexer p)) = true /\
  (Parser.at_token EOF p = true -> Lexer.current_char (Parser.lexer p) = None) /\
  Parser.at_token LBRACKET p = false.

(** The call ended, and has not added to what is left to parse. *)
Definition settles {A : Type} (o : outcome Parser.t A) (p : Parser.t) : Prop :=
  match o with
  | Ret _ p' => bracket_free p' /\ left_to_parse p' <= left_to_parse p
  | Raise _ _ => True
  | OutOfFuel => False
  end.

(** The same, with less left to parse. *)
Definition consumes {A : Type} (o : outcome Parser.t A) (p : Parser.t) : Prop :=
  match o with
  | Ret _ p' => bracket_free p' /\ left_to_parse p' < left_to_parse p
  | Raise _ _ => True
  | OutOfFuel => False
  end.

(** ** The parser of the [Kex] package

    [Kex/kex_parser.py], as far as [parse] reaches: [assignment],
    [variable], [expr] and [term]. Its exceptions are not those of
    [kex_main.py], so it has a result type of its own. *)

Module KexParser.

Import Kex.

Definition TokenType_eqb (a b : TokenType) : bool :=
  match a, b with
  | INTEGER, INTEGER | FLOAT, FLOAT | STRING, STRING | BOOLEAN, BOOLEAN
  | IDENTIFIER, IDENTIFIER | ASSIGN, ASSIGN | PLUS, PLUS | MINUS, MINUS
  | MUL, MUL | DIV, DIV | LPAREN, LPAREN | RPAREN, RPAREN
  | LBRACKET, LBRACKET | RBRACKET, RBRACKET | LBRACE, LBRACE
  | RBRACE, RBRACE | COMMA, COMMA | COLON, COLON | EOF, EOF
  | IF, IF | ELIF, ELIF | ELSE, ELSE | EQ, EQ | NE, NE
  | LT, LT | LE, LE | GT, GT | GE, GE => true
  | _, _ => false
  end.

Record t := make { lexer : Lexer.t; current_token : Token.t }.

(** The nodes of [kex_ast.py] that [expr] builds. *)
Inductive AST :=
| BinOp (left : AST) (op : Token.t) (right : AST)
| Num (token : Token.t)
| String_ (token : Token.t)
| Boolean (token : Token.t)
| Var (token : Token.t).

(** What [error] is called with: a token kind, or the text
    [Unexpected token: <kind>]. *)
Inductive expectation :=
| Kind (token_type : TokenType)
| Unexpected (token_type : TokenType).

(** The exceptions: those of the scanner, the [Parser error] of [error]
    with what was expected and the kind of the current token, and the
    [TypeError] of a call that lacks a required argument. *)
Inductive error_raised :=
| Scanning (e : exn)
| ParserError (expected_type : expectation) (got : TokenType)
| MissingArgument (class_name argument : string).

Inductive result (A : Type) :=
| Returned (a : A) (p : t)
| Raised (e : error_raised) (p : t)
| NoFuel.

Arguments Returned {A} a p.
Arguments Raised {A} e p.
Arguments NoFuel {A}.

Definition run (A : Type) := t -> result A.

Definition pure {A : Type} (a : A) : run A := fun p => Returned a p.

Definition fail {A : Type} (e : error_raised) : run A := fun p => Raised e p.

Definition and_then {A B : Type} (m : run A) (k : A -> run B) : run B :=
  fun p =>
    match m p with
    | Returned a p' => k a p'
    | Raised e p' => Raised e p'
    | NoFuel => NoFuel
    end.

(** [error(expected_type)] *)
Definition error {A : Type} (expected_type : expectation) : run A := fun p =>
  Raised (ParserError expected_type (Token.type (current_token p))) p.

Definition eat (token_type : TokenType) : run unit := fun p =>
  if TokenType_eqb (Token.type (current_token p)) token_type then
    match get_next_token (lexer p) with
    | Ret token lexer' => Returned tt (make lexer' token)
    | Raise e lexer' => Raised (Scanning e) (make lexer' (current_token p))
    | OutOfFuel => NoFuel
    end
  else error (Kind token_type) p.

Definition variable : run AST := fun p =>
  let token := current_token p in
  and_then (eat IDENTIFIER) (fun _ => pure (Var token)) p.

(** [term] and [expr] call each other; each call and each round of the
    loop of [expr] takes one unit of fuel. *)
Fixpoint term (fuel : nat) {struct fuel} : run AST :=
  match fuel with
  | O => fun _ => NoFuel
  | S fuel' => fun p =>
    let token := current_token p in
    match Token.type token with
    | INTEGER => and_then (eat INTEGER) (fun _ => pure (Num token)) p
    | FLOAT => and_then (eat FLOAT) (fun _ => pure (Num token)) p
    | STRING => and_then (eat STRING) (fun _ => pure (String_ token)) p
    | BOOLEAN => and_then (eat BOOLEAN) (fun _ => pure (Boolean token)) p
    | IDENTIFIER => variable p
    | LPAREN =>
      and_then (eat LPAREN) (fun _ =>
      and_then (expr fuel') (fun node =>
      and_then (eat RPAREN) (fun _ =>
      pure node))) p
    | _ => error (Unexpected (Token.type token)) p
    end
  end

with expr (fuel : nat) {struct fuel} : run AST :=
  match fuel with
  | O => fun _ => NoFuel
  | S fuel' => and_then (term fuel') (fun node => expr_loop fuel' node)
  end

with expr_loop (fuel : nat) (node : AST) {struct fuel} : run AST :=
  match fuel with
  | O => fun _ => NoFuel
  | S fuel' => fun p =>
    let token := current_token p in
    match Token.type token with
    | PLUS =>
      and_then (eat PLUS) (fun _ =>
      and_then (term fuel') (fun right =>
      expr_loop fuel' (BinOp node token right))) p
    | MINUS =>
      and_then (eat MINUS) (fun _ =>
      and_then (term fuel') (fun right =>
      expr_loop fuel' (BinOp node token right))) p
    | _ => Returned node p
    end
  end.

(** [assignment]: the call [Assign(left=node, right=self.expr())] gives no
    [op], which [Assign.__init__(self, left, op, right)] requires: once
    its arguments are evaluated, the call raises. *)
Definition assignment (fuel : nat) : run AST :=
  and_then variable (fun node =>
  and_then (eat ASSIGN) (fun _ =>
  and_then (expr fuel) (fun right =>
  fail (MissingArgument "Assign" "op")))).

Definition parse (fuel : nat) : run AST := assignment fuel.

(** [reset]: the parser takes the next token of its scanner. *)
Definition reset : run unit := fun p =>
  match get_next_token (lexer p) with
  | Ret token lexer' => Returned tt (make lexer' token)
  | Raise e lexer' => Raised (Scanning e) (make lexer' (current_token p))
  | OutOfFuel => NoFuel
  end.

(** What the loop of the package's [main] does with a line before it
    evaluates anything: [lexer.reset(text)], [parser.reset()], and the
    [parse] that [interpret] starts with. *)
Definition read_line (fuel : nat) (text : string) : run AST := fun p =>
  and_then reset (fun _ => parse fuel)
    (make (Kex.reset text (lexer p)) (current_token p)).

End KexParser.

(** What is left to parse for the package parser. *)
Definition package_left_to_parse (p : KexParser.t) : nat :=
  remaining (KexParser.lexer p)
  + (if KexParser.TokenType_eqb (Kex.Token.type (KexParser.current_token p)) Kex.EOF
     then 0 else 1).

(** The call of the package parser ended, with no more left to parse. *)
Definition package_settles {A : Type} (o : KexParser.result A) (p : KexParser.t)
  : Prop :=
  match o with
  | KexParser.Returned _ p' =>
    in_step (KexParser.lexer p') /\
    package_left_to_parse p' <= package_left_to_parse p
  | KexParser.Raised _ _ => True
  | KexParser.NoFuel => False
  end.

(** The same, with less left to parse. *)
Definition package_consumes {A : Type} (o : KexParser.result A) (p : KexParser.t)
  : Prop :=
  match o with
  | KexParser.Returned _ p' =>
    in_step (KexParser.lexer p') /\
    package_left_to_parse p' < package_left_to_parse p
  | KexParser.Raised _ _ => True
  | KexParser.NoFuel => False
  end.

(** The call raised. *)
Definition package_raises {A : Type} (o : KexParser.result A) : Prop :=
  match o with
  | KexParser.Raised _ _ => True
  | _ => False
  end.

(** ** Vocabulary of the revised statements *)

(** A numeral of [n] zeros, and the numeral of ten to the 309, the first
    power of ten beyond the float range. *)
Fixpoint zeros (n : nat) : string :=
  match n with
  | O => ""
  | S n' => String "0" (zeros n')
  end.

Definition ten_to_the_309 : string := String "1" (zeros 309).

(** The largest float, [2^1024 - 2^971]. *)
Definition float_max : spec_float := S754_finite false 9007199254740991 971.

(** The operators of [expr]'s loop that [term] leaves to it. *)
Definition is_additive (token_type : TokenType) : bool :=
  match token_type with
  | PLUS | MINUS => true
  | _ => false
  end.

(** The floats 3.0 and 8.0. *)
Definition float_3_0 : spec_float := S754_finite false 6755399441055744 (-51).
Definition float_8_0 : spec_float := S754_finite false 4503599627370496 (-49).

(** What the loop of a dict literal reads from the parser [p] on, up to
    the closing brace: for each pair the key expression, the colon, the
    value expression and the comma if there is one. The pairs are in
    source order, each under the [value] of its key node. *)
Inductive reads_pairs (n : nat) : Parser.t -> list (atom * AST) -> Parser.t -> Prop :=
| reads_no_pair (p : Parser.t) :
    Parser.at_token RBRACE p = true ->
    reads_pairs n p [] p
| reads_one_pair (p p1 p2 p3 p4 p' : Parser.t) (key value : AST) (k : atom)
    (items : list (atom * AST)) :
    Parser.at_token RBRACE p = false ->
    Parser.expr n p = Ret key p1 ->
    Parser.eat COLON p1 = Ret tt p2 ->
    Parser.expr n p2 = Ret value p3 ->
    attr_value key p3 = Ret k p3 ->
    Parser.eat_comma p3 = Ret tt p4 ->
    reads_pairs n p4 items p' ->
    reads_pairs n p ((k, value) :: items) p'.

(** [pairs[k] = v] for each pair of [items] in turn. *)
Definition file_pairs {V : Type} (items : list (atom * V)) (pairs : dict V)
  : dict V :=
  fold_left (fun d kv => dict_set d (fst kv) (snd kv)) items pairs.

(** The keys that are no floats. *)
Definition plain_key (k : atom) : bool :=
  match k with PyFloat _ => false | _ => true end.

(** What Python's [==] compares of two such keys: the int of an int or a
    bool, or the characters of a string. *)
Definition key_code (k : atom) : option (Z + string) :=
  match k with
  | PyInt z => Some (inl z)
  | PyBool b => Some (inl (if b then 1 else 0)%Z)
  | PyStr s => Some (inr s)
  | _ => None
  end.

(** The line [{"a": 1, "b": 2, "a": 3}]. *)
Definition dict_with_three_pairs : string :=
  "{" ++ quoted "a" ++ ": 1, " ++ quoted "b" ++ ": 2, " ++ quoted "a" ++ ": 3}".

(** The parser on the line [text] when the scanner has advanced [n] times
    and the current token is [token]. *)
Definition reading (text : string) (n : nat) (token : Token.t) : Parser.t :=
  Parser.make (advances n (Lexer.init text)) token.

(** * Properties *)

(** ** More fuel changes no answer *)

Section Fuel.

Local Arguments bind : simpl never.
Local Arguments ret : simpl never.
Local Arguments Parser.eat : simpl never.
Local Arguments Parser.eat_comma : simpl never.

Lemma extends_refl {S A : Type} (m : M S A) : extends m m.
Proof. intros s _. reflexivity. Qed.

Lemma extends_bind {S A B : Type} (m m' : M S A) (k k' : A -> M S B) (s : S) :
  extends m m' ->
  (forall a, extends (k a) (k' a)) ->
  bind m k s <> OutOfFuel -> bind m' k' s = bind m k s.
Proof.
  intros Hm Hk. unfold bind. intros H.
  destruct (m s) as [a s1 | e s1 |] eqn:E.
  - rewrite (Hm s) by congruence. rewrite E. apply Hk. exact H.
  - rewrite (Hm s) by congruence. rewrite E. reflexivity.
  - congruence.
Qed.

Ltac more_fuel :=
  repeat
    (cbv beta;
     match goal with
     | |- ?x <> OutOfFuel -> ?x = ?x => intros _; reflexivity
     | |- bind _ _ _ <> OutOfFuel -> bind _ _ _ = bind _ _ _ =>
       apply extends_bind
     | H : forall m, _ -> extends (?f _) (?f m) |- ?f _ _ <> OutOfFuel -> _ =>
       apply H; assumption
     | H : forall m x, _ -> extends (?f _ x) (?f m x) |- ?f _ _ _ <> OutOfFuel -> _ =>
       apply H; assumption
     | |- extends ?m ?m => apply extends_refl
     | |- extends _ _ => let s := fresh "s" in intro s
     | |- forall _, _ => intro
     end).

Lemma parser_more_fuel (n : nat) :
  (forall m, n <= m -> extends (Parser.factor n) (Parser.factor m)) /\
  (forall m elements, n <= m ->
     extends (Parser.factor_list n elements) (Parser.factor_list m elements)) /\
  (forall m pairs, n <= m ->
     extends (Parser.factor_dict n pairs) (Parser.factor_dict m pairs)) /\
  (forall m, n <= m -> extends (Parser.term n) (Parser.term m)) /\
  (forall m node, n <= m ->
     extends (Parser.term_loop n node) (Parser.term_loop m node)) /\
  (forall m, n <= m -> extends (Parser.expr n) (Parser.expr m)) /\
  (forall m node, n <= m ->
     extends (Parser.expr_loop n node) (Parser.expr_loop m node)).
Proof.
  induction n as [| n (Hf & Hfl & Hfd & Ht & Htl & He & Hel)].
  - repeat split; intros; intros s Hs; simpl in Hs; congruence.
  - repeat split; intros m;
      (destruct m as [| m]; [ intros; lia | ]); intros.
    + assert (Hle : n <= m) by lia. intros p. simpl.
      destruct (Token.type (Parser.current_token p)); more_fuel.
    + assert (Hle : n <= m) by lia. intros p. simpl.
      destruct (Parser.at_token RBRACKET p); more_fuel.
    + assert (Hle : n <= m) by lia. intros p. simpl.
      destruct (Parser.at_token RBRACE p); more_fuel.
    + assert (Hle : n <= m) by lia. intros p. simpl. more_fuel.
    + assert (Hle : n <= m) by lia. intros p. simpl.
      destruct (Token.type (Parser.current_token p)); more_fuel.
    + assert (Hle : n <= m) by lia. intros p. simpl. more_fuel.
    + assert (Hle : n <= m) by lia. intros p. simpl.
      destruct (Token.type (Parser.current_token p)); more_fuel.
Qed.

Lemma parse_more_fuel (n m : nat) :
  n <= m -> extends (Parser.parse n) (Parser.parse m).
Proof.
  intros Hle. unfold Parser.parse, Parser.assignment.
  destruct (parser_more_fuel n) as (_ & _ & _ & _ & _ & He & _).
  intros p. apply extends_bind.
  - apply He. exact Hle.
  - intros node p'.
    destruct (is_Var node && Parser.at_token ASSIGN p'); [ | intros _; reflexivity ].
    apply extends_bind; [ apply extends_refl | intros _ ].
    intros p''. apply extends_bind; [ apply He; exact Hle | intros ? ].
    apply extends_refl.
Qed.

Lemma interpret_more_fuel (n m : nat) :
  n <= m -> extends (Interpreter.interpret n) (Interpreter.interpret m).
Proof.
  intros Hle i. unfold Interpreter.interpret. apply extends_bind.
  - intros i' H. unfold Interpreter.on_parser in *.
    destruct (Parser.parse n (Interpreter.parser i')) eqn:E;
      try congruence;
      rewrite (parse_more_fuel n m Hle (Interpreter.parser i')), E;
      congruence.
  - intros tree. apply extends_refl.
Qed.

Lemma evaluate_line_more_fuel (n m : nat) (text : string) :
  n <= m -> extends (Main.evaluate_line n text) (Main.evaluate_line m text).
Proof.
  intros Hle i. unfold Main.evaluate_line. apply extends_bind.
  - apply extends_refl.
  - intros _. apply interpret_more_fuel. exact Hle.
Qed.

Lemma parse_line_more_fuel (n extra : nat) (text : string) (r : exn + AST) :
  answer (parse_line n text) = Some r ->
  answer (parse_line (n + extra) text) = Some r.
Proof.
  intros H. unfold parse_line in *.
  rewrite (extends_bind (Main.start_line text) (Main.start_line text)
             (fun _ => Interpreter.on_parser (Parser.parse n))
             (fun _ => Interpreter.on_parser (Parser.parse (n + extra)))).
  - exact H.
  - apply extends_refl.
  - intros _ i Hi. unfold Interpreter.on_parser in *.
    destruct (Parser.parse n (Interpreter.parser i)) eqn:E;
      try congruence;
      rewrite (parse_more_fuel n (n + extra)) by (try lia; congruence);
      rewrite E; reflexivity.
  - intros E. rewrite E in H. discriminate.
Qed.

(** A run that answered keeps its answer under any larger fuel. *)
Lemma run_more_fuel (n extra : nat) (text : string) (r : exn + value) :
  answer (Main.run n text) = Some r ->
  answer (Main.run (n + extra) text) = Some r.
Proof.
  intros H. unfold Main.run in *.
  rewrite (evaluate_line_more_fuel n (n + extra) text) by
    first [ lia | intros E; rewrite E in H; discriminate ].
  exact H.
Qed.

End Fuel.

(** ** The session *)

(** The loop is entered with no exception and with [fresh]. *)
Lemma session_starts : Main.session = Some Main.fresh.
Proof. reflexivity. Qed.

(** ** Factor on a token that starts no factor *)

Lemma factor_falls_through (fuel : nat) (p : Parser.t) :
  starts_factor (Token.type (Parser.current_token p)) = false ->
  Parser.factor (S fuel) p = Ret None_node p.
Proof.
  intros H. simpl.
  destruct (Token.type (Parser.current_token p)); try discriminate; reflexivity.
Qed.

Lemma term_loop_stops (fuel : nat) (node : AST) (p : Parser.t) :
  is_operator (Token.type (Parser.current_token p)) = false ->
  Parser.term_loop (S fuel) node p = Ret node p.
Proof.
  intros H. simpl.
  destruct (Token.type (Parser.current_token p)); try discriminate; reflexivity.
Qed.

Lemma expr_loop_stops (fuel : nat) (node : AST) (p : Parser.t) :
  is_operator (Token.type (Parser.current_token p)) = false ->
  Parser.expr_loop (S fuel) node p = Ret node p.
Proof.
  intros H. simpl.
  destruct (Token.type (Parser.current_token p)); try discriminate; reflexivity.
Qed.

Lemma expr_falls_through (fuel : nat) (p : Parser.t) :
  starts_factor (Token.type (Parser.current_token p)) = false ->
  is_operator (Token.type (Parser.current_token p)) = false ->
  bind (Parser.expr (S (S (S fuel)))) (fun node p' =>
    if is_Var node && Parser.at_token ASSIGN p' then
      (Parser.eat ASSIGN ;;;
       right <- Parser.expr (S (S (S fuel))) ;;
       ret (Assign node (Parser.current_token p') right)) p'
    else Ret node p') p
  = Ret None_node p.
Proof.
  intros H Hop.
  change (Parser.expr (S (S (S fuel))))
    with (bind (Parser.term (S (S fuel))) (Parser.expr_loop (S (S fuel)))).
  change (Parser.term (S (S fuel)))
    with (bind (Parser.factor (S fuel)) (Parser.term_loop (S fuel))).
  unfold bind at 1 2 3.
  rewrite (factor_falls_through fuel p H).
  rewrite (term_loop_stops fuel None_node p Hop).
  rewrite (expr_loop_stops (S fuel) None_node p Hop).
  reflexivity.
Qed.

(** C10: on a token that begins none of its alternatives, [factor] returns
    [None] and raises nothing, leaving the parser where it was; when the
    token is no operator either, the whole of [parse] returns [None]. So a
    tree with a [None] child reaches the evaluator: [1 +] parses to a
    [BinOp] whose right operand is [None], and only the visit of that child
    fails, with the missing-method exception. *)
Theorem factor_returns_None_without_error (fuel : nat) (p : Parser.t) :
  starts_factor (Token.type (Parser.current_token p)) = false ->
  Parser.factor (S fuel) p = Ret None_node p /\
  (is_operator (Token.type (Parser.current_token p)) = false ->
   Parser.parse (3 + fuel) p = Ret None_node p) /\
  answer (parse_line (4 + fuel) "1 +")
  = Some (inr (BinOp (Num (integer_token 1 0))
                     (operator_token PLUS "+" 3)
                     None_node)) /\
  answer (Main.run (4 + fuel) "1 +") = Some (inl (NoVisitMethod "NoneType")).
Proof.
  intros H. split; [ apply factor_falls_through; exact H | split ].
  - intros Hop.
    change (3 + fuel) with (S (S (S fuel))).
    unfold Parser.parse, Parser.assignment.
    rewrite (expr_falls_through fuel p H Hop). reflexivity.
  - split;
      first [ apply parse_line_more_fuel | apply run_more_fuel ];
      vm_compute; reflexivity.
Qed.

(** The closing parenthesis of the line [)] is such a token. *)
Lemma factor_returns_None_on_closing_parenthesis :
  Parser.factor 1 (Parser.make (Lexer.init "") (operator_token RPAREN ")" 1))
  = Ret None_node (Parser.make (Lexer.init "") (operator_token RPAREN ")" 1)).
Proof.
  exact (proj1 (factor_returns_None_without_error 0
                  (Parser.make (Lexer.init "") (operator_token RPAREN ")" 1))
                  eq_refl)).
Defined.

(** ** Names that are not bound *)

(** C6: visiting a [Var] whose name has no entry in the symbol table raises
    [NameError] with that name, leaves the table as it was and returns no
    value; the line [y] on a fresh session raises [NameError] for [y]. *)
Theorem unbound_name_raises_NameError
  (token : Token.t) (symbols : SymbolTable.t) :
  dict_get symbols (Token.value token) = None ->
  Interpreter.visit (Var token) symbols
  = Raise (NameError (Token.value token)) symbols /\
  forall extra,
    answer (Main.run (3 + extra) "y") = Some (inl (NameError (PyStr "y"))).
Proof.
  intros H. split.
  - simpl. unfold SymbolTable.get. rewrite H. reflexivity.
  - intros extra. apply run_more_fuel. vm_compute. reflexivity.
Qed.

(** The name [y] in a table that binds only [x]. *)
Lemma unbound_y_next_to_x :
  Interpreter.visit (Var (Token.make IDENTIFIER (PyStr "y") 1 0))
                    [(PyStr "x", Atom (PyInt 5))]
  = Raise (NameError (PyStr "y")) [(PyStr "x", Atom (PyInt 5))].
Proof.
  exact (proj1 (unbound_name_raises_NameError
                  (Token.make IDENTIFIER (PyStr "y") 1 0)
                  [(PyStr "x", Atom (PyInt 5))]
                  eq_refl)).
Defined.

(** ** Precedence *)

Section Precedence.

Local Arguments Parser.eat : simpl never.

Lemma factor_with_more_fuel (n extra : nat) (p p' : Parser.t) (node : AST) :
  Parser.factor n p = Ret node p' ->
  Parser.factor (n + extra) p = Ret node p' /\ 1 <= n.
Proof.
  intros H. split.
  - destruct (parser_more_fuel n) as (Hf & _).
    rewrite (Hf (n + extra) ltac:(lia) p); [ exact H | ].
    rewrite H. discriminate.
  - destruct n; [ discriminate | lia ].
Qed.

Lemma term_with_more_fuel (n extra : nat) (p p' : Parser.t) (node : AST) :
  Parser.term n p = Ret node p' ->
  Parser.term (n + extra) p = Ret node p' /\ 1 <= n.
Proof.
  intros H. split.
  - destruct (parser_more_fuel n) as (_ & _ & _ & Ht & _).
    rewrite (Ht (n + extra) ltac:(lia) p); [ exact H | ].
    rewrite H. discriminate.
  - destruct n; [ discriminate | lia ].
Qed.

Lemma expr_with_more_fuel (n extra : nat) (p p' : Parser.t) (node : AST) :
  Parser.expr n p = Ret node p' ->
  Parser.expr (n + extra) p = Ret node p'.
Proof.
  intros H. destruct (parser_more_fuel n) as (_ & _ & _ & _ & _ & He & _).
  rewrite (He (n + extra) ltac:(lia) p); [ exact H | ].
  rewrite H. discriminate.
Qed.

(** The loop of [term] leaves every token but [*] and [/]. *)
Lemma term_loop_passes (fuel : nat) (node : AST) (p : Parser.t) :
  is_term_operator (Token.type (Parser.current_token p)) = false ->
  Parser.term_loop (S fuel) node p = Ret node p.
Proof.
  intros H. simpl.
  destruct (Token.type (Parser.current_token p)); try discriminate; reflexivity.
Qed.

(** One factor before a token that is neither [*] nor [/] is a term. *)
Lemma term_of_one_factor (n : nat) (p p1 : Parser.t) (a : AST) :
  Parser.factor n p = Ret a p1 ->
  is_term_operator (Token.type (Parser.current_token p1)) = false ->
  forall extra, Parser.term (S (n + extra)) p = Ret a p1.
Proof.
  intros Hf Hstop extra.
  destruct (factor_with_more_fuel n extra p p1 a Hf) as [Hf' Hn].
  cbn [Parser.term]. unfold bind. rewrite Hf'.
  destruct (n + extra) as [| k] eqn:E; [ lia | ].
  apply term_loop_passes. exact Hstop.
Qed.

(** Two factors around a [*] or a [/] are one term. *)
Lemma term_of_product (n : nat) (p p3 p4 p5 : Parser.t) (b c : AST) :
  Parser.factor n p = Ret b p3 ->
  is_term_operator (Token.type (Parser.current_token p3)) = true ->
  Parser.eat (Token.type (Parser.current_token p3)) p3 = Ret tt p4 ->
  Parser.factor n p4 = Ret c p5 ->
  is_term_operator (Token.type (Parser.current_token p5)) = false ->
  forall extra,
    Parser.term (S (S (n + extra))) p
    = Ret (BinOp b (Parser.current_token p3) c) p5.
Proof.
  intros Hb Hop Heat Hc Hstop extra.
  destruct (factor_with_more_fuel n (S extra) p p3 b Hb) as [Hb' Hn].
  destruct (factor_with_more_fuel n extra p4 p5 c Hc) as [Hc' _].
  replace (n + S extra) with (S (n + extra)) in Hb' by lia.
  cbn [Parser.term]. unfold bind at 1. rewrite Hb'.
  cbn [Parser.term_loop].
  destruct (n + extra) as [| k] eqn:E; [ lia | ].
  destruct (Token.type (Parser.current_token p3)); try discriminate;
    unfold bind; rewrite Heat, Hc';
    apply term_loop_passes; exact Hstop.
Qed.

(** Two terms around a [+] or a [-] are one expression. *)
Lemma expr_of_sum (m : nat) (p p1 p2 p5 : Parser.t) (a r : AST) :
  Parser.term m p = Ret a p1 ->
  is_additive (Token.type (Parser.current_token p1)) = true ->
  Parser.eat (Token.type (Parser.current_token p1)) p1 = Ret tt p2 ->
  Parser.term m p2 = Ret r p5 ->
  is_operator (Token.type (Parser.current_token p5)) = false ->
  forall extra,
    Parser.expr (S (S (m + extra))) p
    = Ret (BinOp a (Parser.current_token p1) r) p5.
Proof.
  intros Ha Hop Heat Hr Hstop extra.
  destruct (term_with_more_fuel m (S extra) p p1 a Ha) as [Ha' Hm].
  destruct (term_with_more_fuel m extra p2 p5 r Hr) as [Hr' _].
  replace (m + S extra) with (S (m + extra)) in Ha' by lia.
  cbn [Parser.expr]. unfold bind at 1. rewrite Ha'.
  cbn [Parser.expr_loop].
  destruct (m + extra) as [| k] eqn:E; [ lia | ].
  destruct (Token.type (Parser.current_token p1)); try discriminate;
    unfold bind; rewrite Heat, Hr';
    apply expr_loop_stops; exact Hstop.
Qed.

Lemma additive_is_no_term_operator (token_type : TokenType) :
  is_additive token_type = true -> is_term_operator token_type = false.
Proof. destruct token_type; simpl; congruence. Qed.

Lemma no_operator_is_no_term_operator (token_type : TokenType) :
  is_operator token_type = false -> is_term_operator token_type = false.
Proof. destruct token_type; simpl; congruence. Qed.

(** C3: multiplicative operators bind tighter than additive ones, for
    every three factors and every pair of operators. Where a factor is
    followed by [+] or [-], a second factor, [*] or [/] and a third
    factor, [expr] returns the sum (or difference) of the first factor and
    the product (or quotient) of the other two. Where the [*] or [/]
    comes first, [expr] returns the sum (or difference) of the product and
    the third factor. An expression between parentheses is one factor, so
    it goes whole under the operator next to it. The evaluator follows the
    tree: the inner node is evaluated to a value first, and the outer
    operator is applied to that value. So the line [1 + 2 * 3] parses to
    the sum of 1 and the product and evaluates to 7, and [(1 + 2) * 3]
    parses to the product of the sum and 3 and evaluates to 9; likewise
    for [/] and [-]. *)
Theorem multiplication_binds_tighter (extra : nat) :
  answer (parse_line (7 + extra) "1 + 2 * 3")
  = Some (inr (BinOp (Num (integer_token 1 0))
                     (operator_token PLUS "+" 3)
                     (BinOp (Num (integer_token 2 4))
                            (operator_token MUL "*" 7)
                            (Num (integer_token 3 8))))) /\
  answer (Main.run (7 + extra) "1 + 2 * 3") = Some (inr (Atom (PyInt 7))) /\
  answer (parse_line (7 + extra) "(1 + 2) * 3")
  = Some (inr (BinOp (BinOp (Num (integer_token 1 1))
                            (operator_token PLUS "+" 4)
                            (Num (integer_token 2 5)))
                     (operator_token MUL "*" 9)
                     (Num (integer_token 3 10)))) /\
  answer (Main.run (7 + extra) "(1 + 2) * 3") = Some (inr (Atom (PyInt 9))) /\
  (forall n p0 p1 p2 p3 p4 p5 a b c,
     Parser.factor n p0 = Ret a p1 ->
     is_additive (Token.type (Parser.current_token p1)) = true ->
     Parser.eat (Token.type (Parser.current_token p1)) p1 = Ret tt p2 ->
     Parser.factor n p2 = Ret b p3 ->
     is_term_operator (Token.type (Parser.current_token p3)) = true ->
     Parser.eat (Token.type (Parser.current_token p3)) p3 = Ret tt p4 ->
     Parser.factor n p4 = Ret c p5 ->
     is_operator (Token.type (Parser.current_token p5)) = false ->
     Parser.expr (n + 4 + extra) p0
     = Ret (BinOp a (Parser.current_token p1)
                  (BinOp b (Parser.current_token p3) c)) p5) /\
  (forall n p0 p1 p2 p3 p4 p5 a b c,
     Parser.factor n p0 = Ret a p1 ->
     is_term_operator (Token.type (Parser.current_token p1)) = true ->
     Parser.eat (Token.type (Parser.current_token p1)) p1 = Ret tt p2 ->
     Parser.factor n p2 = Ret b p3 ->
     is_additive (Token.type (Parser.current_token p3)) = true ->
     Parser.eat (Token.type (Parser.current_token p3)) p3 = Ret tt p4 ->
     Parser.factor n p4 = Ret c p5 ->
     is_operator (Token.type (Parser.current_token p5)) = false ->
     Parser.expr (n + 4 + extra) p0
     = Ret (BinOp (BinOp a (Parser.current_token p1) b)
                  (Parser.current_token p3) c) p5) /\
  (forall n p0 p1 p2 p3 node,
     Token.type (Parser.current_token p0) = LPAREN ->
     Parser.eat LPAREN p0 = Ret tt p1 ->
     Parser.expr n p1 = Ret node p2 ->
     Parser.eat RPAREN p2 = Ret tt p3 ->
     Parser.factor (n + 1 + extra) p0 = Ret node p3) /\
  (forall a b c outer inner s s1 s2 s3 s4 va vb vc v,
     Interpreter.visit a s = Ret va s1 ->
     Interpreter.visit b s1 = Ret vb s2 ->
     Interpreter.visit c s2 = Ret vc s3 ->
     Interpreter.visit_BinOp_values inner vb vc s3 = Ret v s4 ->
     Interpreter.visit (BinOp a outer (BinOp b inner c)) s
     = Interpreter.visit_BinOp_values outer va v s4) /\
  answer (Main.run (7 + extra) "1 + 4 / 2")
  = Some (inr (Atom (PyFloat float_3_0))) /\
  answer (Main.run (7 + extra) "8 - 2 * 3") = Some (inr (Atom (PyInt 2))) /\
  answer (Main.run (7 + extra) "2 * 3 + 1") = Some (inr (Atom (PyInt 7))) /\
  answer (Main.run (7 + extra) "8 / 2 - 1")
  = Some (inr (Atom (PyFloat float_3_0))) /\
  answer (Main.run (10 + extra) "8 / (2 - 1)")
  = Some (inr (Atom (PyFloat float_8_0))).
Proof.
  split; [ apply parse_line_more_fuel; vm_compute; reflexivity | ].
  split; [ apply run_more_fuel; vm_compute; reflexivity | ].
  split; [ apply parse_line_more_fuel; vm_compute; reflexivity | ].
  split; [ apply run_more_fuel; vm_compute; reflexivity | ].
  split; [ | split; [ | split; [ | split ] ] ].
  - intros n p0 p1 p2 p3 p4 p5 a b c Ha Hplus Heat1 Hb Htimes Heat2 Hc Hstop.
    pose proof (term_of_one_factor n p0 p1 a Ha
                  (additive_is_no_term_operator _ Hplus) 1) as Hleft.
    pose proof (term_of_product n p2 p3 p4 p5 b c Hb Htimes Heat2 Hc
                  (no_operator_is_no_term_operator _ Hstop) 0) as Hright.
    replace (S (n + 1)) with (S (S (n + 0))) in Hleft by lia.
    pose proof (expr_of_sum _ p0 p1 p2 p5 a _ Hleft Hplus Heat1 Hright Hstop
                  extra) as H.
    replace (n + 4 + extra) with (S (S (S (S (n + 0)) + extra))) by lia.
    exact H.
  - intros n p0 p1 p2 p3 p4 p5 a b c Ha Htimes Heat1 Hb Hplus Heat2 Hc Hstop.
    pose proof (term_of_product n p0 p1 p2 p3 a b Ha Htimes Heat1 Hb
                  (additive_is_no_term_operator _ Hplus) 0) as Hleft.
    pose proof (term_of_one_factor n p4 p5 c Hc
                  (no_operator_is_no_term_operator _ Hstop) 1) as Hright.
    replace (S (n + 1)) with (S (S (n + 0))) in Hright by lia.
    pose proof (expr_of_sum _ p0 p3 p4 p5 _ c Hleft Hplus Heat2 Hright Hstop
                  extra) as H.
    replace (n + 4 + extra) with (S (S (S (S (n + 0)) + extra))) by lia.
    exact H.
  - intros n p0 p1 p2 p3 node Hparen Heat1 Hnode Heat2.
    replace (n + 1 + extra) with (S (n + extra)) by lia.
    cbn [Parser.factor]. rewrite Hparen. unfold bind, ret.
    rewrite Heat1, (expr_with_more_fuel n extra p1 p2 node Hnode), Heat2.
    reflexivity.
  - intros a b c outer inner s s1 s2 s3 s4 va vb vc v Ha Hb Hc Hinner.
    cbn [Interpreter.visit]. unfold bind. rewrite Ha, Hb, Hc, Hinner.
    reflexivity.
  - repeat split; apply run_more_fuel; vm_compute; reflexivity.
Qed.

(** The line [1 + 4 / 2]: the quotient goes under the sum. *)
Lemma quotient_under_a_sum :
  Parser.expr 5
    (Parser.make (advances 1 (Lexer.init "1 + 4 / 2")) (integer_token 1 0))
  = Ret (BinOp (Num (integer_token 1 0))
               (operator_token PLUS "+" 3)
               (BinOp (Num (integer_token 4 4))
                      (operator_token DIV "/" 7)
                      (Num (integer_token 2 8))))
        (Parser.make (advances 9 (Lexer.init "1 + 4 / 2"))
                     (Token.make EOF PyNone 1 10)).
Proof.
  exact (proj1 (proj2 (proj2 (proj2 (proj2 (multiplication_binds_tighter 0)))))
           1
           (Parser.make (advances 1 (Lexer.init "1 + 4 / 2")) (integer_token 1 0))
           (Parser.make (advances 3 (Lexer.init "1 + 4 / 2"))
                        (operator_token PLUS "+" 3))
           (Parser.make (advances 5 (Lexer.init "1 + 4 / 2")) (integer_token 4 4))
           (Parser.make (advances 7 (Lexer.init "1 + 4 / 2"))
                        (operator_token DIV "/" 7))
           (Parser.make (advances 9 (Lexer.init "1 + 4 / 2")) (integer_token 2 8))
           (Parser.make (advances 9 (Lexer.init "1 + 4 / 2"))
                        (Token.make EOF PyNone 1 10))
           (Num (integer_token 1 0)) (Num (integer_token 4 4))
           (Num (integer_token 2 8))
           eq_refl eq_refl eq_refl eq_refl eq_refl eq_refl eq_refl eq_refl).
Defined.

End Precedence.

(** ** Arithmetic *)

(** [y == 0] holds exactly for the zeros. *)
Lemma eq_zero_is_zero (y : number) : number_eqb y (NInt 0) = is_zero y.
Proof.
  destruct y as [z | f]; simpl.
  - destruct z; reflexivity.
  - destruct f as [s | s | | s m e];
      cbn [number_eqb float_eq_int is_zero]; try reflexivity.
    cbv zeta. destruct (0 <=? e)%Z eqn:E; apply Z.eqb_neq.
    + apply Z.leb_le in E.
      assert (0 < 2 ^ e)%Z by (apply Z.pow_pos_nonneg; lia).
      destruct s; nia.
    + destruct s; lia.
Qed.

Lemma visit_BinOp_unfold (node_left node_right : AST) (op : Token.t)
  (symbols s1 s2 : SymbolTable.t) (lv rv : value) :
  Interpreter.visit node_left symbols = Ret lv s1 ->
  Interpreter.visit node_right s1 = Ret rv s2 ->
  Interpreter.visit (BinOp node_left op node_right) symbols
  = Interpreter.visit_BinOp_values op lv rv s2.
Proof.
  intros Hl Hr. cbn [Interpreter.visit]. unfold bind.
  rewrite Hl, Hr. reflexivity.
Qed.

(** C2: when both operands of a [BinOp] evaluate to numbers, the operator is
    [/] and the right operand is zero, the visit raises [ZeroDivisionError]
    and returns no value; the line [1 / 0] raises it. *)
Theorem division_by_zero_raises
  (node_left node_right : AST) (op : Token.t)
  (symbols s1 s2 : SymbolTable.t) (lv rv : value) (x y : number) :
  Token.type op = DIV ->
  Interpreter.visit node_left symbols = Ret lv s1 ->
  Interpreter.visit node_right s1 = Ret rv s2 ->
  as_number lv = Some x ->
  as_number rv = Some y ->
  is_zero y = true ->
  Interpreter.visit (BinOp node_left op node_right) symbols
  = Raise ZeroDivisionError s2 /\
  forall extra,
    answer (Main.run (4 + extra) "1 / 0") = Some (inl ZeroDivisionError).
Proof.
  intros Hop Hl Hr Hx Hy Hz. split.
  - rewrite (visit_BinOp_unfold _ _ _ _ _ _ _ _ Hl Hr).
    unfold Interpreter.visit_BinOp_values.
    rewrite Hx, Hy, Hop, eq_zero_is_zero, Hz. reflexivity.
  - intros extra. apply run_more_fuel. vm_compute. reflexivity.
Qed.

(** A float divided by the float zero. *)
Lemma division_of_a_float_by_zero :
  Interpreter.visit
    (BinOp (Num (Token.make FLOAT (PyFloat float_2_5) 1 0))
           (operator_token DIV "/" 5)
           (Num (Token.make FLOAT (PyFloat (S754_zero false)) 1 6)))
    []
  = Raise ZeroDivisionError [].
Proof.
  exact (proj1 (division_by_zero_raises
                  (Num (Token.make FLOAT (PyFloat float_2_5) 1 0))
                  (Num (Token.make FLOAT (PyFloat (S754_zero false)) 1 6))
                  (operator_token DIV "/" 5)
                  [] [] []
                  (Atom (PyFloat float_2_5)) (Atom (PyFloat (S754_zero false)))
                  (NFloat float_2_5) (NFloat (S754_zero false))
                  eq_refl eq_refl eq_refl eq_refl eq_refl eq_refl)).
Defined.

(** A true division answers a float or raises. *)
Lemma truediv_is_float (x y : number) (r : number) :
  truediv x y = inr r -> is_float r = true.
Proof.
  unfold truediv.
  destruct x as [a | f], y as [b | g]; simpl;
    repeat match goal with
           | |- context [if ?c then _ else _] => destruct c
           | |- context [match ?o with Some _ => _ | None => _ end] => destruct o
           end;
    intros H; inversion H; reflexivity.
Qed.

(** C1, as the code has it: on two numbers, [+], [-] and [*] give the exact
    int when both are ints, and the float operation on the operands as
    floats when at least one is a float (an int operand is first converted);
    [/] by a divisor that is not zero gives a float in every case, also on
    two ints: the correctly rounded quotient (for an int divisor next to a
    float, the float it converts to is the divisor). Whatever [/] returns is
    a float. So [2 / 2] is the float 1.0, and [1 + 2.5] is the float 3.5,
    the value of the literal [3.5]. The table is left as it was.

    An int that has no float raises [OverflowError] wherever it meets a
    float, under each of the four operators, and so does the quotient of
    two ints that is beyond the float range. The largest int with a float
    is [2^1024 - 2^970 - 1], which converts to the largest float; the next
    int has none. The quotient of the int zero is the zero with the sign
    of the divisor: [0 / (0 - 5)] is [-0.0]. *)
Theorem arithmetic_results
  (op : Token.t) (lv rv : value) (x y : number) (s : SymbolTable.t) :
  as_number lv = Some x ->
  as_number rv = Some y ->
  let result := Interpreter.visit_BinOp_values op lv rv s in
  (forall a b, x = NInt a -> y = NInt b ->
     (Token.type op = PLUS -> result = Ret (Atom (PyInt (a + b))) s) /\
     (Token.type op = MINUS -> result = Ret (Atom (PyInt (a - b))) s) /\
     (Token.type op = MUL -> result = Ret (Atom (PyInt (a * b))) s) /\
     (Token.type op = DIV -> b <> 0%Z ->
      forall f, int_true_div a b = Some f ->
      result = Ret (Atom (PyFloat f)) s)) /\
  (is_float x || is_float y = true ->
   forall f g, to_float x = Some f -> to_float y = Some g ->
     (Token.type op = PLUS -> result = Ret (Atom (PyFloat (fadd f g))) s) /\
     (Token.type op = MINUS -> result = Ret (Atom (PyFloat (fsub f g))) s) /\
     (Token.type op = MUL -> result = Ret (Atom (PyFloat (fmul f g))) s) /\
     (Token.type op = DIV -> is_zero y = false ->
      SFeqb g (S754_zero false) = false ->
      result = Ret (Atom (PyFloat (fdiv f g))) s)) /\
  (Token.type op = DIV ->
   forall v s', result = Ret v s' -> exists f, v = Atom (PyFloat f)) /\
  (forall extra,
     answer (Main.run (4 + extra) "2 / 2")
     = Some (inr (Atom (PyFloat float_1_0))) /\
     answer (Main.run (4 + extra) "1 + 2.5")
     = Some (inr (Atom (PyFloat float_3_5))) /\
     answer (Main.run (4 + extra) "3.5")
     = Some (inr (Atom (PyFloat float_3_5)))) /\
  (is_float x || is_float y = true ->
   to_float x = None \/ to_float y = None ->
   (Token.type op = PLUS -> result = Raise OverflowError s) /\
   (Token.type op = MINUS -> result = Raise OverflowError s) /\
   (Token.type op = MUL -> result = Raise OverflowError s) /\
   (Token.type op = DIV -> is_zero y = false ->
    result = Raise OverflowError s)) /\
  (forall a b, x = NInt a -> y = NInt b ->
     Token.type op = DIV -> b <> 0%Z -> int_true_div a b = None ->
     result = Raise OverflowError s) /\
  (float_of_int (2 ^ 1024 - 2 ^ 970 - 1) = Some float_max /\
   float_of_int (2 ^ 1024 - 2 ^ 970) = None /\
   float_of_int (- (2 ^ 1024 - 2 ^ 970)) = None /\
   (forall b, b <> 0%Z -> int_true_div 0 b = Some (S754_zero (b <? 0)%Z))) /\
  (forall extra,
     answer (Main.run (4 + extra) (ten_to_the_309 ++ " + 1.5"))
     = Some (inl OverflowError) /\
     answer (Main.run (4 + extra) ("1.5 * " ++ ten_to_the_309))
     = Some (inl OverflowError) /\
     answer (Main.run (4 + extra) (ten_to_the_309 ++ " / 1"))
     = Some (inl OverflowError) /\
     answer (Main.run (8 + extra) "0 / (0 - 5)")
     = Some (inr (Atom (PyFloat (S754_zero true))))).
Proof.
  intros Hx Hy result. subst result.
  unfold Interpreter.visit_BinOp_values. rewrite Hx, Hy.
  split; [ | split; [ | split; [ | split; [ | split; [ | split; [ | split ] ] ] ] ] ].
  - intros a b -> ->.
    repeat split; intros Hop; rewrite Hop; try reflexivity.
    intros Hb f Hf. cbn [number_eqb truediv].
    destruct (Z.eqb_spec b 0) as [E | E]; [ contradiction | ].
    rewrite Hf. reflexivity.
  - intros Hfloat f g Hf Hg.
    assert (Hop3 : forall fop, float_op fop x y = inr (NFloat (fop f g))).
    { intros fop. unfold float_op. rewrite Hf, Hg. reflexivity. }
    repeat split; intros Hop; rewrite Hop.
    + destruct x, y; try discriminate; cbn [add]; rewrite Hop3; reflexivity.
    + destruct x, y; try discriminate; cbn [sub]; rewrite Hop3; reflexivity.
    + destruct x, y; try discriminate; cbn [mul]; rewrite Hop3; reflexivity.
    + intros Hz Hzero. rewrite eq_zero_is_zero, Hz.
      destruct x, y; try discriminate; cbn [truediv];
        rewrite Hf, Hg, Hzero; reflexivity.
  - intros Hop v s' H. rewrite Hop in H.
    destruct (number_eqb y (NInt 0)); [ discriminate | ].
    destruct (truediv x y) as [e | r] eqn:E; simpl in H; [ discriminate | ].
    apply truediv_is_float in E. destruct r; [ discriminate | ].
    inversion H. eexists. reflexivity.
  - intros extra. split; [ | split ];
      apply run_more_fuel; vm_compute; reflexivity.
  - intros Hfloat Hnone.
    assert (Hop3 : forall fop, float_op fop x y = inl OverflowError).
    { intros fop. unfold float_op.
      destruct Hnone as [H | H]; rewrite H; [ reflexivity | ].
      destruct (to_float x); reflexivity. }
    assert (Hdiv : truediv x y = inl OverflowError).
    { destruct x as [a | f], y as [b | g]; try discriminate; cbn [truediv];
        destruct Hnone as [H | H]; try discriminate; rewrite H;
        reflexivity. }
    repeat split; intros Hop; rewrite Hop.
    + destruct x, y; try discriminate; cbn [add]; rewrite Hop3; reflexivity.
    + destruct x, y; try discriminate; cbn [sub]; rewrite Hop3; reflexivity.
    + destruct x, y; try discriminate; cbn [mul]; rewrite Hop3; reflexivity.
    + intros Hz. rewrite eq_zero_is_zero, Hz, Hdiv. reflexivity.
  - intros a b -> -> Hop Hb Hnone. rewrite Hop. cbn [number_eqb truediv].
    destruct (Z.eqb_spec b 0) as [E | E]; [ contradiction | ].
    rewrite Hnone. reflexivity.
  - split; [ vm_compute; reflexivity | ].
    split; [ vm_compute; reflexivity | ].
    split; [ vm_compute; reflexivity | ].
    intros b Hb. destruct b; [ contradiction | reflexivity | reflexivity ].
  - intros extra. split; [ | split; [ | split ] ];
      apply run_more_fuel; vm_compute; reflexivity.
Qed.

(** C1, where the claim fails: [2 / 2] is the float 1.0, not the int 1. *)
Lemma two_divided_by_two_is_a_float :
  answer (Main.run 4 "2 / 2") = Some (inr (Atom (PyFloat float_1_0))) /\
  is_Integer (answer (Main.run 4 "2 / 2")) = false.
Proof. split; vm_compute; reflexivity. Qed.

(** The sum of the int 1 and the float 2.5 is the float sum of 1.0 and
    2.5. *)
Lemma one_plus_two_and_a_half :
  Interpreter.visit_BinOp_values (operator_token PLUS "+" 2)
    (Atom (PyInt 1)) (Atom (PyFloat float_2_5)) []
  = Ret (Atom (PyFloat (fadd float_1_0 float_2_5))) [].
Proof.
  destruct (arithmetic_results (operator_token PLUS "+" 2)
              (Atom (PyInt 1)) (Atom (PyFloat float_2_5))
              (NInt 1) (NFloat float_2_5) [] eq_refl eq_refl)
    as (_ & H & _).
  destruct (H eq_refl float_1_0 float_2_5 eq_refl eq_refl) as (Hplus & _).
  exact (Hplus eq_refl).
Defined.

(** ** Strings and the cursor *)

Section Strings.

Lemma append_empty (s : string) : s ++ "" = s.
Proof. induction s; simpl; congruence. Qed.

Lemma append_associative (a b c : string) : (a ++ b) ++ c = a ++ (b ++ c).
Proof. induction a; simpl; congruence. Qed.

Lemma length_of_append (a b : string) :
  String.length (a ++ b) = String.length a + String.length b.
Proof. induction a; simpl; congruence. Qed.

Lemma get_after_prefix (pre s : string) (n : nat) :
  String.get (String.length pre + n) (pre ++ s) = String.get n s.
Proof. induction pre; simpl; auto. Qed.

Lemma get_at_prefix (pre s : string) :
  String.get (String.length pre) (pre ++ s) = String.get 0 s.
Proof.
  rewrite <- (get_after_prefix pre s 0). f_equal. lia.
Qed.

Lemma get_beyond (s : string) (n : nat) :
  String.length s <= n -> String.get n s = None.
Proof.
  revert n. induction s as [| c s IH]; intros n H; simpl.
  - reflexivity.
  - destruct n as [| n]; simpl in H; [ lia | ]. apply IH. lia.
Qed.

Lemma get_within (s : string) (n : nat) (c : ascii) :
  String.get n s = Some c -> n < String.length s.
Proof.
  revert n. induction s as [| c' s IH]; intros n H; simpl in *.
  - discriminate.
  - destruct n as [| n]; [ lia | ]. apply IH in H. lia.
Qed.

End Strings.

(** ** The cursor of the scanner *)

Section Cursor.

Lemma advance_text (l : Lexer.t) : Lexer.text (Lexer.advance l) = Lexer.text l.
Proof. reflexivity. Qed.

Lemma advance_pos (l : Lexer.t) : Lexer.pos (Lexer.advance l) = S (Lexer.pos l).
Proof. reflexivity. Qed.

Lemma advance_in_step (l : Lexer.t) : in_step (Lexer.advance l).
Proof. reflexivity. Qed.

Lemma advances_text (n : nat) (l : Lexer.t) :
  Lexer.text (advances n l) = Lexer.text l.
Proof. revert l. induction n; intros l; simpl; [ | rewrite IHn ]; reflexivity. Qed.

Lemma advances_pos (n : nat) (l : Lexer.t) :
  Lexer.pos (advances n l) = Lexer.pos l + n.
Proof.
  revert l. induction n; intros l; simpl; [ lia | ].
  rewrite IHn. simpl. lia.
Qed.

Lemma advances_in_step (n : nat) (l : Lexer.t) :
  in_step l -> in_step (advances n l).
Proof.
  revert l. induction n; intros l H; simpl; [ exact H | ].
  apply IHn. apply advance_in_step.
Qed.

Lemma advances_last (n : nat) (l : Lexer.t) :
  Lexer.advance (advances n l) = advances (S n) l.
Proof.
  revert l. induction n; intros l; simpl; [ reflexivity | ].
  rewrite IHn. reflexivity.
Qed.

(** The loop consumes a run of characters that pass the test and stops at
    the first that fails it, or at the end of the text. *)
Lemma scan_while_run (keep : ascii -> bool) (run : string) :
  forall (fuel : nat) (result : string) (l : Lexer.t) (pre rest : string),
    Lexer.text l = pre ++ run ++ rest ->
    Lexer.pos l = String.length pre ->
    in_step l ->
    all_chars keep run = true ->
    stops keep rest = true ->
    String.length run < fuel ->
    Lexer.scan_while fuel keep result l
    = Some (result ++ run, advances (String.length run) l).
Proof.
  induction run as [| c run IH];
    intros fuel result l pre rest Htext Hpos Hstep Hall Hstop Hfuel;
    (destruct fuel as [| fuel]; [ simpl in Hfuel; lia | ]);
    cbn [Lexer.scan_while]; rewrite Hstep, Htext, Hpos, get_at_prefix.
  - cbn [append String.length advances]. rewrite append_empty.
    destruct rest as [| c rest]; [ reflexivity | ].
    cbn [String.get]. simpl in Hstop.
    destruct (keep c); [ discriminate | reflexivity ].
  - cbn [append String.get]. simpl in Hall.
    apply andb_true_iff in Hall. destruct Hall as [Hc Hall].
    rewrite Hc.
    rewrite (IH fuel (result ++ String c "") (Lexer.advance l)
               (pre ++ String c "") rest).
    + rewrite append_associative. reflexivity.
    + rewrite advance_text, Htext, append_associative. reflexivity.
    + rewrite advance_pos, Hpos, length_of_append. simpl. lia.
    + apply advance_in_step.
    + exact Hall.
    + exact Hstop.
    + simpl in Hfuel. lia.
Qed.

(** The budget of a scanner covers what is left of its text. *)
Lemma budget_covers (l : Lexer.t) (pre run rest : string) :
  Lexer.text l = pre ++ run ++ rest ->
  Lexer.pos l = String.length pre ->
  String.length run < Lexer.budget l.
Proof.
  intros Htext Hpos. unfold Lexer.budget.
  rewrite Htext, Hpos, !length_of_append. lia.
Qed.

End Cursor.

(** ** String literals *)

(** C5: at an opening quote, [string] consumes the characters up to the
    next quote. When no quote follows before the end of the text it raises
    the unterminated-string exception, which carries the scanner's line at
    the end of the text and, as its column, the offset of the opening quote.
    When a closing quote follows, the token is a [STRING] whose value is the
    characters between the quotes exactly as they stand, and the scanner is
    left just after the closing quote. *)
Theorem string_literal_is_raw_or_unterminated
  (l : Lexer.t) (pre tail : string) :
  Lexer.text l = pre ++ String Lexer.quote tail ->
  Lexer.pos l = String.length pre ->
  (all_chars not_quote tail = true ->
   Lexer.string_ l
   = Raise (UnterminatedString
              (Lexer.line (advances (S (String.length tail)) l))
              (Z.of_nat (Lexer.pos l)))
           (advances (S (String.length tail)) l)) /\
  (forall body rest,
     tail = body ++ String Lexer.quote rest ->
     all_chars not_quote body = true ->
     Lexer.string_ l
     = Ret (Token.make STRING (PyStr body)
              (Lexer.line (advances (S (S (String.length body))) l))
              (Z.of_nat (Lexer.pos l)))
           (advances (S (S (String.length body))) l)).
Proof.
  intros Htext Hpos.
  assert (Htext0 : forall run rest, tail = run ++ rest ->
            Lexer.text (Lexer.advance l)
            = (pre ++ String Lexer.quote "") ++ run ++ rest).
  { intros run rest ->. rewrite advance_text, Htext, append_associative.
    reflexivity. }
  assert (Hpos0 : Lexer.pos (Lexer.advance l)
                  = String.length (pre ++ String Lexer.quote "")).
  { rewrite advance_pos, Hpos, length_of_append. simpl. lia. }
  split.
  - intros Hall. unfold Lexer.string_.
    rewrite (scan_while_run not_quote tail _ "" (Lexer.advance l)
               (pre ++ String Lexer.quote "") "");
      try solve [ reflexivity | assumption | apply advance_in_step ].
    + change (advances (String.length tail) (Lexer.advance l))
        with (advances (S (String.length tail)) l).
      rewrite (advances_in_step (String.length tail) (Lexer.advance l)
                 (advance_in_step l) : in_step (advances (S (String.length tail)) l)).
      rewrite get_beyond; [ reflexivity | ].
      rewrite advances_text, advances_pos, Htext, Hpos, length_of_append.
      simpl. lia.
    + apply Htext0. rewrite append_empty. reflexivity.
    + apply (budget_covers _ (pre ++ String Lexer.quote "") tail "");
        [ apply Htext0; rewrite append_empty; reflexivity | exact Hpos0 ].
  - intros body rest Htail Hall. unfold Lexer.string_.
    rewrite (scan_while_run not_quote body _ "" (Lexer.advance l)
               (pre ++ String Lexer.quote "") (String Lexer.quote rest));
      try solve [ reflexivity | assumption | apply advance_in_step ].
    + change (advances (String.length body) (Lexer.advance l))
        with (advances (S (String.length body)) l).
      rewrite (advances_in_step (String.length body) (Lexer.advance l)
                 (advance_in_step l) : in_step (advances (S (String.length body)) l)).
      rewrite advances_text, advances_pos, Htext, Hpos, Htail.
      replace (pre ++ String Lexer.quote (body ++ String Lexer.quote rest))
        with ((pre ++ String Lexer.quote body) ++ String Lexer.quote rest)
        by (rewrite append_associative; reflexivity).
      replace (String.length pre + S (String.length body))
        with (String.length (pre ++ String Lexer.quote body))
        by (rewrite length_of_append; simpl; lia).
      rewrite get_at_prefix. cbn [String.get].
      rewrite advances_last. reflexivity.
    + apply Htext0. exact Htail.
    + apply (budget_covers _ (pre ++ String Lexer.quote "") body
               (String Lexer.quote rest));
        [ apply Htext0; exact Htail | exact Hpos0 ].
Qed.

(** A literal with a backslash in it: the two characters stay as they are. *)
Lemma string_literal_with_backslash :
  Lexer.string_ (Lexer.init (quoted "a\n"))
  = Ret (Token.make STRING (PyStr "a\n") 1 0)
        (advances 5 (Lexer.init (quoted "a\n"))).
Proof.
  exact (proj2 (string_literal_is_raw_or_unterminated
                  (Lexer.init (quoted "a\n")) "" _ eq_refl eq_refl)
               "a\n" "" eq_refl eq_refl).
Defined.

(** ** Numerals *)

Section Numerals.

Lemma dot_is_not_decimal (c : ascii) : (c =? ".")%char = true -> isdecimal c = false.
Proof. intros H. apply Ascii.eqb_eq in H. subst c. reflexivity. Qed.

Lemma contains_dot_count (s : string) :
  contains_dot s = negb (count_dots s =? 0)%nat.
Proof.
  induction s as [| c s IH]; simpl; [ reflexivity | ].
  destruct (c =? ".")%char; simpl; [ reflexivity | exact IH ].
Qed.

Lemma all_decimal_append (a b : string) :
  all_decimal (a ++ b) = all_decimal a && all_decimal b.
Proof.
  induction a as [| c a IH]; simpl; [ reflexivity | ].
  rewrite IH, andb_assoc. reflexivity.
Qed.

Lemma all_decimal_without_dots (s : string) :
  all_chars decimal_or_dot s = true -> count_dots s = 0 -> all_decimal s = true.
Proof.
  induction s as [| c s IH]; simpl; [ reflexivity | ].
  unfold decimal_or_dot at 1. intros H Hdots.
  apply andb_true_iff in H. destruct H as [Hc Hs].
  destruct (c =? ".")%char; [ discriminate | ].
  rewrite orb_false_r in Hc. rewrite Hc. simpl. apply IH; assumption.
Qed.

Lemma all_decimal_no_dots (s : string) :
  all_decimal s = true -> count_dots s = 0.
Proof.
  induction s as [| c s IH]; simpl; [ reflexivity | ].
  intros H. apply andb_true_iff in H. destruct H as [Hc Hs].
  destruct (c =? ".")%char eqn:E.
  - apply dot_is_not_decimal in E. congruence.
  - apply IH. exact Hs.
Qed.

(** Where the first point splits a numeral. *)
Lemma split_dot_spec (s : string) :
  match split_dot s with
  | (whole, Some frac) =>
    s = whole ++ String "." frac /\ count_dots whole = 0 /\
    count_dots s = S (count_dots frac)
  | (whole, None) => s = whole /\ count_dots s = 0
  end.
Proof.
  induction s as [| c s IH]; simpl; [ split; reflexivity | ].
  destruct (c =? ".")%char eqn:E.
  - apply Ascii.eqb_eq in E. subst c. repeat split; reflexivity.
  - destruct (split_dot s) as [whole [frac |]]; simpl; rewrite ?E.
    + destruct IH as (-> & Hw & Hs). repeat split; assumption.
    + destruct IH as (-> & Hs). split; [ reflexivity | assumption ].
Qed.

Lemma all_chars_append (keep : ascii -> bool) (a b : string) :
  all_chars keep (a ++ b) = all_chars keep a && all_chars keep b.
Proof.
  induction a as [| c a IH]; simpl; [ reflexivity | ].
  rewrite IH, andb_assoc. reflexivity.
Qed.

(** Decimal digits with no point convert to an int. *)
Lemma int_of_decimal (s : string) :
  s <> "" -> all_decimal s = true -> Py.int s = Some (digits_value 0 s).
Proof.
  intros Hne H. unfold Py.int. destruct s; [ contradiction | ].
  rewrite H. reflexivity.
Qed.

(** Decimal digits around exactly one point convert to a float. *)
Lemma float_of_one_dot (s : string) :
  all_chars decimal_or_dot s = true ->
  count_dots s = 1 ->
  2 <= String.length s ->
  exists f, Py.float s = Some f.
Proof.
  intros Hall Hdots Hlen. unfold Py.float.
  pose proof (split_dot_spec s) as Hsplit.
  destruct (split_dot s) as [whole [frac |]].
  - destruct Hsplit as (Hs & Hw & Hc).
    assert (Hfrac : count_dots frac = 0) by lia.
    rewrite Hs, all_chars_append in Hall. simpl in Hall.
    apply andb_true_iff in Hall. destruct Hall as [Hwhole Hrest].
    assert (Hdec : all_decimal (whole ++ frac) = true).
    { rewrite all_decimal_append, !all_decimal_without_dots by assumption.
      reflexivity. }
    rewrite Hdec.
    destruct (whole ++ frac) eqn:E.
    + exfalso. apply (f_equal String.length) in E.
      rewrite Hs, !length_of_append in Hlen.
      rewrite length_of_append in E. simpl in *. lia.
    + eexists. reflexivity.
  - destruct Hsplit as (_ & Hc). lia.
Qed.

(** Two points or more convert to nothing. *)
Lemma float_of_two_dots (s : string) :
  2 <= count_dots s -> Py.float s = None.
Proof.
  intros Hdots. unfold Py.float.
  pose proof (split_dot_spec s) as Hsplit.
  destruct (split_dot s) as [whole [frac |]].
  - destruct Hsplit as (Hs & Hw & Hc).
    assert (Hdec : all_decimal (whole ++ frac) = false).
    { destruct (all_decimal (whole ++ frac)) eqn:E; [ | reflexivity ].
      rewrite all_decimal_append in E. apply andb_true_iff in E.
      destruct E as [_ E]. apply all_decimal_no_dots in E. lia. }
    rewrite Hdec. destruct (whole ++ frac); reflexivity.
  - destruct Hsplit as (_ & Hc). lia.
Qed.

End Numerals.

(** [number] on a scanner that stands before a run of numeral characters:
    the run is consumed whole and then converted. *)
Lemma number_on_run (l : Lexer.t) (pre run rest : string) :
  Lexer.text l = pre ++ run ++ rest ->
  Lexer.pos l = String.length pre ->
  in_step l ->
  all_chars numeral_char run = true ->
  stops numeral_char rest = true ->
  Lexer.number l
  = let l' := advances (String.length run) l in
    let start_pos := Z.of_nat (Lexer.pos l) in
    if contains_dot run then
      match Py.float run with
      | Some f => Ret (Token.make FLOAT (PyFloat f) (Lexer.line l') start_pos) l'
      | None => Raise (ValueError run) l'
      end
    else
      match Py.int run with
      | Some z => Ret (Token.make INTEGER (PyInt z) (Lexer.line l') start_pos) l'
      | None => Raise (ValueError run) l'
      end.
Proof.
  intros Htext Hpos Hstep Hall Hstop. unfold Lexer.number.
  change (fun c : ascii => isdigit c || (c =? ".")%char) with numeral_char.
  rewrite (scan_while_run numeral_char run _ "" l pre rest);
    try assumption.
  - reflexivity.
  - apply (budget_covers l pre run rest); assumption.
Qed.

(** C4, as the code has it: before a run of digits and points that ends at
    the end of the text or at any other character, [number] consumes the
    whole run, however many points it holds. A run of decimal digits gives
    an [INTEGER] with their value; decimal digits around exactly one point
    give a [FLOAT]; a run with two points or more raises [ValueError] and
    gives no token. Whenever a token comes out, it is a [FLOAT] if the run
    holds a point and an [INTEGER] if not. An exponent is not part of the
    run: [1e5] is the [INTEGER] 1 followed by the identifier [e5]. *)
Theorem numeral_rule (l : Lexer.t) (pre run rest : string) :
  Lexer.text l = pre ++ run ++ rest ->
  Lexer.pos l = String.length pre ->
  in_step l ->
  all_chars numeral_char run = true ->
  stops numeral_char rest = true ->
  let l' := advances (String.length run) l in
  let start_pos := Z.of_nat (Lexer.pos l) in
  (run <> "" -> all_decimal run = true ->
   Lexer.number l
   = Ret (Token.make INTEGER (PyInt (digits_value 0 run)) (Lexer.line l') start_pos)
         l') /\
  (count_dots run = 1 -> all_chars decimal_or_dot run = true ->
   2 <= String.length run ->
   exists f,
     Py.float run = Some f /\
     Lexer.number l
     = Ret (Token.make FLOAT (PyFloat f) (Lexer.line l') start_pos) l') /\
  (2 <= count_dots run -> Lexer.number l = Raise (ValueError run) l') /\
  (forall token l'',
     Lexer.number l = Ret token l'' ->
     l'' = l' /\
     (Token.type token = FLOAT /\ contains_dot run = true \/
      Token.type token = INTEGER /\ contains_dot run = false)) /\
  answer (Lexer.debug_tokens 3 (Lexer.init "1e5"))
  = Some (inr [ integer_token 1 0;
                Token.make IDENTIFIER (PyStr "e5") 1 1;
                Token.make EOF PyNone 1 4 ]).
Proof.
  intros Htext Hpos Hstep Hall Hstop l' start_pos.
  pose proof (number_on_run l pre run rest Htext Hpos Hstep Hall Hstop) as Hn.
  cbv zeta in Hn. fold l' in Hn. fold start_pos in Hn.
  rewrite contains_dot_count in Hn.
  split; [ | split; [ | split; [ | split ] ] ].
  - intros Hne Hdec. rewrite Hn.
    rewrite (all_decimal_no_dots run Hdec). simpl.
    rewrite (int_of_decimal run Hne Hdec). reflexivity.
  - intros Hdots Hdec Hlen.
    destruct (float_of_one_dot run Hdec Hdots Hlen) as [f Hf].
    exists f. split; [ exact Hf | ].
    rewrite Hn, Hdots, Hf. reflexivity.
  - intros Hdots. rewrite Hn.
    destruct (count_dots run) as [| [| n]] eqn:E; try lia.
    simpl. rewrite (float_of_two_dots run) by lia. reflexivity.
  - intros token l'' H. rewrite Hn in H. rewrite contains_dot_count.
    destruct (count_dots run =? 0)%nat; simpl in *.
    + destruct (Py.int run); inversion H. split; [ reflexivity | ].
      right. split; reflexivity.
    + destruct (Py.float run); inversion H. split; [ reflexivity | ].
      left. split; reflexivity.
  - vm_compute. reflexivity.
Qed.

(** C4, where the claim fails: on [1.2.3] the rule consumes both points,
    all five characters, and ends in [ValueError] with no token. *)
Lemma number_consumes_two_dots :
  Lexer.number (Lexer.init "1.2.3")
  = Raise (ValueError "1.2.3") (advances 5 (Lexer.init "1.2.3")) /\
  Lexer.pos (advances 5 (Lexer.init "1.2.3")) = 5 /\
  count_dots "1.2.3" = 2.
Proof. repeat split. Qed.

(** The numeral [1.5] before a space. *)
Lemma number_one_and_a_half :
  exists f,
    Py.float "1.5" = Some f /\
    Lexer.number (Lexer.init "1.5 + x")
    = Ret (Token.make FLOAT (PyFloat f) 1 0) (advances 3 (Lexer.init "1.5 + x")).
Proof.
  destruct (numeral_rule (Lexer.init "1.5 + x") "" "1.5" " + x"
              eq_refl eq_refl eq_refl eq_refl eq_refl)
    as (_ & H & _).
  exact (H eq_refl eq_refl (le_S 2 2 (le_n 2))).
Defined.

(** ** Dict literals *)

Section Dicts.

Context {V : Type}.

Lemma dict_set_present (d : dict V) (k : atom) (old new : V) :
  dict_get d k = Some old ->
  dict_get (dict_set d k new) k = Some new /\
  map fst (dict_set d k new) = map fst d.
Proof.
  induction d as [| [k' v'] d IH]; simpl; [ discriminate | ].
  destruct (eqb k' k) eqn:E; simpl; rewrite E.
  - intros _. split; reflexivity.
  - intros H. destruct (IH H) as [Hget Hkeys].
    split; [ exact Hget | rewrite Hkeys; reflexivity ].
Qed.

Lemma dict_set_absent (d : dict V) (k : atom) (v : V) :
  key_absent d k = true -> dict_set d k v = (d ++ [(k, v)])%list.
Proof.
  induction d as [| [k' v'] d IH]; simpl; [ reflexivity | ].
  intros H. apply andb_true_iff in H. destruct H as [Hk Hd].
  destruct (eqb k' k); [ discriminate | ].
  rewrite IH by exact Hd. reflexivity.
Qed.

End Dicts.

(** The comprehension of [visit_DictExpr] keeps the keys of a dict, in
    their order. *)
Lemma visit_items_keys (items : dict AST) :
  forall (result d : dict value) (s s' : SymbolTable.t),
    distinct_keys items = true ->
    (forall k, In k (map fst items) -> key_absent result k = true) ->
    Interpreter.visit_items Interpreter.visit items result s = Ret d s' ->
    map fst d = (map fst result ++ map fst items)%list.
Proof.
  induction items as [| [k node] items IH];
    intros result d s s' Hdistinct Hfresh H; simpl in *.
  - inversion H. rewrite app_nil_r. reflexivity.
  - unfold bind in H.
    destruct (Interpreter.visit node s) as [v s1 | e s1 |]; try discriminate.
    apply andb_true_iff in Hdistinct. destruct Hdistinct as [Hk Hitems].
    rewrite (dict_set_absent result k v) in H by (apply Hfresh; left; reflexivity).
    apply IH in H.
    + rewrite H, map_app, <- app_assoc. reflexivity.
    + exact Hitems.
    + intros k' Hin.
      pose proof (Hfresh k' (or_intror Hin)) as Hf.
      unfold key_absent in *. rewrite forallb_app, Hf. simpl.
      rewrite forallb_forall in Hk.
      apply in_map_iff in Hin. destruct Hin as [[k1 n1] [<- Hin]].
      rewrite (Hk _ Hin). reflexivity.
Qed.

(** ** The symbol table under a failing statement *)

Section Trees.

Variable P : AST -> Prop.

Hypothesis P_BinOp : forall l op r, P l -> P r -> P (BinOp l op r).
Hypothesis P_Num : forall token, P (Num token).
Hypothesis P_Var : forall token, P (Var token).
Hypothesis P_Assign : forall l op r, P l -> P r -> P (Assign l op r).
Hypothesis P_ListExpr : forall elements, Forall P elements -> P (ListExpr elements).
Hypothesis P_DictExpr :
  forall pairs, Forall (fun kv => P (snd kv)) pairs -> P (DictExpr pairs).
Hypothesis P_None : P None_node.

(** Induction on trees, through the lists of children. *)
Fixpoint AST_induction (node : AST) : P node :=
  match node with
  | BinOp l op r => P_BinOp l op r (AST_induction l) (AST_induction r)
  | Num token => P_Num token
  | Var token => P_Var token
  | Assign l op r => P_Assign l op r (AST_induction l) (AST_induction r)
  | ListExpr elements =>
    P_ListExpr elements
      ((fix children (l : list AST) : Forall P l :=
          match l with
          | [] => Forall_nil P
          | x :: l' => Forall_cons x (AST_induction x) (children l')
          end) elements)
  | DictExpr pairs =>
    P_DictExpr pairs
      ((fix children (l : dict AST) : Forall (fun kv => P (snd kv)) l :=
          match l with
          | [] => Forall_nil _
          | kv :: l' =>
            @Forall_cons _ (fun kv => P (snd kv)) kv l'
              (AST_induction (snd kv)) (children l')
          end) pairs)
  | None_node => P_None
  end.

End Trees.

Section Environment.

Local Arguments bind : simpl never.
Local Arguments ret : simpl never.
Local Arguments Parser.eat : simpl never.
Local Arguments Parser.eat_comma : simpl never.

Lemma bind_Ret {S A B : Type} (m : M S A) (k : A -> M S B) (s s' : S) (b : B) :
  bind m k s = Ret b s' ->
  exists a s1, m s = Ret a s1 /\ k a s1 = Ret b s'.
Proof.
  unfold bind. destruct (m s) as [a s1 | e s1 |]; try discriminate.
  intros H. exists a, s1. split; [ reflexivity | exact H ].
Qed.

Lemma unchanged_bind {S A B : Type} (m : M S A) (k : A -> M S B) (s : S) :
  unchanged (m s) s ->
  (forall a, unchanged (k a s) s) ->
  unchanged (bind m k s) s.
Proof.
  unfold bind. intros Hm Hk.
  destruct (m s) as [a s1 | e s1 |]; simpl in Hm.
  - subst s1. apply Hk.
  - exact Hm.
  - exact Hm.
Qed.

(** The operators touch no state. *)
Lemma visit_BinOp_values_unchanged (op : Token.t) (lv rv : value)
  (s : SymbolTable.t) :
  unchanged (Interpreter.visit_BinOp_values op lv rv s) s.
Proof.
  unfold Interpreter.visit_BinOp_values, Interpreter.returning.
  repeat match goal with
         | |- context [match ?x with _ => _ end] => destruct x
         end;
    reflexivity.
Qed.

(** Visiting a tree with no [Assign] in it leaves the table as it was. *)
Lemma visit_without_assign (node : AST) :
  assign_free node = true ->
  forall s, unchanged (Interpreter.visit node s) s.
Proof.
  induction node using AST_induction; intros Hfree s;
    cbn [Interpreter.visit]; cbn [assign_free] in Hfree.
  - apply andb_true_iff in Hfree. destruct Hfree as [Hl Hr].
    apply unchanged_bind; [ apply IHnode1; exact Hl | intros lv ].
    apply unchanged_bind; [ apply IHnode2; exact Hr | intros rv ].
    apply visit_BinOp_values_unchanged.
  - reflexivity.
  - destruct (Interpreter.is_None _); reflexivity.
  - discriminate.
  - apply unchanged_bind; [ | intros vs; reflexivity ].
    induction H as [| x l Hx Hl IH]; cbn [Interpreter.visit_elements].
    + reflexivity.
    + simpl in Hfree. apply andb_true_iff in Hfree. destruct Hfree as [H1 H2].
      apply unchanged_bind; [ apply Hx; exact H1 | intros v ].
      apply unchanged_bind; [ apply IH; exact H2 | intros vs; reflexivity ].
  - apply unchanged_bind; [ | intros d; reflexivity ].
    generalize (@nil (atom * value)) as result.
    induction H as [| [k x] l Hx Hl IH]; intros result;
      cbn [Interpreter.visit_items].
    + reflexivity.
    + simpl in Hfree. apply andb_true_iff in Hfree. destruct Hfree as [H1 H2].
      apply unchanged_bind; [ apply Hx; exact H1 | intros v ].
      apply IH. exact H2.
  - reflexivity.
Qed.

End Environment.

Section ParsedTrees.

Local Arguments bind : simpl never.
Local Arguments ret : simpl never.
Local Arguments Parser.eat : simpl never.
Local Arguments Parser.eat_comma : simpl never.

Lemma dict_set_assign_free (pairs : dict AST) (k : atom) (node : AST) :
  values_assign_free pairs = true ->
  assign_free node = true ->
  values_assign_free (dict_set pairs k node) = true.
Proof.
  unfold values_assign_free.
  induction pairs as [| [k' v'] pairs IH]; simpl; intros Hp Hn.
  - rewrite Hn. reflexivity.
  - apply andb_true_iff in Hp. destruct Hp as [Hv Hp].
    destruct (eqb k' k); simpl.
    + rewrite Hn, Hp. reflexivity.
    + rewrite Hv, IH by assumption. reflexivity.
Qed.

Ltac returned :=
  repeat match goal with
         | H : bind _ _ _ = Ret _ _ |- _ =>
           apply bind_Ret in H; destruct H as (? & ? & ? & H)
         | H : ret _ _ = Ret _ _ |- _ => unfold ret in H
         | H : Ret _ _ = Ret _ _ |- _ => inversion H; subst; clear H
         end.

(** The expression methods build no [Assign]. *)
Lemma parser_builds_no_assign (n : nat) :
  (forall p node p',
     Parser.factor n p = Ret node p' -> assign_free node = true) /\
  (forall elements p elements' p',
     Parser.factor_list n elements p = Ret elements' p' ->
     forallb assign_free elements = true ->
     forallb assign_free elements' = true) /\
  (forall pairs p pairs' p',
     Parser.factor_dict n pairs p = Ret pairs' p' ->
     values_assign_free pairs = true ->
     values_assign_free pairs' = true) /\
  (forall p node p',
     Parser.term n p = Ret node p' -> assign_free node = true) /\
  (forall node0 p node p',
     Parser.term_loop n node0 p = Ret node p' ->
     assign_free node0 = true -> assign_free node = true) /\
  (forall p node p',
     Parser.expr n p = Ret node p' -> assign_free node = true) /\
  (forall node0 p node p',
     Parser.expr_loop n node0 p = Ret node p' ->
     assign_free node0 = true -> assign_free node = true).
Proof.
  induction n as [| n (Hf & Hfl & Hfd & Ht & Htl & He & Hel)].
  - repeat split; intros; simpl in *; discriminate.
  - split; [ | split; [ | split; [ | split; [ | split; [ | split ] ] ] ] ].
    + intros p node p' H. simpl in H.
      destruct (Token.type (Parser.current_token p)); returned;
        try reflexivity.
      * eapply He; eassumption.
      * cbn [assign_free]. eapply Hfl; [ eassumption | reflexivity ].
      * cbn [assign_free]. eapply Hfd; [ eassumption | reflexivity ].
    + intros elements p elements' p' H Hels. simpl in H.
      destruct (Parser.at_token RBRACKET p); returned; [ exact Hels | ].
      eapply Hfl; [ eassumption | ].
      rewrite forallb_app, Hels. simpl.
      erewrite He by eassumption. reflexivity.
    + intros pairs p pairs' p' H Hpairs. simpl in H.
      destruct (Parser.at_token RBRACE p); returned; [ exact Hpairs | ].
      eapply Hfd; [ eassumption | ].
      apply dict_set_assign_free; [ exact Hpairs | ].
      eapply He; eassumption.
    + intros p node p' H. simpl in H. returned.
      eapply Htl; [ eassumption | ]. eapply Hf; eassumption.
    + intros node0 p node p' H Hnode. simpl in H.
      destruct (Token.type (Parser.current_token p)); returned;
        try exact Hnode;
        (eapply Htl; [ eassumption | ]); cbn [assign_free];
        rewrite Hnode; erewrite Hf by eassumption; reflexivity.
    + intros p node p' H. simpl in H. returned.
      eapply Hel; [ eassumption | ]. eapply Ht; eassumption.
    + intros node0 p node p' H Hnode. simpl in H.
      destruct (Token.type (Parser.current_token p)); returned;
        try exact Hnode;
        (eapply Hel; [ eassumption | ]); cbn [assign_free];
        rewrite Hnode; erewrite Ht by eassumption; reflexivity.
Qed.

(** What [parse] returns: a tree with no [Assign], or one [Assign] of such
    a tree to a [Var]. *)
Lemma parse_returns_statement (n : nat) (p p' : Parser.t) (tree : AST) :
  Parser.parse n p = Ret tree p' ->
  assign_free tree = true \/
  exists token op right,
    tree = Assign (Var token) op right /\ assign_free right = true.
Proof.
  destruct (parser_builds_no_assign n) as (_ & _ & _ & _ & _ & He & _).
  unfold Parser.parse, Parser.assignment. intros H. returned.
  destruct (is_Var x && Parser.at_token ASSIGN x0) eqn:E.
  - returned. right.
    apply andb_true_iff in E. destruct E as [Hvar _].
    destruct x; try discriminate.
    eexists _, _, _. split; [ reflexivity | ]. eapply He; eassumption.
  - returned. left. eapply He; eassumption.
Qed.

End ParsedTrees.

Section Sessions.

Local Arguments bind : simpl never.

(** [interpret] writes the table only at the end of an assignment whose
    right-hand side was evaluated, in the table as it was, to the value
    that is bound and returned. *)
Lemma interpret_environment (fuel : nat) (i : Interpreter.t) :
  match Interpreter.interpret fuel i with
  | Raise _ i' => Interpreter.symbol_table i' = Interpreter.symbol_table i
  | Ret v i' =>
    Interpreter.symbol_table i' = Interpreter.symbol_table i \/
    exists name right,
      assign_free right = true /\
      Interpreter.visit right (Interpreter.symbol_table i)
      = Ret v (Interpreter.symbol_table i) /\
      Interpreter.symbol_table i'
      = SymbolTable.set (Interpreter.symbol_table i) name v
  | OutOfFuel => True
  end.
Proof.
  unfold Interpreter.interpret, bind, Interpreter.on_parser.
  destruct (Parser.parse fuel (Interpreter.parser i)) as [tree p' | e p' |] eqn:E;
    [ | reflexivity | exact I ].
  unfold Interpreter.on_symbol_table. cbn [Interpreter.symbol_table Interpreter.parser].
  apply parse_returns_statement in E.
  destruct E as [Hfree | (token & op & right & -> & Hfree)].
  - pose proof (visit_without_assign tree Hfree (Interpreter.symbol_table i)) as H.
    destruct (Interpreter.visit tree (Interpreter.symbol_table i));
      simpl in *; auto.
  - pose proof (visit_without_assign right Hfree (Interpreter.symbol_table i)) as H.
    cbn [Interpreter.visit attr_value]. unfold bind, ret.
    destruct (Interpreter.visit right (Interpreter.symbol_table i))
      as [v s1 | e s1 |] eqn:E; simpl in *; auto.
    subst s1. right. exists (Token.value token), right.
    repeat split; assumption.
Qed.

Lemma start_line_environment (text : string) (i : Interpreter.t) :
  match Main.start_line text i with
  | Ret _ i' | Raise _ i' =>
    Interpreter.symbol_table i' = Interpreter.symbol_table i
  | OutOfFuel => True
  end.
Proof.
  unfold Main.start_line, Interpreter.on_parser.
  destruct (Lexer.get_next_token _); simpl; auto.
Qed.

(** C8: an exception raised while a line is scanned, parsed or evaluated
    comes out of [evaluate_line] as that exception, with the symbol table
    exactly as it was before the line; the loop reports it and goes on
    with that table. A line that returns has either left the table as it
    was, or it was an assignment: its right-hand side, a tree with no
    assignment in it, was evaluated first, in the table as it was, and the
    table then took the one binding of the returned value. *)
Theorem failed_statement_keeps_environment
  (fuel : nat) (text : string) (i : Interpreter.t) :
  match Main.evaluate_line fuel text i with
  | Raise _ i' => Interpreter.symbol_table i' = Interpreter.symbol_table i
  | Ret v i' =>
    Interpreter.symbol_table i' = Interpreter.symbol_table i \/
    exists name right,
      assign_free right = true /\
      Interpreter.visit right (Interpreter.symbol_table i)
      = Ret v (Interpreter.symbol_table i) /\
      Interpreter.symbol_table i'
      = SymbolTable.set (Interpreter.symbol_table i) name v
  | OutOfFuel => True
  end /\
  (forall e i',
     Main.loop_round fuel text i = Main.Reported e i' ->
     Main.evaluate_line fuel text i = Raise e i' /\
     Interpreter.symbol_table i' = Interpreter.symbol_table i).
Proof.
  assert (Hline :
    match Main.evaluate_line fuel text i with
    | Raise _ i' => Interpreter.symbol_table i' = Interpreter.symbol_table i
    | Ret v i' =>
      Interpreter.symbol_table i' = Interpreter.symbol_table i \/
      exists name right,
        assign_free right = true /\
        Interpreter.visit right (Interpreter.symbol_table i)
        = Ret v (Interpreter.symbol_table i) /\
        Interpreter.symbol_table i'
        = SymbolTable.set (Interpreter.symbol_table i) name v
    | OutOfFuel => True
    end).
  { unfold Main.evaluate_line, bind.
    pose proof (start_line_environment text i) as Hstart.
    destruct (Main.start_line text i) as [[] i1 | e i1 |];
      [ | exact Hstart | exact I ].
    pose proof (interpret_environment fuel i1) as Hint.
    rewrite Hstart in Hint. exact Hint. }
  split; [ exact Hline | ].
  intros e i' H. unfold Main.loop_round in H.
  destruct (Main.strip text =? "")%string; [ discriminate | ].
  destruct (Main.lower (Main.strip text) =? "exit")%string; [ discriminate | ].
  destruct (Main.evaluate_line fuel text i) as [v i1 | e1 i1 |];
    [ destruct (Interpreter.is_None v); discriminate | | discriminate ].
  inversion H. subst e1 i1. split; [ reflexivity | exact Hline ].
Qed.

(** After [x = 5], the line [x = 1 / 0] raises and [x] is still 5. *)
Lemma failed_assignment_keeps_x :
  exists i1 i2,
    Main.evaluate_line 4 "x = 5" Main.fresh = Ret (Atom (PyInt 5)) i1 /\
    Main.evaluate_line 4 "x = 1 / 0" i1 = Raise ZeroDivisionError i2 /\
    Interpreter.symbol_table i2 = [(PyStr "x", Atom (PyInt 5))].
Proof.
  eexists _, _. split; [ vm_compute; reflexivity | ].
  split; vm_compute; reflexivity.
Qed.

End Sessions.

(** ** The end of the token stream *)

Section Progress.

Lemma follows_refl (l : Lexer.t) : in_step l -> follows l l.
Proof. intros H. repeat split; [ exact H | lia ]. Qed.

Lemma moved_advance (l : Lexer.t) : moved l (Lexer.advance l).
Proof. repeat split. simpl. lia. Qed.

Lemma moved_follows (l l1 l2 : Lexer.t) :
  moved l l1 -> follows l1 l2 -> moved l l2.
Proof.
  intros (Ht1 & _ & Hp1) (Ht2 & Hs2 & Hp2).
  repeat split; [ congruence | exact Hs2 | lia ].
Qed.

Lemma follows_moved (l l1 l2 : Lexer.t) :
  follows l l1 -> moved l1 l2 -> moved l l2.
Proof.
  intros (Ht1 & _ & Hp1) (Ht2 & Hs2 & Hp2).
  repeat split; [ congruence | exact Hs2 | lia ].
Qed.

Lemma moved_is_follows (l l' : Lexer.t) : moved l l' -> follows l l'.
Proof. intros (Ht & Hs & Hp). repeat split; [ exact Ht | exact Hs | lia ]. Qed.

(** A character under the cursor means the text is not exhausted. *)
Lemma remaining_positive (l : Lexer.t) (c : ascii) :
  in_step l -> Lexer.current_char l = Some c -> 0 < remaining l.
Proof.
  unfold in_step, remaining. intros Hs Hc. rewrite Hs in Hc.
  apply get_within in Hc. lia.
Qed.

Lemma remaining_moved (l l' : Lexer.t) :
  moved l l' -> 0 < remaining l -> remaining l' < remaining l.
Proof. unfold remaining. intros (Ht & _ & Hp) H. rewrite Ht. lia. Qed.

Lemma remaining_follows (l l' : Lexer.t) :
  follows l l' -> remaining l' <= remaining l.
Proof. unfold remaining. intros (Ht & _ & Hp). rewrite Ht. lia. Qed.

(** The loops end before their fuel does, and move on when they start on a
    character they keep. *)
Lemma scan_while_progress (keep : ascii -> bool) (fuel : nat) :
  forall (result : string) (l : Lexer.t),
    in_step l ->
    remaining l < fuel ->
    exists r l',
      Lexer.scan_while fuel keep result l = Some (r, l') /\
      follows l l' /\
      (forall c, Lexer.current_char l = Some c -> keep c = true -> moved l l').
Proof.
  induction fuel as [| fuel IH]; intros result l Hstep Hfuel; [ lia | ].
  cbn [Lexer.scan_while].
  destruct (Lexer.current_char l) as [c |] eqn:Ec.
  - destruct (keep c) eqn:Ek.
    + pose proof (remaining_positive l c Hstep Ec) as Hpos.
      pose proof (remaining_moved l _ (moved_advance l) Hpos) as Hless.
      destruct (IH (result ++ String c "") (Lexer.advance l)
                  (advance_in_step l) ltac:(lia)) as (r & l' & Hscan & Hf & _).
      exists r, l'. split; [ exact Hscan | ].
      pose proof (moved_follows _ _ _ (moved_advance l) Hf) as Hm.
      split; [ apply moved_is_follows; exact Hm | intros; exact Hm ].
    + exists result, l. split; [ reflexivity | ].
      split; [ apply follows_refl; exact Hstep | ].
      intros c' Hc' Hk. congruence.
  - exists result, l. split; [ reflexivity | ].
    split; [ apply follows_refl; exact Hstep | ].
    intros c' Hc'. discriminate.
Qed.

Lemma budget_suffices (l : Lexer.t) : remaining l < Lexer.budget l.
Proof. unfold remaining, Lexer.budget. lia. Qed.

Lemma advance_while_progress (keep : ascii -> bool) (l : Lexer.t) :
  in_step l ->
  exists l',
    Lexer.advance_while keep l = Ret tt l' /\
    follows l l' /\
    (forall c, Lexer.current_char l = Some c -> keep c = true -> moved l l').
Proof.
  intros Hstep. unfold Lexer.advance_while.
  destruct (scan_while_progress keep (Lexer.budget l) "" l Hstep
              (budget_suffices l)) as (r & l' & -> & Hf & Hm).
  exists l'. split; [ reflexivity | split; [ exact Hf | exact Hm ] ].
Qed.

Lemma skip_block_progress (fuel : nat) :
  forall l : Lexer.t,
    in_step l ->
    remaining l < fuel ->
    exists l', Lexer.skip_block fuel l = Some l' /\ follows l l'.
Proof.
  induction fuel as [| fuel IH]; intros l Hstep Hfuel; [ lia | ].
  cbn [Lexer.skip_block].
  destruct (Lexer.current_char l) as [c |] eqn:Ec.
  - destruct ((c =? "*")%char && Lexer.is_char "/" (Lexer.peek l)).
    + eexists. split; [ reflexivity | ].
      apply moved_is_follows.
      apply (moved_follows _ _ _ (moved_advance l)).
      apply moved_is_follows. apply moved_advance.
    + pose proof (remaining_positive l c Hstep Ec) as Hpos.
      pose proof (remaining_moved l _ (moved_advance l) Hpos) as Hless.
      destruct (IH (Lexer.advance l) (advance_in_step l) ltac:(lia))
        as (l' & Hskip & Hf).
      exists l'. split; [ exact Hskip | ].
      apply moved_is_follows.
      exact (moved_follows _ _ _ (moved_advance l) Hf).
  - exists l. split; [ reflexivity | apply follows_refl; exact Hstep ].
Qed.

(** [skip_comment] at a slash: a comment is skipped, or the slash is the
    [DIV] token; either way the scanner has moved on. *)
Lemma skip_comment_progress (l : Lexer.t) :
  Lexer.current_char l = Some "/"%char ->
  exists comment_token l',
    Lexer.skip_comment l = Ret comment_token l' /\
    moved l l' /\
    (forall token, comment_token = Some token -> Token.type token = DIV).
Proof.
  intros Hc. unfold Lexer.skip_comment. rewrite Hc. cbn [Lexer.is_char].
  change ("/" =? "/")%char with true. cbv iota.
  destruct (Lexer.is_char "/" (Lexer.current_char (Lexer.advance l))).
  - unfold bind.
    destruct (advance_while_progress (fun c => negb (c =? Lexer.newline)%char)
                (Lexer.advance l) (advance_in_step l)) as (l2 & -> & Hf & _).
    eexists _, _. split; [ reflexivity | ].
    split; [ | intros token H; discriminate ].
    apply (moved_follows _ _ _ (moved_advance l)).
    apply (moved_is_follows).
    exact (follows_moved _ _ _ Hf (moved_advance l2)).
  - destruct (Lexer.is_char "*" (Lexer.current_char (Lexer.advance l))).
    + destruct (skip_block_progress
                  (Lexer.budget (Lexer.advance (Lexer.advance l)))
                  (Lexer.advance (Lexer.advance l))
                  (advance_in_step _) (budget_suffices _)) as (l3 & -> & Hf).
      eexists _, _. split; [ reflexivity | ].
      split; [ | intros token H; discriminate ].
      apply (moved_follows _ _ _ (moved_advance l)).
      apply moved_is_follows.
      exact (moved_follows _ _ _ (moved_advance _) Hf).
    + eexists _, _. split; [ reflexivity | ].
      split; [ apply moved_advance | ].
      intros token H. inversion H. reflexivity.
Qed.

End Progress.

Section TokenStream.

Local Arguments bind : simpl never.

Lemma number_progress (l : Lexer.t) (c : ascii) :
  in_step l ->
  Lexer.current_char l = Some c ->
  isdigit c || (c =? ".")%char = true ->
  token_or_error (Lexer.number l) l.
Proof.
  intros Hstep Hc Hk. unfold Lexer.number.
  destruct (scan_while_progress (fun c => isdigit c || (c =? ".")%char)
              (Lexer.budget l) "" l Hstep (budget_suffices l))
    as (r & l' & -> & _ & Hm).
  specialize (Hm c Hc Hk).
  destruct (contains_dot r).
  - destruct (Py.float r); simpl; [ split; [ exact Hm | discriminate ] | exact I ].
  - destruct (Py.int r); simpl; [ split; [ exact Hm | discriminate ] | exact I ].
Qed.

Lemma string_progress (l : Lexer.t) : token_or_error (Lexer.string_ l) l.
Proof.
  unfold Lexer.string_.
  destruct (scan_while_progress (fun c => negb (c =? Lexer.quote)%char)
              (Lexer.budget (Lexer.advance l)) "" (Lexer.advance l)
              (advance_in_step l) (budget_suffices _))
    as (r & l' & -> & Hf & _).
  destruct (Lexer.current_char l'); simpl; [ | exact I ].
  split; [ | discriminate ].
  apply (moved_follows _ _ _ (moved_advance l)).
  apply moved_is_follows.
  exact (follows_moved _ _ _ Hf (moved_advance l')).
Qed.

Lemma identifier_progress (l : Lexer.t) (c : ascii) :
  in_step l ->
  Lexer.current_char l = Some c ->
  isalpha c || (c =? "_")%char = true ->
  token_or_error (Lexer.identifier l) l.
Proof.
  intros Hstep Hc Hk. unfold Lexer.identifier.
  destruct (scan_while_progress (fun c => isalnum c || (c =? "_")%char)
              (Lexer.budget l) "" l Hstep (budget_suffices l))
    as (r & l' & -> & _ & Hm).
  assert (Hkeep : isalnum c || (c =? "_")%char = true).
  { unfold isalnum. apply orb_true_iff in Hk. destruct Hk as [-> | ->].
    - reflexivity.
    - apply orb_true_r. }
  specialize (Hm c Hc Hkeep).
  destruct (r =? "true")%string; [ split; [ exact Hm | discriminate ] | ].
  destruct (r =? "false")%string; split; try exact Hm; discriminate.
Qed.

Lemma single_character_is_no_EOF (c : ascii) (token_type : TokenType) :
  Lexer.single_character Lexer.single_character_tokens c = Some token_type ->
  token_type <> EOF.
Proof.
  unfold Lexer.single_character_tokens. cbn [Lexer.single_character].
  repeat match goal with
         | |- context [if ?b then _ else _] => destruct b
         end;
    intros H; inversion H; discriminate.
Qed.

Lemma token_or_error_scanned (o : outcome Lexer.t Token.t) (l : Lexer.t) :
  0 < remaining l -> token_or_error o l -> scanned o l.
Proof.
  intros Hpos. destruct o as [token l' | e l' |]; simpl; auto.
  intros [Hm Htype]. split; [ apply moved_is_follows; exact Hm | ].
  right. split; [ exact Htype | apply remaining_moved; assumption ].
Qed.

Lemma scanned_later (o : outcome Lexer.t Token.t) (l l1 : Lexer.t) :
  moved l l1 -> 0 < remaining l -> scanned o l1 -> scanned o l.
Proof.
  intros Hm Hpos. destruct o as [token l' | e l' |]; simpl; auto.
  intros [Hf H].
  split; [ apply moved_is_follows; exact (moved_follows _ _ _ Hm Hf) | ].
  destruct H as [H | [Htype Hless]]; [ left; exact H | right ].
  split; [ exact Htype | ].
  pose proof (remaining_moved _ _ Hm Hpos). lia.
Qed.

(** One call of the scanner: it never runs out of fuel, and a token other
    than [EOF] costs at least one character of the text. *)
Lemma get_next_token_loop_scanned (fuel : nat) :
  forall l : Lexer.t,
    in_step l ->
    remaining l < fuel ->
    scanned (Lexer.get_next_token_loop fuel l) l.
Proof.
  induction fuel as [| fuel IH]; intros l Hstep Hfuel; [ lia | ].
  cbn [Lexer.get_next_token_loop].
  destruct (Lexer.current_char l) as [c |] eqn:Ec.
  2:{ simpl. split; [ apply follows_refl; exact Hstep | ].
      left. split; [ reflexivity | exact Ec ]. }
  pose proof (remaining_positive l c Hstep Ec) as Hpos.
  destruct (isspace c) eqn:Espace.
  { unfold bind, Lexer.skip_whitespace.
    destruct (advance_while_progress isspace l Hstep) as (l1 & -> & Hf & Hm).
    specialize (Hm c Ec Espace).
    apply (scanned_later _ l l1 Hm Hpos).
    apply IH; [ apply Hm | ].
    pose proof (remaining_moved _ _ Hm Hpos). lia. }
  destruct (c =? "/")%char eqn:Eslash.
  { apply Ascii.eqb_eq in Eslash. subst c. unfold bind.
    destruct (skip_comment_progress l Ec) as (ct & l1 & -> & Hm & Hdiv).
    destruct ct as [token |].
    - apply token_or_error_scanned; [ exact Hpos | ].
      simpl. split; [ exact Hm | ]. rewrite (Hdiv token eq_refl). discriminate.
    - apply (scanned_later _ l l1 Hm Hpos).
      apply IH; [ apply Hm | ].
      pose proof (remaining_moved _ _ Hm Hpos). lia. }
  destruct (isdigit c || (c =? ".")%char) eqn:Enum.
  { apply token_or_error_scanned; [ exact Hpos | ].
    exact (number_progress l c Hstep Ec Enum). }
  destruct (c =? Lexer.quote)%char.
  { apply token_or_error_scanned; [ exact Hpos | apply string_progress ]. }
  destruct (isalpha c || (c =? "_")%char) eqn:Ealpha.
  { apply token_or_error_scanned; [ exact Hpos | ].
    exact (identifier_progress l c Hstep Ec Ealpha). }
  destruct (Lexer.single_character Lexer.single_character_tokens c)
    as [token_type |] eqn:Esingle; [ | exact I ].
  apply token_or_error_scanned; [ exact Hpos | ].
  simpl. split; [ apply moved_advance | ].
  exact (single_character_is_no_EOF c token_type Esingle).
Qed.

Lemma get_next_token_scanned (l : Lexer.t) :
  in_step l -> scanned (Lexer.get_next_token l) l.
Proof.
  intros Hstep. unfold Lexer.get_next_token.
  apply get_next_token_loop_scanned; [ exact Hstep | apply budget_suffices ].
Qed.

(** At the end of the text the scanner answers [EOF] and stays as it is. *)
Lemma get_next_token_at_end (l : Lexer.t) :
  Lexer.current_char l = None ->
  Lexer.get_next_token l
  = Ret (Token.make EOF PyNone (Lexer.line l) (Lexer.column l)) l.
Proof.
  intros H. unfold Lexer.get_next_token, Lexer.budget.
  cbn [Lexer.get_next_token_loop]. rewrite H. reflexivity.
Qed.

End TokenStream.

Section Streams.

Lemma debug_tokens_stream (fuel : nat) :
  forall l : Lexer.t,
    in_step l ->
    remaining l < fuel ->
    match Lexer.debug_tokens fuel l with
    | Ret tokens l' =>
      exists eof,
        ends_with_one_EOF tokens eof /\
        Lexer.get_next_token l' = Ret eof l'
    | Raise _ _ => True
    | OutOfFuel => False
    end.
Proof.
  induction fuel as [| fuel IH]; intros l Hstep Hfuel; [ lia | ].
  cbn [Lexer.debug_tokens].
  pose proof (get_next_token_scanned l Hstep) as Hscan.
  destruct (Lexer.get_next_token l) as [token l1 | e l1 |];
    simpl in Hscan; [ | exact I | exact Hscan ].
  destruct Hscan as [Hf [[-> Hend] | [Htype Hless]]].
  - cbn [Token.type].
    exists (Token.make EOF PyNone (Lexer.line l1) (Lexer.column l1)).
    split; [ | apply get_next_token_at_end; exact Hend ].
    exists []. repeat split. constructor.
  - assert (Hrest :
      match Lexer.debug_tokens fuel l1 with
      | Ret tokens l' =>
        exists eof,
          ends_with_one_EOF (token :: tokens) eof /\
          Lexer.get_next_token l' = Ret eof l'
      | Raise _ _ => True
      | OutOfFuel => False
      end).
    { specialize (IH l1 (proj1 (proj2 Hf)) ltac:(lia)).
      destruct (Lexer.debug_tokens fuel l1) as [tokens l2 | e l2 |]; auto.
      destruct IH as (eof & (body & -> & Hbody & Heof) & Hnext).
      exists eof. split; [ | exact Hnext ].
      exists (token :: body). repeat split; [ | exact Heof ].
      constructor; assumption. }
    destruct (Token.type token); try contradiction;
      destruct (Lexer.debug_tokens fuel l1); exact Hrest.
Qed.

End Streams.

(** C7, as the code has it: on every text, the calls of the scanner up to
    the first [EOF] never hang: they are cut short by a scanning exception,
    or they give a list of tokens that ends with [EOF] and holds no other
    [EOF]. The scanner is then at the end of its text, where a further call
    gives the same [EOF] token again and leaves the scanner as it is, so
    every later call does. This holds at the end of any text, however it
    was reached. *)
Theorem token_stream_ends_with_EOF (text : string) :
  match Lexer.debug_tokens (S (String.length text)) (Lexer.init text) with
  | Ret tokens l' =>
    exists eof,
      ends_with_one_EOF tokens eof /\
      Lexer.get_next_token l' = Ret eof l'
  | Raise _ _ => True
  | OutOfFuel => False
  end /\
  (forall l : Lexer.t,
     Lexer.current_char l = None ->
     Lexer.get_next_token l
     = Ret (Token.make EOF PyNone (Lexer.line l) (Lexer.column l)) l).
Proof.
  split; [ | exact get_next_token_at_end ].
  apply debug_tokens_stream.
  - reflexivity.
  - unfold remaining. simpl. lia.
Qed.

(** C7, where the claim fails: on the text [@] no call of the scanner ever
    gives [EOF]. The first call raises and leaves the scanner where it
    was, so every call raises. *)
Lemma no_EOF_after_invalid_character :
  Lexer.get_next_token (Lexer.init "@")
  = Raise (InvalidCharacter "@" 1 1) (Lexer.init "@") /\
  Lexer.debug_tokens 2 (Lexer.init "@")
  = Raise (InvalidCharacter "@" 1 1) (Lexer.init "@").
Proof. split; reflexivity. Qed.

(** ** Where the scanner of the package differs *)

(** Its [string] returns a token at the end of the text, with what it has
    read, where the scanner above raises. *)
Lemma package_string_unterminated :
  answer (Package.string_ (Lexer.init (String Lexer.quote "abc")))
  = Some (inr (Token.make STRING (PyStr "abc") 1 6)) /\
  answer (Lexer.string_ (Lexer.init (String Lexer.quote "abc")))
  = Some (inl (UnterminatedString 1 0)).
Proof. split; reflexivity. Qed.

(** Its [number] has no float: a numeral with a point raises. *)
Lemma package_number_with_a_dot :
  answer (Package.number (Lexer.init "1.5")) = Some (inl (ValueError "1.5")) /\
  answer (Package.number (Lexer.init "15"))
  = Some (inr (Token.make INTEGER (PyInt 15) 1 3)).
Proof. split; reflexivity. Qed.

(** * Further properties of the scanner *)

Section Positions.

(** The line grows by the newlines passed; with none passed, the column
    grows by the characters passed. *)
Lemma advances_line_column (run : string) :
  forall (l : Lexer.t) (pre rest : string),
    Lexer.text l = pre ++ run ++ rest ->
    Lexer.pos l = String.length pre ->
    in_step l ->
    Lexer.line (advances (String.length run) l)
    = (Lexer.line l + count_newlines run)%Z /\
    (count_newlines run = 0%Z ->
     Lexer.column (advances (String.length run) l)
     = (Lexer.column l + Z.of_nat (String.length run))%Z).
Proof.
  induction run as [| c run IH]; intros l pre rest Htext Hpos Hstep.
  - simpl. split; [ lia | intros _; lia ].
  - assert (Hc : Lexer.current_char l = Some c).
    { rewrite Hstep, Htext, Hpos, get_at_prefix. reflexivity. }
    destruct (IH (Lexer.advance l) (pre ++ String c "") rest) as [Hline Hcol].
    + rewrite advance_text, Htext, append_associative. reflexivity.
    + rewrite advance_pos, Hpos, length_of_append. simpl. lia.
    + apply advance_in_step.
    + assert (Hnonneg : forall s, (0 <= count_newlines s)%Z).
      { induction s as [| c' s' IHs]; simpl; [ lia | ].
        destruct (c' =? Lexer.newline)%char; lia. }
      cbn [String.length advances count_newlines].
      rewrite Hline. cbn [Lexer.advance Lexer.line Lexer.column] in *.
      rewrite Hc in *. cbn [Lexer.is_char] in *.
      pose proof (Hnonneg run) as Hrun.
      destruct (c =? Lexer.newline)%char; split; lia.
Qed.

End Positions.

Section ScannerRules.

Local Arguments bind : simpl never.

(** X1: [skip_whitespace] consumes the whole run of whitespace under the
    cursor and nothing more; the line counter grows by the newlines of the
    run, and when the run holds none the column grows by its length. *)
Theorem skip_whitespace_rule (l : Lexer.t) (pre run rest : string) :
  Lexer.text l = pre ++ run ++ rest ->
  Lexer.pos l = String.length pre ->
  in_step l ->
  all_chars isspace run = true ->
  stops isspace rest = true ->
  Lexer.skip_whitespace l = Ret tt (advances (String.length run) l) /\
  Lexer.line (advances (String.length run) l)
  = (Lexer.line l + count_newlines run)%Z /\
  (count_newlines run = 0%Z ->
   Lexer.column (advances (String.length run) l)
   = (Lexer.column l + Z.of_nat (String.length run))%Z).
Proof.
  intros Htext Hpos Hstep Hall Hstop. split.
  - unfold Lexer.skip_whitespace, Lexer.advance_while.
    rewrite (scan_while_run isspace run _ "" l pre rest); try assumption.
    + reflexivity.
    + apply (budget_covers l pre run rest); assumption.
  - apply (advances_line_column run l pre rest); assumption.
Qed.

(** Two spaces and a newline before a name. *)
Lemma skip_whitespace_over_a_newline :
  Lexer.skip_whitespace (Lexer.init (blank_then_x))
  = Ret tt (advances 3 (Lexer.init blank_then_x)) /\
  Lexer.line (advances 3 (Lexer.init blank_then_x)) = 2%Z.
Proof.
  destruct (skip_whitespace_rule (Lexer.init blank_then_x) ""
              ("  " ++ String Lexer.newline "") "x"
              eq_refl eq_refl eq_refl eq_refl eq_refl) as (H1 & H2 & _).
  split; [ exact H1 | exact H2 ].
Defined.

(** X2: [identifier] consumes the whole run of letters, digits and
    underscores under the cursor. The run [true] or [false] gives a
    [BOOLEAN]; every other run, also one that only starts with [true],
    gives an [IDENTIFIER] with the run as its value. The token's column is
    the offset where the run starts. The method never raises. *)
Theorem identifier_rule (l : Lexer.t) (pre run rest : string) :
  Lexer.text l = pre ++ run ++ rest ->
  Lexer.pos l = String.length pre ->
  in_step l ->
  all_chars word_char run = true ->
  stops word_char rest = true ->
  let l' := advances (String.length run) l in
  let start_pos := Z.of_nat (Lexer.pos l) in
  Lexer.identifier l = Ret (word_token run (Lexer.line l') start_pos) l' /\
  (run = "true" ->
   Lexer.identifier l
   = Ret (Token.make BOOLEAN (PyBool true) (Lexer.line l') start_pos) l') /\
  (run = "false" ->
   Lexer.identifier l
   = Ret (Token.make BOOLEAN (PyBool false) (Lexer.line l') start_pos) l') /\
  (run <> "true" -> run <> "false" ->
   Lexer.identifier l
   = Ret (Token.make IDENTIFIER (PyStr run) (Lexer.line l') start_pos) l').
Proof.
  intros Htext Hpos Hstep Hall Hstop l' start_pos.
  assert (H : Lexer.identifier l
              = Ret (word_token run (Lexer.line l') start_pos) l').
  { unfold Lexer.identifier.
    change (fun c : ascii => isalnum c || (c =? "_")%char) with word_char.
    rewrite (scan_while_run word_char run _ "" l pre rest); try assumption.
    - cbn [append]. unfold word_token. fold l'. fold start_pos.
      destruct (run =? "true")%string; [ reflexivity | ].
      destruct (run =? "false")%string; reflexivity.
    - apply (budget_covers l pre run rest); assumption. }
  rewrite H. unfold word_token.
  split; [ reflexivity | ].
  split; [ intros ->; reflexivity | ].
  split; [ intros ->; reflexivity | ].
  intros Ht Hf.
  apply String.eqb_neq in Ht. apply String.eqb_neq in Hf.
  rewrite Ht, Hf. reflexivity.
Qed.

(** The name [truex] is an identifier. *)
Lemma identifier_truex :
  Lexer.identifier (Lexer.init "truex = 1")
  = Ret (Token.make IDENTIFIER (PyStr "truex") 1 0)
        (advances 5 (Lexer.init "truex = 1")).
Proof.
  exact (proj1 (identifier_rule (Lexer.init "truex = 1") "" "truex" " = 1"
                  eq_refl eq_refl eq_refl eq_refl eq_refl)).
Defined.

End ScannerRules.

Section Comments.

Local Arguments bind : simpl never.

Lemma char_under_cursor (l : Lexer.t) (pre rest : string) (c : ascii) :
  Lexer.text l = pre ++ String c rest ->
  Lexer.pos l = String.length pre ->
  in_step l ->
  Lexer.current_char l = Some c.
Proof.
  intros Htext Hpos Hstep. rewrite Hstep, Htext, Hpos, get_at_prefix.
  reflexivity.
Qed.

Lemma text_after_advance (l : Lexer.t) (pre rest : string) (c : ascii) :
  Lexer.text l = pre ++ String c rest ->
  Lexer.pos l = String.length pre ->
  Lexer.text (Lexer.advance l) = (pre ++ String c "") ++ rest /\
  Lexer.pos (Lexer.advance l) = String.length (pre ++ String c "").
Proof.
  intros Htext Hpos. split.
  - rewrite advance_text, Htext, append_associative. reflexivity.
  - rewrite advance_pos, Hpos, length_of_append. simpl. lia.
Qed.

(** The loop of a block comment runs to the first star followed by a slash
    and past it, or to the end of the text. *)
Lemma skip_block_run (body : string) (closed : bool) (tail : string) :
  forall (fuel : nat) (l : Lexer.t) (pre : string),
    Lexer.text l = pre ++ body ++ (if closed then "*/" ++ tail else "") ->
    Lexer.pos l = String.length pre ->
    in_step l ->
    closes_in body = false ->
    String.length body + 1 < fuel ->
    Lexer.skip_block fuel l
    = Some (advances (String.length body + (if closed then 2 else 0)) l).
Proof.
  induction body as [| c body IH]; intros fuel l pre Htext Hpos Hstep Hopen Hfuel;
    (destruct fuel as [| fuel]; [ lia | ]); cbn [Lexer.skip_block].
  - cbn [append] in Htext. destruct closed.
    + rewrite (char_under_cursor l pre _ _ Htext Hpos Hstep).
      unfold Lexer.peek. rewrite Htext, Hpos.
      replace (S (String.length pre)) with (String.length pre + 1) by lia.
      rewrite get_after_prefix. reflexivity.
    + rewrite Hstep, Htext, Hpos, get_at_prefix. reflexivity.
  - cbn [append] in Htext.
    rewrite (char_under_cursor l pre _ _ Htext Hpos Hstep).
    assert (Hpeek : (c =? "*")%char && Lexer.is_char "/" (Lexer.peek l) = false).
    { unfold Lexer.peek. rewrite Htext, Hpos.
      replace (S (String.length pre)) with (String.length pre + 1) by lia.
      rewrite get_after_prefix. cbn [String.get].
      cbn [closes_in] in Hopen. apply orb_false_iff in Hopen.
      destruct Hopen as [Hhere _].
      destruct (c =? "*")%char; [ | reflexivity ]. simpl in *.
      destruct body as [| c' body'].
      - destruct closed; reflexivity.
      - simpl in *. destruct (c' =? "/")%char; [ discriminate | reflexivity ]. }
    rewrite Hpeek.
    destruct (text_after_advance l pre _ c Htext Hpos) as [Htext1 Hpos1].
    cbn [closes_in] in Hopen. apply orb_false_iff in Hopen.
    rewrite (IH fuel (Lexer.advance l) (pre ++ String c "") Htext1 Hpos1
               (advance_in_step l) (proj2 Hopen)) by (simpl in Hfuel; lia).
    reflexivity.
Qed.

(** X3: a line comment is skipped with its newline. At two slashes,
    [skip_comment] returns no token and leaves the scanner one character
    past the end of the line; when the text ends inside the comment, that is
    one position past the end of the text. *)
Theorem line_comment_is_skipped (l : Lexer.t) (pre body rest : string) :
  Lexer.text l = pre ++ "//" ++ body ++ rest ->
  Lexer.pos l = String.length pre ->
  in_step l ->
  all_chars not_newline body = true ->
  stops not_newline rest = true ->
  Lexer.skip_comment l = Ret None (advances (3 + String.length body) l) /\
  Lexer.pos (advances (3 + String.length body) l)
  = String.length pre + String.length body + 3.
Proof.
  intros Htext Hpos Hstep Hall Hstop. split.
  - unfold Lexer.skip_comment. cbn [append] in Htext.
    rewrite (char_under_cursor l pre _ _ Htext Hpos Hstep).
    cbn [Lexer.is_char]. change ("/" =? "/")%char with true. cbv iota.
    destruct (text_after_advance l pre _ _ Htext Hpos) as [Htext1 Hpos1].
    rewrite (char_under_cursor (Lexer.advance l) _ _ _ Htext1 Hpos1
               (advance_in_step l)).
    cbn [Lexer.is_char]. change ("/" =? "/")%char with true. cbv iota.
    unfold bind, Lexer.advance_while.
    change (fun c : ascii => negb (c =? Lexer.newline)%char) with not_newline.
    rewrite (scan_while_run not_newline (String "/" body) _ ""
               (Lexer.advance l) (pre ++ "/") rest);
      try solve [ assumption | apply advance_in_step ].
    + rewrite advances_last. reflexivity.
    + apply (budget_covers _ (pre ++ "/") (String "/" body) rest); assumption.
  - rewrite advances_pos, Hpos. lia.
Qed.

(** A comment that runs to the end of the text. *)
Lemma line_comment_at_end_of_text :
  Lexer.skip_comment (Lexer.init "// x")
  = Ret None (advances 5 (Lexer.init "// x")) /\
  Lexer.pos (advances 5 (Lexer.init "// x")) = 5.
Proof.
  exact (line_comment_is_skipped (Lexer.init "// x") "" " x" ""
           eq_refl eq_refl eq_refl eq_refl eq_refl).
Defined.

(** X4: a block comment is skipped up to and including the first star
    followed by a slash after its opening; the star of the opening does not
    count. A block comment that is never closed is skipped to the end of
    the text without any exception, and the next token is [EOF]. *)
Theorem block_comment_is_skipped (l : Lexer.t) (pre body : string) :
  Lexer.pos l = String.length pre ->
  in_step l ->
  closes_in body = false ->
  (forall tail,
     Lexer.text l = pre ++ "/*" ++ body ++ "*/" ++ tail ->
     Lexer.skip_comment l = Ret None (advances (4 + String.length body) l)) /\
  (Lexer.text l = pre ++ "/*" ++ body ->
   Lexer.skip_comment l = Ret None (advances (2 + String.length body) l) /\
   exists eof,
     Token.type eof = EOF /\
     Lexer.get_next_token l = Ret eof (advances (2 + String.length body) l)).
Proof.
  intros Hpos Hstep Hopen.
  assert (Hskip : forall (closed : bool) (tail : string),
    Lexer.text l
    = pre ++ "/*" ++ body ++ (if closed then "*/" ++ tail else "") ->
    Lexer.skip_comment l
    = Ret None (advances (2 + (String.length body + (if closed then 2 else 0))) l)).
  { intros closed tail Htext. unfold Lexer.skip_comment.
    cbn [append] in Htext.
    rewrite (char_under_cursor l pre _ _ Htext Hpos Hstep).
    cbn [Lexer.is_char]. change ("/" =? "/")%char with true. cbv iota.
    destruct (text_after_advance l pre _ _ Htext Hpos) as [Htext1 Hpos1].
    rewrite (char_under_cursor (Lexer.advance l) _ _ _ Htext1 Hpos1
               (advance_in_step l)).
    cbn [Lexer.is_char]. change ("*" =? "/")%char with false.
    change ("*" =? "*")%char with true. cbv iota.
    destruct (text_after_advance (Lexer.advance l) _ _ _ Htext1 Hpos1)
      as [Htext2 Hpos2].
    rewrite (skip_block_run body closed tail _ (Lexer.advance (Lexer.advance l))
               ((pre ++ "/") ++ "*") Htext2 Hpos2 (advance_in_step _) Hopen).
    - reflexivity.
    - unfold Lexer.budget. rewrite Htext2, Hpos2, !length_of_append.
      destruct closed; simpl; lia. }
  split.
  - intros tail Htext.
    rewrite (Hskip true tail Htext). f_equal. f_equal. lia.
  - intros Htext.
    assert (Hnone : Lexer.skip_comment l
                    = Ret None (advances (2 + String.length body) l)).
    { rewrite (Hskip false "").
      - f_equal. f_equal. lia.
      - cbn [append]. rewrite append_empty. exact Htext. }
    split; [ exact Hnone | ].
    assert (Hend : Lexer.current_char (advances (2 + String.length body) l) = None).
    { rewrite (advances_in_step _ l Hstep). apply get_beyond.
      rewrite advances_text, advances_pos, Htext, Hpos, !length_of_append.
      simpl. lia. }
    exists (Token.make EOF PyNone
              (Lexer.line (advances (2 + String.length body) l))
              (Lexer.column (advances (2 + String.length body) l))).
    split; [ reflexivity | ].
    unfold Lexer.get_next_token, Lexer.budget.
    cbn [Lexer.get_next_token_loop].
    cbn [append] in Htext.
    rewrite (char_under_cursor l pre _ _ Htext Hpos Hstep).
    change (isspace "/") with false. change ("/" =? "/")%char with true.
    cbv iota. unfold bind. rewrite Hnone.
    destruct (String.length (Lexer.text l) - Lexer.pos l) eqn:E.
    + exfalso. rewrite Htext, Hpos, length_of_append in E. simpl in E. lia.
    + cbn [Lexer.get_next_token_loop]. rewrite Hend. reflexivity.
Qed.

(** A comment with stars in it, and one that is never closed. *)
Lemma block_comment_with_stars :
  Lexer.skip_comment (Lexer.init "/* a **/ 1")
  = Ret None (advances 8 (Lexer.init "/* a **/ 1")).
Proof.
  exact (proj1 (block_comment_is_skipped (Lexer.init "/* a **/ 1") "" " a *"
                  eq_refl eq_refl eq_refl) " 1" eq_refl).
Defined.

(** X5: a slash followed by neither a slash nor a star is the [DIV] token;
    it carries the line and the column of the slash, and the scanner is
    left just after it. *)
Theorem lone_slash_is_DIV (l : Lexer.t) (pre rest : string) :
  Lexer.text l = pre ++ String "/" rest ->
  Lexer.pos l = String.length pre ->
  in_step l ->
  stops comment_opener rest = true ->
  Lexer.skip_comment l
  = Ret (Some (Token.make DIV (PyStr "/") (Lexer.line l) (Lexer.column l)))
        (Lexer.advance l).
Proof.
  intros Htext Hpos Hstep Hrest. unfold Lexer.skip_comment.
  pose proof (char_under_cursor l pre _ _ Htext Hpos Hstep) as Hc.
  rewrite Hc. cbn [Lexer.is_char]. change ("/" =? "/")%char with true.
  cbv iota.
  destruct (text_after_advance l pre _ _ Htext Hpos) as [Htext1 Hpos1].
  assert (Hnext : Lexer.current_char (Lexer.advance l) = String.get 0 rest).
  { rewrite (advance_in_step l : in_step (Lexer.advance l)), Htext1, Hpos1.
    apply get_at_prefix. }
  rewrite Hnext.
  assert (Hline : Lexer.line (Lexer.advance l) = Lexer.line l).
  { cbn [Lexer.advance Lexer.line]. rewrite Hc. reflexivity. }
  assert (Hcol : (Lexer.column (Lexer.advance l) - 1)%Z = Lexer.column l).
  { cbn [Lexer.advance Lexer.column]. rewrite Hc.
    change (Lexer.is_char Lexer.newline (Some "/"%char)) with false.
    cbv iota. lia. }
  rewrite Hline, Hcol.
  destruct rest as [| c rest']; cbn [String.get Lexer.is_char];
    [ reflexivity | ].
  simpl in Hrest. unfold comment_opener in Hrest.
  apply negb_true_iff in Hrest. apply orb_false_iff in Hrest.
  destruct Hrest as [-> ->]. reflexivity.
Qed.

End Comments.

(** A division sign before a space. *)
Lemma lone_slash_before_space :
  Lexer.skip_comment (Lexer.init "/ 2")
  = Ret (Some (Token.make DIV (PyStr "/") 1 1)) (Lexer.advance (Lexer.init "/ 2")).
Proof.
  exact (lone_slash_is_DIV (Lexer.init "/ 2") "" " 2"
           eq_refl eq_refl eq_refl eq_refl).
Defined.

Section OneCall.

Local Arguments bind : simpl never.

(** A character of the table starts no other branch of [get_next_token]. *)
Lemma single_character_only (c : ascii) (token_type : TokenType) :
  Lexer.single_character Lexer.single_character_tokens c = Some token_type ->
  isspace c = false /\ (c =? "/")%char = false /\
  isdigit c || (c =? ".")%char = false /\
  (c =? Lexer.quote)%char = false /\
  isalpha c || (c =? "_")%char = false.
Proof.
  unfold Lexer.single_character_tokens. cbn [Lexer.single_character].
  repeat match goal with
         | |- context [if (c =? ?x)%char then _ else _] =>
           destruct (Ascii.eqb_spec c x) as [-> | _];
             [ intros _; repeat split; reflexivity | ]
         end.
  discriminate.
Qed.

(** X6: on each of the twelve characters of its table, [get_next_token]
    returns the token of that character, with the character as its value
    and the scanner's line and column as its position, and moves one
    character on. *)
Theorem single_character_token
  (l : Lexer.t) (c : ascii) (token_type : TokenType) :
  Lexer.current_char l = Some c ->
  Lexer.single_character Lexer.single_character_tokens c = Some token_type ->
  Lexer.get_next_token l
  = Ret (Token.make token_type (PyStr (String c "")) (Lexer.line l) (Lexer.column l))
        (Lexer.advance l).
Proof.
  intros Hc Hsingle.
  destruct (single_character_only c token_type Hsingle)
    as (Hspace & Hslash & Hnum & Hquote & Halpha).
  unfold Lexer.get_next_token, Lexer.budget. cbn [Lexer.get_next_token_loop].
  rewrite Hc, Hspace, Hslash, Hnum, Hquote, Halpha, Hsingle. reflexivity.
Qed.

(** An opening brace. *)
Lemma opening_brace_token :
  Lexer.get_next_token (Lexer.init "{}")
  = Ret (Token.make LBRACE (PyStr "{") 1 1) (Lexer.advance (Lexer.init "{}")).
Proof.
  exact (single_character_token (Lexer.init "{}") "{" LBRACE eq_refl eq_refl).
Defined.

(** X7: on a character that starts no token, [get_next_token] raises the
    invalid-character exception with the scanner's line and column and
    leaves the scanner exactly as it was, so the same call raises again. *)
Theorem invalid_character_raises (l : Lexer.t) (c : ascii) :
  Lexer.current_char l = Some c ->
  starts_token c = false ->
  Lexer.get_next_token l
  = Raise (InvalidCharacter c (Lexer.line l) (Lexer.column l)) l.
Proof.
  intros Hc Hstart. unfold starts_token in Hstart.
  apply orb_false_iff in Hstart. destruct Hstart as [Hstart Htable].
  apply orb_false_iff in Hstart. destruct Hstart as [Hstart Hunder].
  apply orb_false_iff in Hstart. destruct Hstart as [Hstart Halpha].
  apply orb_false_iff in Hstart. destruct Hstart as [Hstart Hquote].
  apply orb_false_iff in Hstart. destruct Hstart as [Hstart Hdot].
  apply orb_false_iff in Hstart. destruct Hstart as [Hstart Hdigit].
  apply orb_false_iff in Hstart. destruct Hstart as [Hspace Hslash].
  unfold Lexer.get_next_token, Lexer.budget. cbn [Lexer.get_next_token_loop].
  rewrite Hc, Hspace, Hslash, Hdigit, Hdot, Hquote, Halpha, Hunder.
  cbn [orb].
  destruct (Lexer.single_character Lexer.single_character_tokens c);
    [ discriminate | reflexivity ].
Qed.

(** A comparison sign: the scanner of [kex_main.py] has none. *)
Lemma less_than_is_invalid :
  Lexer.get_next_token (Lexer.init "<")
  = Raise (InvalidCharacter "<" 1 1) (Lexer.init "<").
Proof.
  exact (invalid_character_raises (Lexer.init "<") "<" eq_refl eq_refl).
Defined.

Lemma bind_Raise {S A B : Type} (m : M S A) (k : A -> M S B) (s s' : S) (e : exn) :
  bind m k s = Raise e s' ->
  m s = Raise e s' \/ exists a s1, m s = Ret a s1 /\ k a s1 = Raise e s'.
Proof.
  unfold bind. destruct (m s) as [a s1 | e1 s1 |]; try discriminate.
  - intros H. right. exists a, s1. split; [ reflexivity | exact H ].
  - intros H. left. inversion H. reflexivity.
Qed.

Lemma advance_while_raises_nothing (keep : ascii -> bool) (l l' : Lexer.t) (e : exn) :
  Lexer.advance_while keep l = Raise e l' -> False.
Proof.
  unfold Lexer.advance_while.
  destruct (Lexer.scan_while _ _ _ _) as [[r l1] |]; discriminate.
Qed.

Lemma skip_comment_raises_nothing (l l' : Lexer.t) (e : exn) :
  Lexer.skip_comment l = Raise e l' -> False.
Proof.
  unfold Lexer.skip_comment.
  destruct (Lexer.is_char "/" (Lexer.current_char l)); [ | discriminate ].
  destruct (Lexer.is_char "/" (Lexer.current_char (Lexer.advance l))).
  - intros H. apply bind_Raise in H.
    destruct H as [H | (a & s1 & _ & H)];
      [ exact (advance_while_raises_nothing _ _ _ _ H) | discriminate ].
  - destruct (Lexer.is_char "*" (Lexer.current_char (Lexer.advance l)));
      [ | discriminate ].
    destruct (Lexer.skip_block _ _); discriminate.
Qed.

(** The exceptions of one call are the scanner's own. *)
Lemma get_next_token_loop_raises (fuel : nat) :
  forall (l l' : Lexer.t) (e : exn),
    Lexer.get_next_token_loop fuel l = Raise e l' -> is_lexical e = true.
Proof.
  induction fuel as [| fuel IH]; intros l l' e H; [ discriminate | ].
  cbn [Lexer.get_next_token_loop] in H.
  destruct (Lexer.current_char l) as [c |]; [ | discriminate ].
  destruct (isspace c).
  { apply bind_Raise in H. destruct H as [H | (a & s1 & _ & H)].
    - exfalso. exact (advance_while_raises_nothing _ _ _ _ H).
    - exact (IH _ _ _ H). }
  destruct (c =? "/")%char.
  { apply bind_Raise in H. destruct H as [H | ([token |] & s1 & _ & H)].
    - exfalso. exact (skip_comment_raises_nothing _ _ _ H).
    - discriminate.
    - exact (IH _ _ _ H). }
  destruct (isdigit c || (c =? ".")%char).
  { unfold Lexer.number in H.
    destruct (Lexer.scan_while _ _ _ _) as [[r l1] |]; [ | discriminate ].
    destruct (contains_dot r); [ destruct (Py.float r) | destruct (Py.int r) ];
      inversion H; reflexivity. }
  destruct (c =? Lexer.quote)%char.
  { unfold Lexer.string_ in H.
    destruct (Lexer.scan_while _ _ _ _) as [[r l1] |]; [ | discriminate ].
    destruct (Lexer.current_char l1); inversion H; reflexivity. }
  destruct (isalpha c || (c =? "_")%char).
  { unfold Lexer.identifier in H.
    destruct (Lexer.scan_while _ _ _ _) as [[r l1] |]; [ | discriminate ].
    destruct (r =? "true")%string; [ discriminate | ].
    destruct (r =? "false")%string; discriminate. }
  destruct (Lexer.single_character _ _); inversion H; reflexivity.
Qed.

(** X8: one call of [get_next_token] on a scanner whose cached character
    is the one under its cursor always ends: it returns a token or raises
    one of the three scanning exceptions. When it returns, the text is the
    same and the cached character is again the one under the cursor; [EOF]
    is returned only at the end of the text, where the scanner stays; any
    other token has cost at least one character of the text. *)
Theorem get_next_token_ends (l : Lexer.t) :
  in_step l ->
  match Lexer.get_next_token l with
  | Ret token l' =>
    Lexer.text l' = Lexer.text l /\ in_step l' /\
    (token = Token.make EOF PyNone (Lexer.line l') (Lexer.column l') /\
     Lexer.current_char l' = None /\ Lexer.pos l <= Lexer.pos l'
     \/
     Token.type token <> EOF /\
     Lexer.pos l < Lexer.pos l' /\ Lexer.pos l < String.length (Lexer.text l))
  | Raise e _ => is_lexical e = true
  | OutOfFuel => False
  end.
Proof.
  intros Hstep.
  pose proof (get_next_token_scanned l Hstep) as Hscan.
  pose proof (get_next_token_loop_raises (Lexer.budget l) l) as Hraise.
  unfold Lexer.get_next_token in *.
  destruct (Lexer.get_next_token_loop (Lexer.budget l) l) as [token l' | e l' |];
    simpl in Hscan.
  - destruct Hscan as [(Htext & Hstep' & Hpos) H].
    split; [ exact Htext | split; [ exact Hstep' | ] ].
    destruct H as [[Heof Hend] | [Htype Hless]].
    + left. repeat split; assumption.
    + right. unfold remaining in Hless. rewrite Htext in Hless.
      repeat split; [ exact Htype | lia | lia ].
  - exact (Hraise l' e eq_refl).
  - exact Hscan.
Qed.

(** The first call on the text [ab + 1]. *)
Lemma first_token_of_a_sum :
  match Lexer.get_next_token (Lexer.init "ab + 1") with
  | Ret token l' =>
    Lexer.text l' = "ab + 1" /\ in_step l' /\
    (token = Token.make EOF PyNone (Lexer.line l') (Lexer.column l') /\
     Lexer.current_char l' = None /\ 0 <= Lexer.pos l'
     \/
     Token.type token <> EOF /\ 0 < Lexer.pos l' /\ 0 < 6)
  | Raise e _ => is_lexical e = true
  | OutOfFuel => False
  end.
Proof.
  exact (get_next_token_ends (Lexer.init "ab + 1") eq_refl).
Defined.

End OneCall.

(** * Further properties of the parser *)

Section ListLoop.

Local Arguments bind : simpl never.
Local Arguments ret : simpl never.
Local Arguments Parser.eat : simpl never.

(** What a call answers under some fuel, it answers under any fuel that is
    enough for it. *)
Lemma settled {S A : Type} (m : nat -> M S A) (n : nat) (s : S) :
  (forall a b, a <= b -> extends (m a) (m b)) ->
  m n s <> OutOfFuel ->
  forall fuel, m fuel s = OutOfFuel \/ m fuel s = m n s.
Proof.
  intros Hmono Hn fuel.
  destruct (Nat.le_ge_cases fuel n) as [Hle | Hle].
  - destruct (m fuel s) eqn:E; [ right | right | left; reflexivity ];
      rewrite <- E; symmetry; apply (Hmono fuel n Hle); congruence.
  - right. apply (Hmono n fuel Hle). exact Hn.
Qed.

Lemma expr_more_fuel (a b : nat) :
  a <= b -> extends (Parser.expr a) (Parser.expr b).
Proof.
  intros H. destruct (parser_more_fuel a) as (_ & _ & _ & _ & _ & He & _).
  apply He. exact H.
Qed.

Lemma expr_returns_None (fuel : nat) (p : Parser.t) :
  starts_factor (Token.type (Parser.current_token p)) = false ->
  is_operator (Token.type (Parser.current_token p)) = false ->
  Parser.expr (S (S (S fuel))) p = Ret None_node p.
Proof.
  intros H Hop.
  change (Parser.expr (S (S (S fuel))))
    with (bind (Parser.term (S (S fuel))) (Parser.expr_loop (S (S fuel)))).
  change (Parser.term (S (S fuel)))
    with (bind (Parser.factor (S fuel)) (Parser.term_loop (S fuel))).
  unfold bind.
  rewrite (factor_falls_through fuel p H).
  rewrite (term_loop_stops fuel None_node p Hop).
  apply (expr_loop_stops (S fuel) None_node p Hop).
Qed.

Lemma list_loop_without_element (fuel : nat) :
  forall (elements : list AST) (p : Parser.t),
    starts_factor (Token.type (Parser.current_token p)) = false ->
    is_operator (Token.type (Parser.current_token p)) = false ->
    Parser.at_token RBRACKET p = false ->
    Parser.at_token COMMA p = false ->
    Parser.factor_list fuel elements p = OutOfFuel.
Proof.
  induction fuel as [| fuel IH]; intros elements p Hstart Hop Hclose Hcomma;
    [ reflexivity | ].
  cbn [Parser.factor_list]. rewrite Hclose. unfold bind.
  destruct (settled Parser.expr 3 p expr_more_fuel) with (fuel := fuel)
    as [E | E].
  - rewrite (expr_returns_None 0 p Hstart Hop). discriminate.
  - rewrite E. reflexivity.
  - rewrite E, (expr_returns_None 0 p Hstart Hop).
    unfold Parser.eat_comma. rewrite Hcomma.
    apply IH; assumption.
Qed.

(** The parser on the line [[1], after its first token, after the bracket
    and after the 1. *)
Let p0 : Parser.t :=
  Parser.make (Lexer.advance (Lexer.init "[1")) (operator_token LBRACKET "[" 1).
Let p1 : Parser.t :=
  Parser.make (advances 2 (Lexer.init "[1")) (integer_token 1 1).
Let p2 : Parser.t :=
  Parser.make (advances 2 (Lexer.init "[1")) (Token.make EOF PyNone 1 3).

Lemma unclosed_list_loops_at_1 (fuel : nat) :
  Parser.factor_list fuel [] p1 = OutOfFuel.
Proof.
  destruct fuel as [| fuel]; [ reflexivity | ].
  cbn [Parser.factor_list].
  change (Parser.at_token RBRACKET p1) with false. cbv iota. unfold bind.
  destruct (settled Parser.expr 3 p1 expr_more_fuel) with (fuel := fuel)
    as [E | E].
  - discriminate.
  - rewrite E. reflexivity.
  - rewrite E.
    change (Parser.expr 3 p1) with (@Ret Parser.t AST (Num (integer_token 1 1)) p2).
    cbv iota beta.
    change (Parser.eat_comma p2) with (@Ret Parser.t unit tt p2).
    cbv iota beta.
    apply list_loop_without_element; reflexivity.
Qed.

Lemma unclosed_list_loops_in_factor (fuel : nat) :
  Parser.factor fuel p0 = OutOfFuel.
Proof.
  destruct fuel as [| fuel]; [ reflexivity | ].
  cbn [Parser.factor].
  change (Token.type (Parser.current_token p0)) with LBRACKET. cbv iota.
  unfold bind at 1.
  change (Parser.eat LBRACKET p0) with (@Ret Parser.t unit tt p1).
  cbv iota beta. unfold bind at 1.
  rewrite unclosed_list_loops_at_1. reflexivity.
Qed.

Lemma unclosed_list_loops_in_parse (fuel : nat) :
  Parser.parse fuel p0 = OutOfFuel.
Proof.
  unfold Parser.parse, Parser.assignment. unfold bind at 1.
  destruct fuel as [| fuel]; [ reflexivity | ].
  cbn [Parser.expr]. unfold bind at 1.
  destruct fuel as [| fuel]; [ reflexivity | ].
  cbn [Parser.term]. unfold bind at 1.
  rewrite unclosed_list_loops_in_factor. reflexivity.
Qed.

(** X9: the loop of a list literal never ends when no element is there to
    parse and no bracket closes the list: on a token that starts no
    factor and is no operator, no comma and no closing bracket (the end of
    the text, a closing parenthesis or brace, a colon, an equals sign),
    [expr] returns [None] without consuming it, and the loop goes round
    again on the same token, whatever the fuel. The line [[1] is such a
    case: it never returns, and raises nothing. *)
Theorem unclosed_list_never_returns
  (fuel : nat) (elements : list AST) (p : Parser.t) :
  starts_factor (Token.type (Parser.current_token p)) = false ->
  is_operator (Token.type (Parser.current_token p)) = false ->
  Parser.at_token RBRACKET p = false ->
  Parser.at_token COMMA p = false ->
  Parser.factor_list fuel elements p = OutOfFuel /\
  forall fuel', Main.run fuel' "[1" = OutOfFuel.
Proof.
  intros Hstart Hop Hclose Hcomma.
  split; [ apply list_loop_without_element; assumption | ].
  intros fuel'. unfold Main.run, Main.evaluate_line. unfold bind at 1.
  change (Main.start_line "[1" Main.fresh)
    with (@Ret Interpreter.t unit tt (Interpreter.make p0 SymbolTable.init)).
  cbv iota beta.
  unfold Interpreter.interpret. unfold bind at 1.
  unfold Interpreter.on_parser. cbn [Interpreter.parser].
  rewrite unclosed_list_loops_in_parse. reflexivity.
Qed.

(** The loop at the end of a text. *)
Lemma list_loop_at_end_of_text :
  Parser.factor_list 1000 [] (parser_at "" (Token.make EOF PyNone 1 1))
  = OutOfFuel.
Proof.
  exact (proj1 (unclosed_list_never_returns 1000 []
                  (parser_at "" (Token.make EOF PyNone 1 1))
                  eq_refl eq_refl eq_refl eq_refl)).
Defined.

End ListLoop.

Section ParseErrors.

Local Arguments bind : simpl never.
Local Arguments ret : simpl never.
Local Arguments raise : simpl never.
Local Arguments Parser.eat : simpl never.
Local Arguments Parser.eat_comma : simpl never.
Local Arguments attr_value : simpl never.

Lemma get_next_token_raises (l l' : Lexer.t) (e : exn) :
  Lexer.get_next_token l = Raise e l' -> is_lexical e = true.
Proof. apply get_next_token_loop_raises. Qed.

Lemma eat_raises (token_type : TokenType) (p p' : Parser.t) (e : exn) :
  Parser.eat token_type p = Raise e p' -> is_parse_error e = true.
Proof.
  unfold Parser.eat.
  destruct (TokenType_eqb _ _).
  - destruct (Lexer.get_next_token (Parser.lexer p)) as [t l1 | e1 l1 |] eqn:E;
      intros H; inversion H; subst.
    apply get_next_token_raises in E.
    destruct e; try discriminate; reflexivity.
  - intros H. inversion H. reflexivity.
Qed.

Lemma eat_comma_raises (p p' : Parser.t) (e : exn) :
  Parser.eat_comma p = Raise e p' -> is_parse_error e = true.
Proof.
  unfold Parser.eat_comma. destruct (Parser.at_token COMMA p).
  - apply eat_raises.
  - discriminate.
Qed.

Lemma attr_value_raises (node : AST) (p p' : Parser.t) (e : exn) :
  attr_value node p = Raise e p' -> is_parse_error e = true.
Proof.
  unfold attr_value, ret, raise.
  destruct node; intros H; inversion H; reflexivity.
Qed.

Ltac raised :=
  repeat match goal with
         | H : bind _ _ _ = Raise _ _ |- _ =>
           apply bind_Raise in H; destruct H as [H | (? & ? & _ & H)]
         | H : ret _ _ = Raise _ _ |- _ => discriminate H
         | H : Ret _ _ = Raise _ _ |- _ => discriminate H
         | H : Parser.eat _ _ = Raise _ _ |- _ => exact (eat_raises _ _ _ _ H)
         | H : Parser.eat_comma _ = Raise _ _ |- _ =>
           exact (eat_comma_raises _ _ _ H)
         | H : attr_value _ _ = Raise _ _ |- _ =>
           exact (attr_value_raises _ _ _ _ H)
         end.

Lemma parser_raises (n : nat) :
  (forall p e p', Parser.factor n p = Raise e p' -> is_parse_error e = true) /\
  (forall elements p e p',
     Parser.factor_list n elements p = Raise e p' -> is_parse_error e = true) /\
  (forall pairs p e p',
     Parser.factor_dict n pairs p = Raise e p' -> is_parse_error e = true) /\
  (forall p e p', Parser.term n p = Raise e p' -> is_parse_error e = true) /\
  (forall node p e p',
     Parser.term_loop n node p = Raise e p' -> is_parse_error e = true) /\
  (forall p e p', Parser.expr n p = Raise e p' -> is_parse_error e = true) /\
  (forall node p e p',
     Parser.expr_loop n node p = Raise e p' -> is_parse_error e = true).
Proof.
  induction n as [| n (Hf & Hfl & Hfd & Ht & Htl & He & Hel)].
  - repeat split; intros; simpl in *; discriminate.
  - split; [ | split; [ | split; [ | split; [ | split; [ | split ] ] ] ] ].
    + intros p e p' H. simpl in H.
      destruct (Token.type (Parser.current_token p)); raised;
        first [ eapply He; eassumption | eapply Hfl; eassumption
              | eapply Hfd; eassumption ].
    + intros elements p e p' H. simpl in H.
      destruct (Parser.at_token RBRACKET p); raised;
        first [ eapply He; eassumption | eapply Hfl; eassumption ].
    + intros pairs p e p' H. simpl in H.
      destruct (Parser.at_token RBRACE p); raised;
        first [ eapply He; eassumption | eapply Hfd; eassumption ].
    + intros p e p' H. simpl in H. raised;
        first [ eapply Hf; eassumption | eapply Htl; eassumption ].
    + intros node p e p' H. simpl in H.
      destruct (Token.type (Parser.current_token p)); raised;
        first [ eapply Hf; eassumption | eapply Htl; eassumption ].
    + intros p e p' H. simpl in H. raised;
        first [ eapply Ht; eassumption | eapply Hel; eassumption ].
    + intros node p e p' H. simpl in H.
      destruct (Token.type (Parser.current_token p)); raised;
        first [ eapply Ht; eassumption | eapply Hel; eassumption ].
Qed.

(** X10: whatever [parse] raises is an exception of the scanner (invalid
    character, unterminated string, malformed numeral), the syntax
    exception of [eat] on a token that is not the expected one, or the
    missing [value] attribute of a dict key that is no literal and no name.
    It never raises an exception of the evaluator. *)
Theorem parse_raises_only_parse_errors
  (fuel : nat) (p p' : Parser.t) (e : exn) :
  Parser.parse fuel p = Raise e p' ->
  is_parse_error e = true /\ is_evaluation_error e = false.
Proof.
  intros H.
  assert (Hparse : is_parse_error e = true).
  { destruct (parser_raises fuel) as (_ & _ & _ & _ & _ & He & _).
    unfold Parser.parse, Parser.assignment in H. raised.
    - eapply He; eassumption.
    - destruct (is_Var x && Parser.at_token ASSIGN x0); raised.
      eapply He; eassumption. }
  split; [ exact Hparse | ].
  destruct e; try reflexivity; discriminate.
Qed.

(** An unclosed parenthesis. *)
Lemma unclosed_parenthesis_is_a_syntax_error :
  is_parse_error InvalidSyntax = true /\ is_evaluation_error InvalidSyntax = false.
Proof.
  exact (parse_raises_only_parse_errors 8
           (Parser.make (Lexer.advance (Lexer.init "(1"))
                        (operator_token LPAREN "(" 1))
           (Parser.make (advances 2 (Lexer.init "(1"))
                        (Token.make EOF PyNone 1 3))
           InvalidSyntax eq_refl).
Defined.

End ParseErrors.

(** * Further properties of the evaluator *)

Section EvaluationErrors.

Local Arguments bind : simpl never.

Lemma returning_raises (r : exn + number) (s s' : SymbolTable.t) (e : exn) :
  (forall e', r = inl e' -> is_evaluation_error e' = true) ->
  @Interpreter.returning SymbolTable.t r s = Raise e s' ->
  is_evaluation_error e = true.
Proof.
  intros Hr. destruct r as [e1 | x]; simpl; intros H; inversion H; subst.
  apply Hr. reflexivity.
Qed.

Lemma float_op_raises (fop : spec_float -> spec_float -> spec_float)
  (x y : number) (e : exn) :
  float_op fop x y = inl e -> is_evaluation_error e = true.
Proof.
  unfold float_op. destruct (to_float x); [ destruct (to_float y) | ];
    intros H; inversion H; reflexivity.
Qed.

Lemma visit_BinOp_values_raises (op : Token.t) (lv rv : value)
  (s s' : SymbolTable.t) (e : exn) :
  Interpreter.visit_BinOp_values op lv rv s = Raise e s' ->
  is_evaluation_error e = true.
Proof.
  unfold Interpreter.visit_BinOp_values.
  destruct (as_number lv) as [x |]; [ destruct (as_number rv) as [y |] | ].
  - destruct (Token.type op); try discriminate.
    + apply returning_raises. intros e'.
      destruct x, y; simpl; try discriminate; apply float_op_raises.
    + apply returning_raises. intros e'.
      destruct x, y; simpl; try discriminate; apply float_op_raises.
    + apply returning_raises. intros e'.
      destruct x, y; simpl; try discriminate; apply float_op_raises.
    + destruct (number_eqb y (NInt 0)).
      * intros H. inversion H. reflexivity.
      * apply returning_raises. intros e'. unfold truediv.
        repeat match goal with
               | |- context [match ?v with _ => _ end] => destruct v
               end;
          intros H; inversion H; reflexivity.
  - repeat match goal with
           | |- context [match ?v with _ => _ end] => destruct v
           end;
      intros H; inversion H; reflexivity.
  - repeat match goal with
           | |- context [match ?v with _ => _ end] => destruct v
           end;
      intros H; inversion H; reflexivity.
Qed.

(** The visit of a tree without [Assign] raises evaluation exceptions
    only. *)
Lemma visit_raises (node : AST) :
  assign_free node = true ->
  forall s s' e,
    Interpreter.visit node s = Raise e s' -> is_evaluation_error e = true.
Proof.
  induction node using AST_induction; intros Hfree s s' e Hraise;
    cbn [Interpreter.visit] in Hraise; cbn [assign_free] in Hfree.
  - apply andb_true_iff in Hfree. destruct Hfree as [Hl Hr].
    apply bind_Raise in Hraise.
    destruct Hraise as [H | (lv & s1 & _ & H)]; [ eapply IHnode1; eassumption | ].
    apply bind_Raise in H.
    destruct H as [H | (rv & s2 & _ & H)]; [ eapply IHnode2; eassumption | ].
    exact (visit_BinOp_values_raises _ _ _ _ _ _ H).
  - discriminate.
  - destruct (Interpreter.is_None _); inversion Hraise. reflexivity.
  - discriminate.
  - apply bind_Raise in Hraise.
    destruct Hraise as [Hraise | (vs & s1 & _ & Hraise)]; [ | discriminate ].
    revert s Hraise.
    induction H as [| x l Hx Hl IH]; intros s Hraise;
      cbn [Interpreter.visit_elements] in Hraise; [ discriminate | ].
    simpl in Hfree. apply andb_true_iff in Hfree. destruct Hfree as [H1 H2].
    apply bind_Raise in Hraise.
    destruct Hraise as [Hraise | (v & s1 & _ & Hraise)];
      [ eapply Hx; eassumption | ].
    apply bind_Raise in Hraise.
    destruct Hraise as [Hraise | (vs & s2 & _ & Hraise)];
      [ eapply IH; eassumption | discriminate ].
  - apply bind_Raise in Hraise.
    destruct Hraise as [Hraise | (d & s1 & _ & Hraise)]; [ | discriminate ].
    revert s Hraise. generalize (@nil (atom * value)) as result.
    induction H as [| [k x] l Hx Hl IH]; intros result s Hraise;
      cbn [Interpreter.visit_items] in Hraise; [ discriminate | ].
    simpl in Hfree. apply andb_true_iff in Hfree. destruct Hfree as [H1 H2].
    apply bind_Raise in Hraise.
    destruct Hraise as [Hraise | (v & s1 & _ & Hraise)];
      [ eapply Hx; eassumption | eapply IH; eassumption ].
  - inversion Hraise. reflexivity.
Qed.

(** X11: when the visit of a tree that [parse] returned raises, the
    exception is one of the evaluator's: an unbound name, operand types
    the operator does not take, a division by zero, an int beyond the
    float range, or the missing visit method of a [None] the parser left
    in the tree. It is never a scanning or a syntax exception, and never
    a missing attribute. *)
Theorem parsed_tree_raises_only_evaluation_errors
  (fuel : nat) (p p' : Parser.t) (tree : AST)
  (s s' : SymbolTable.t) (e : exn) :
  Parser.parse fuel p = Ret tree p' ->
  Interpreter.visit tree s = Raise e s' ->
  is_evaluation_error e = true /\ is_parse_error e = false.
Proof.
  intros Hparse Hraise.
  assert (H : is_evaluation_error e = true).
  { apply parse_returns_statement in Hparse.
    destruct Hparse as [Hfree | (token & op & right & -> & Hfree)].
    - exact (visit_raises tree Hfree s s' e Hraise).
    - cbn [Interpreter.visit attr_value] in Hraise.
      apply bind_Raise in Hraise.
      destruct Hraise as [Hraise | (name & s1 & Hname & Hraise)];
        [ discriminate | ].
      inversion Hname. subst.
      apply bind_Raise in Hraise.
      destruct Hraise as [Hraise | (v & s2 & _ & Hraise)]; [ | discriminate ].
      exact (visit_raises right Hfree _ _ _ Hraise). }
  split; [ exact H | ].
  destruct e; try discriminate; reflexivity.
Qed.

(** The tree of the line [y] on a table without [y]. *)
Lemma unbound_name_is_an_evaluation_error :
  is_evaluation_error (NameError (PyStr "y")) = true /\
  is_parse_error (NameError (PyStr "y")) = false.
Proof.
  exact (parsed_tree_raises_only_evaluation_errors 4
           (Parser.make (Lexer.advance (Lexer.init "y"))
                        (Token.make IDENTIFIER (PyStr "y") 1 0))
           (Parser.make (Lexer.advance (Lexer.init "y"))
                        (Token.make EOF PyNone 1 2))
           (Var (Token.make IDENTIFIER (PyStr "y") 1 0))
           [] [] (NameError (PyStr "y")) eq_refl eq_refl).
Defined.

End EvaluationErrors.

(** * Further properties of dicts and the symbol table *)

Section DictKeys.

Context {V : Type}.

Lemma dict_set_keeps_keys (P : atom -> bool) (d : dict V) (k : atom) (v : V) :
  forallb (fun kv => P (fst kv)) d = true ->
  P k = true ->
  forallb (fun kv => P (fst kv)) (dict_set d k v) = true.
Proof.
  induction d as [| [k' v'] d IH]; simpl; intros Hd Hk.
  - rewrite Hk. reflexivity.
  - apply andb_true_iff in Hd. destruct Hd as [Hk' Hd].
    destruct (eqb k' k); simpl; rewrite Hk'.
    + exact Hd.
    + apply IH; assumption.
Qed.

(** [d[k] = v] keeps the keys of [d] distinct. *)
Lemma dict_set_distinct (d : dict V) (k : atom) (v : V) :
  distinct_keys d = true -> distinct_keys (dict_set d k v) = true.
Proof.
  induction d as [| [k' v'] d IH]; simpl; intros Hd; [ reflexivity | ].
  apply andb_true_iff in Hd. destruct Hd as [Hk' Hd].
  destruct (eqb k' k) eqn:E; simpl.
  - rewrite Hk', Hd. reflexivity.
  - rewrite IH by exact Hd. rewrite andb_true_r.
    apply (dict_set_keeps_keys (fun key => negb (eqb k' key))).
    + exact Hk'.
    + rewrite E. reflexivity.
Qed.

Lemma dict_set_keeps_values (P : V -> bool) (d : dict V) (k : atom) (v : V) :
  forallb (fun kv => P (snd kv)) d = true ->
  P v = true ->
  forallb (fun kv => P (snd kv)) (dict_set d k v) = true.
Proof.
  induction d as [| [k' v'] d IH]; simpl; intros Hd Hv.
  - rewrite Hv. reflexivity.
  - apply andb_true_iff in Hd. destruct Hd as [Hv' Hd].
    destruct (eqb k' k); simpl.
    + rewrite Hv, Hd. reflexivity.
    + rewrite Hv', IH by assumption. reflexivity.
Qed.

(** A string equals itself and nothing but itself. *)
Lemma eqb_name (k : atom) (name : string) :
  eqb k (PyStr name) = true <-> k = PyStr name.
Proof.
  destruct k; simpl; split; intros H; try discriminate.
  - apply String.eqb_eq in H. rewrite H. reflexivity.
  - inversion H. apply String.eqb_refl.
Qed.

Lemma eqb_names (a b : string) : eqb (PyStr a) (PyStr b) = String.eqb a b.
Proof. reflexivity. Qed.

Lemma dict_get_set_same (d : dict V) (name : string) (v : V) :
  dict_get (dict_set d (PyStr name) v) (PyStr name) = Some v.
Proof.
  induction d as [| [k' v'] d IH]; cbn [dict_get dict_set].
  - rewrite eqb_names, String.eqb_refl. reflexivity.
  - destruct (eqb k' (PyStr name)) eqn:E; cbn [dict_get]; rewrite E;
      [ reflexivity | exact IH ].
Qed.

Lemma dict_get_set_other (d : dict V) (name other : string) (v : V) :
  other <> name ->
  dict_get (dict_set d (PyStr name) v) (PyStr other) = dict_get d (PyStr other).
Proof.
  intros Hother.
  assert (Hne : String.eqb name other = false).
  { apply String.eqb_neq. intros H. apply Hother. symmetry. exact H. }
  induction d as [| [k' v'] d IH]; cbn [dict_get dict_set].
  - rewrite eqb_names, Hne. reflexivity.
  - destruct (eqb k' (PyStr name)) eqn:E; cbn [dict_get].
    + apply eqb_name in E. subst k'. rewrite eqb_names, Hne. reflexivity.
    + destruct (eqb k' (PyStr other)); [ reflexivity | exact IH ].
Qed.

Lemma dict_set_twice (d : dict V) (name : string) (v w : V) :
  dict_set (dict_set d (PyStr name) v) (PyStr name) w = dict_set d (PyStr name) w.
Proof.
  induction d as [| [k' v'] d IH]; cbn [dict_set].
  - rewrite eqb_names, String.eqb_refl. reflexivity.
  - destruct (eqb k' (PyStr name)) eqn:E; cbn [dict_set]; rewrite E;
      [ reflexivity | rewrite IH; reflexivity ].
Qed.

Lemma dict_get_absent (d : dict V) (k : atom) :
  key_absent d k = true -> dict_get d k = None.
Proof.
  unfold key_absent.
  induction d as [| [k' v'] d IH]; simpl; intros H; [ reflexivity | ].
  apply andb_true_iff in H. destruct H as [Hk Hd].
  destruct (eqb k' k); [ discriminate | exact (IH Hd) ].
Qed.

Lemma dict_set_length (d : dict V) (k : atom) (v : V) :
  List.length (dict_set d k v)
  = if key_absent d k then S (List.length d) else List.length d.
Proof.
  unfold key_absent.
  induction d as [| [k' v'] d IH]; simpl; [ reflexivity | ].
  destruct (eqb k' k); simpl; [ reflexivity | ].
  rewrite IH. destruct (forallb _ d); reflexivity.
Qed.

End DictKeys.

(** X13: the symbol table under string names. A name that was set reads
    back as the value set, whatever the table held; setting a name leaves
    every other name as it was; a second [set] of the name replaces the
    first and leaves one entry; the table grows by one entry exactly when
    the name was not there; and [get] of a name that is not in the table
    is [None], not an exception. *)
Theorem symbol_table_set_then_get
  (symbols : SymbolTable.t) (name other : string) (v w : value) :
  SymbolTable.get (SymbolTable.set symbols (PyStr name) v) (PyStr name) = v /\
  (other <> name ->
   SymbolTable.get (SymbolTable.set symbols (PyStr name) v) (PyStr other)
   = SymbolTable.get symbols (PyStr other)) /\
  SymbolTable.set (SymbolTable.set symbols (PyStr name) v) (PyStr name) w
  = SymbolTable.set symbols (PyStr name) w /\
  List.length (SymbolTable.set symbols (PyStr name) v)
  = (if key_absent symbols (PyStr name)
     then S (List.length symbols) else List.length symbols) /\
  (key_absent symbols (PyStr name) = true ->
   SymbolTable.get symbols (PyStr name) = Atom PyNone) /\
  SymbolTable.get SymbolTable.init (PyStr name) = Atom PyNone.
Proof.
  unfold SymbolTable.get, SymbolTable.set.
  split; [ | split; [ | split; [ | split; [ | split ] ] ] ].
  - rewrite dict_get_set_same. reflexivity.
  - intros Hother. rewrite dict_get_set_other by exact Hother. reflexivity.
  - apply dict_set_twice.
  - apply dict_set_length.
  - intros Habsent. rewrite dict_get_absent by exact Habsent. reflexivity.
  - reflexivity.
Qed.

(** * Further properties of parsed trees *)

Section ParsedDicts.

Local Arguments bind : simpl never.
Local Arguments ret : simpl never.
Local Arguments Parser.eat : simpl never.
Local Arguments Parser.eat_comma : simpl never.

Ltac returned :=
  repeat match goal with
         | H : bind _ _ _ = Ret _ _ |- _ =>
           apply bind_Ret in H; destruct H as (? & ? & ? & H)
         | H : ret _ _ = Ret _ _ |- _ => unfold ret in H
         | H : Ret _ _ = Ret _ _ |- _ => inversion H; subst; clear H
         end.

Lemma forallb_snoc {A : Type} (P : A -> bool) (l : list A) (x : A) :
  forallb P l = true -> P x = true -> forallb P (l ++ [x])%list = true.
Proof.
  intros Hl Hx. rewrite forallb_app, Hl. simpl. rewrite Hx. reflexivity.
Qed.

(** The dicts the expression methods build have distinct keys. *)
Lemma parser_builds_distinct_dicts (n : nat) :
  (forall p node p',
     Parser.factor n p = Ret node p' -> dicts_distinct node = true) /\
  (forall elements p elements' p',
     Parser.factor_list n elements p = Ret elements' p' ->
     forallb dicts_distinct elements = true ->
     forallb dicts_distinct elements' = true) /\
  (forall pairs p pairs' p',
     Parser.factor_dict n pairs p = Ret pairs' p' ->
     dicts_distinct (DictExpr pairs) = true ->
     dicts_distinct (DictExpr pairs') = true) /\
  (forall p node p',
     Parser.term n p = Ret node p' -> dicts_distinct node = true) /\
  (forall node0 p node p',
     Parser.term_loop n node0 p = Ret node p' ->
     dicts_distinct node0 = true -> dicts_distinct node = true) /\
  (forall p node p',
     Parser.expr n p = Ret node p' -> dicts_distinct node = true) /\
  (forall node0 p node p',
     Parser.expr_loop n node0 p = Ret node p' ->
     dicts_distinct node0 = true -> dicts_distinct node = true).
Proof.
  induction n as [| n (Hf & Hfl & Hfd & Ht & Htl & He & Hel)].
  - repeat split; intros; simpl in *; discriminate.
  - split; [ | split; [ | split; [ | split; [ | split; [ | split ] ] ] ] ].
    + intros p node p' H. simpl in H.
      destruct (Token.type (Parser.current_token p)); returned;
        try reflexivity.
      * eapply He; eassumption.
      * cbn [dicts_distinct]. eapply Hfl; [ eassumption | reflexivity ].
      * eapply Hfd; [ eassumption | reflexivity ].
    + intros elements p elements' p' H Hels. simpl in H.
      destruct (Parser.at_token RBRACKET p); returned; [ exact Hels | ].
      eapply Hfl; [ eassumption | ].
      apply forallb_snoc; [ exact Hels | eapply He; eassumption ].
    + intros pairs p pairs' p' H Hpairs. simpl in H.
      destruct (Parser.at_token RBRACE p); returned; [ exact Hpairs | ].
      eapply Hfd; [ eassumption | ].
      cbn [dicts_distinct] in *.
      apply andb_true_iff in Hpairs. destruct Hpairs as [Hkeys Hvalues].
      rewrite dict_set_distinct by exact Hkeys.
      apply (dict_set_keeps_values dicts_distinct); [ exact Hvalues | ].
      eapply He; eassumption.
    + intros p node p' H. simpl in H. returned.
      eapply Htl; [ eassumption | ]. eapply Hf; eassumption.
    + intros node0 p node p' H Hnode. simpl in H.
      destruct (Token.type (Parser.current_token p)); returned;
        try exact Hnode;
        (eapply Htl; [ eassumption | ]); cbn [dicts_distinct];
        rewrite Hnode; erewrite Hf by eassumption; reflexivity.
    + intros p node p' H. simpl in H. returned.
      eapply Hel; [ eassumption | ]. eapply Ht; eassumption.
    + intros node0 p node p' H Hnode. simpl in H.
      destruct (Token.type (Parser.current_token p)); returned;
        try exact Hnode;
        (eapply Hel; [ eassumption | ]); cbn [dicts_distinct];
        rewrite Hnode; erewrite Ht by eassumption; reflexivity.
Qed.

(** X12: in every tree [parse] returns, the keys of each dict literal are
    pairwise different under Python's [==], at every depth: duplicates are
    gone before the evaluator sees the tree. So when the tree is a dict
    literal and its evaluation returns, the dict it returns has exactly
    the keys of the tree, in the order of the tree. *)
Theorem parsed_dicts_have_distinct_keys
  (fuel : nat) (p p' : Parser.t) (tree : AST) :
  Parser.parse fuel p = Ret tree p' ->
  dicts_distinct tree = true /\
  forall (pairs : dict AST) (s s' : SymbolTable.t) (v : value),
    tree = DictExpr pairs ->
    Interpreter.visit tree s = Ret v s' ->
    exists d, v = PyDict d /\ map fst d = map fst pairs.
Proof.
  intros Hparse.
  assert (Hdistinct : dicts_distinct tree = true).
  { destruct (parser_builds_distinct_dicts fuel) as (_ & _ & _ & _ & _ & He & _).
    unfold Parser.parse, Parser.assignment in Hparse. returned.
    destruct (is_Var x && Parser.at_token ASSIGN x0).
    - returned. cbn [dicts_distinct].
      erewrite (He _ _ _ H), (He _ _ _ H1). reflexivity.
    - returned. eapply He; eassumption. }
  split; [ exact Hdistinct | ].
  intros pairs s s' v -> Hvisit.
  cbn [dicts_distinct] in Hdistinct.
  apply andb_true_iff in Hdistinct. destruct Hdistinct as [Hkeys _].
  cbn [Interpreter.visit] in Hvisit. returned.
  exists x. split; [ reflexivity | ].
  apply (visit_items_keys pairs [] x s s' Hkeys) in H.
  - exact H.
  - intros k _. reflexivity.
Qed.

End ParsedDicts.

(** The parse of [{"a": 1, "a": 2}]. *)
Lemma parsed_duplicate_key_is_distinct :
  dicts_distinct (DictExpr [(PyStr "a", Num (integer_token 2 14))]) = true.
Proof.
  exact (proj1 (parsed_dicts_have_distinct_keys 8
                  (Parser.make (Lexer.advance (Lexer.init dict_with_a_twice))
                               (operator_token LBRACE "{" 1))
                  (Parser.make (advances 16 (Lexer.init dict_with_a_twice))
                               (Token.make EOF PyNone 1 17))
                  (DictExpr [(PyStr "a", Num (integer_token 2 14))])
                  eq_refl)).
Defined.

(** * Further properties of tokens and values *)

Section TokenValues.

Local Arguments bind : simpl never.
Local Arguments ret : simpl never.
Local Arguments Parser.eat : simpl never.
Local Arguments Parser.eat_comma : simpl never.

Ltac returned :=
  repeat match goal with
         | H : bind _ _ _ = Ret _ _ |- _ =>
           apply bind_Ret in H; destruct H as (? & ? & ? & H)
         | H : ret _ _ = Ret _ _ |- _ => unfold ret in H
         | H : Ret _ _ = Ret _ _ |- _ => inversion H; subst; clear H
         end.

Lemma skip_comment_well_typed (l l' : Lexer.t) (token : Token.t) :
  Lexer.skip_comment l = Ret (Some token) l' -> well_typed token = true.
Proof.
  unfold Lexer.skip_comment.
  destruct (Lexer.is_char "/" (Lexer.current_char l)); [ | discriminate ].
  destruct (Lexer.is_char "/" (Lexer.current_char (Lexer.advance l))).
  - intros H. returned.
  - destruct (Lexer.is_char "*" (Lexer.current_char (Lexer.advance l))).
    + destruct (Lexer.skip_block _ _); discriminate.
    + intros H. inversion H. reflexivity.
Qed.

Lemma single_character_well_typed
  (token_type : TokenType) (c : ascii) (line column : Z) :
  Lexer.single_character Lexer.single_character_tokens c = Some token_type ->
  well_typed (Token.make token_type (PyStr (String c "")) line column) = true.
Proof.
  unfold Lexer.single_character_tokens. cbn [Lexer.single_character].
  repeat match goal with
         | |- context [if (c =? ?x)%char then _ else _] =>
           destruct (c =? x)%char;
             [ intros H; inversion H; reflexivity | ]
         end.
  discriminate.
Qed.

Lemma get_next_token_loop_well_typed (fuel : nat) :
  forall (l l' : Lexer.t) (token : Token.t),
    Lexer.get_next_token_loop fuel l = Ret token l' -> well_typed token = true.
Proof.
  induction fuel as [| fuel IH]; intros l l' token H; [ discriminate | ].
  cbn [Lexer.get_next_token_loop] in H.
  destruct (Lexer.current_char l) as [c |];
    [ | inversion H; reflexivity ].
  destruct (isspace c).
  { apply bind_Ret in H. destruct H as (a & s1 & _ & H). exact (IH _ _ _ H). }
  destruct (c =? "/")%char.
  { apply bind_Ret in H. destruct H as ([comment |] & s1 & Hskip & H).
    - unfold ret in H. inversion H. subst.
      exact (skip_comment_well_typed _ _ _ Hskip).
    - exact (IH _ _ _ H). }
  destruct (isdigit c || (c =? ".")%char).
  { unfold Lexer.number in H.
    destruct (Lexer.scan_while _ _ _ _) as [[r l1] |]; [ | discriminate ].
    destruct (contains_dot r); [ destruct (Py.float r) | destruct (Py.int r) ];
      inversion H; reflexivity. }
  destruct (c =? Lexer.quote)%char.
  { unfold Lexer.string_ in H.
    destruct (Lexer.scan_while _ _ _ _) as [[r l1] |]; [ | discriminate ].
    destruct (Lexer.current_char l1); inversion H; reflexivity. }
  destruct (isalpha c || (c =? "_")%char).
  { unfold Lexer.identifier in H.
    destruct (Lexer.scan_while _ _ _ _) as [[r l1] |]; [ | discriminate ].
    destruct (r =? "true")%string; [ inversion H; reflexivity | ].
    destruct (r =? "false")%string; inversion H; reflexivity. }
  destruct (Lexer.single_character _ _) as [token_type |] eqn:E;
    inversion H.
  exact (single_character_well_typed _ _ _ _ E).
Qed.

(** X14: the value of every token [get_next_token] returns has the Python
    type of the token's kind: an int for [INTEGER], a float for [FLOAT], a
    bool for [BOOLEAN], [None] for [EOF], and a string for a string
    literal, a name and each operator or bracket. *)
Theorem token_value_has_the_type_of_its_kind (l l' : Lexer.t) (token : Token.t) :
  Lexer.get_next_token l = Ret token l' -> well_typed token = true.
Proof.
  exact (get_next_token_loop_well_typed (Lexer.budget l) l l' token).
Qed.

(** The word [true] is a [BOOLEAN] with the bool [True]. *)
Lemma true_is_a_bool :
  well_typed (Token.make BOOLEAN (PyBool true) 1 0) = true.
Proof.
  exact (token_value_has_the_type_of_its_kind
           (Lexer.init "true") (advances 4 (Lexer.init "true"))
           (Token.make BOOLEAN (PyBool true) 1 0) eq_refl).
Defined.

Lemma eat_well_typed (token_type : TokenType) (p p' : Parser.t) (u : unit) :
  Parser.eat token_type p = Ret u p' ->
  well_typed (Parser.current_token p') = true.
Proof.
  unfold Parser.eat, Parser.error.
  destruct (TokenType_eqb _ _); [ | discriminate ].
  destruct (Lexer.get_next_token (Parser.lexer p)) as [token l' | e l' |] eqn:E;
    try discriminate.
  intros H. inversion H. simpl.
  exact (get_next_token_loop_well_typed _ _ _ _ E).
Qed.

Lemma eat_comma_well_typed (p p' : Parser.t) (u : unit) :
  well_typed (Parser.current_token p) = true ->
  Parser.eat_comma p = Ret u p' ->
  well_typed (Parser.current_token p') = true.
Proof.
  unfold Parser.eat_comma. intros Hp.
  destruct (Parser.at_token COMMA p).
  - apply eat_well_typed.
  - intros H. inversion H. subst. exact Hp.
Qed.

(** A literal token that is well typed carries no [None]. *)
Lemma literal_is_not_None (token : Token.t) :
  well_typed token = true ->
  starts_factor (Token.type token) = true ->
  match Token.type token with
  | INTEGER | FLOAT | STRING | BOOLEAN =>
    Interpreter.is_None (Atom (Token.value token)) = false
  | IDENTIFIER => is_str (Atom (Token.value token)) = true
  | _ => True
  end.
Proof.
  unfold well_typed.
  destruct (Token.type token), (Token.value token);
    simpl; intros; try discriminate; try reflexivity; exact I.
Qed.

(** The expression methods build valued trees, and leave a well-typed
    token. *)
Lemma parser_builds_valued_trees (n : nat) :
  (forall p node p',
     well_typed (Parser.current_token p) = true ->
     Parser.factor n p = Ret node p' ->
     valued node = true /\ well_typed (Parser.current_token p') = true) /\
  (forall elements p elements' p',
     well_typed (Parser.current_token p) = true ->
     Parser.factor_list n elements p = Ret elements' p' ->
     forallb valued elements = true ->
     forallb valued elements' = true /\
     well_typed (Parser.current_token p') = true) /\
  (forall pairs p pairs' p',
     well_typed (Parser.current_token p) = true ->
     Parser.factor_dict n pairs p = Ret pairs' p' ->
     valued (DictExpr pairs) = true ->
     valued (DictExpr pairs') = true /\
     well_typed (Parser.current_token p') = true) /\
  (forall p node p',
     well_typed (Parser.current_token p) = true ->
     Parser.term n p = Ret node p' ->
     valued node = true /\ well_typed (Parser.current_token p') = true) /\
  (forall node0 p node p',
     well_typed (Parser.current_token p) = true ->
     Parser.term_loop n node0 p = Ret node p' ->
     valued node0 = true ->
     valued node = true /\ well_typed (Parser.current_token p') = true) /\
  (forall p node p',
     well_typed (Parser.current_token p) = true ->
     Parser.expr n p = Ret node p' ->
     valued node = true /\ well_typed (Parser.current_token p') = true) /\
  (forall node0 p node p',
     well_typed (Parser.current_token p) = true ->
     Parser.expr_loop n node0 p = Ret node p' ->
     valued node0 = true ->
     valued node = true /\ well_typed (Parser.current_token p') = true).
Proof.
  induction n as [| n (Hf & Hfl & Hfd & Ht & Htl & He & Hel)].
  - repeat split; intros; simpl in *; discriminate.
  - split; [ | split; [ | split; [ | split; [ | split; [ | split ] ] ] ] ].
    + intros p node p' Hp H. simpl in H.
      pose proof (literal_is_not_None (Parser.current_token p) Hp) as Hlit.
      destruct (Token.type (Parser.current_token p)) eqn:Htype; returned;
        try (split; [ reflexivity | exact Hp ]);
        try (split; [ cbn [valued]; rewrite (Hlit eq_refl); reflexivity
                    | eapply eat_well_typed; eassumption ]).
      * match goal with
        | H1 : Parser.eat LPAREN _ = _, H2 : Parser.expr _ _ = _ |- _ =>
          apply eat_well_typed in H1;
            destruct (He _ _ _ H1 H2) as [Hnode _]
        end.
        split; [ exact Hnode | eapply eat_well_typed; eassumption ].
      * match goal with
        | H1 : Parser.eat LBRACKET _ = _, H2 : Parser.factor_list _ _ _ = _ |- _ =>
          apply eat_well_typed in H1;
            destruct (Hfl _ _ _ _ H1 H2 eq_refl) as [Hnode _]
        end.
        split; [ exact Hnode | eapply eat_well_typed; eassumption ].
      * match goal with
        | H1 : Parser.eat LBRACE _ = _, H2 : Parser.factor_dict _ _ _ = _ |- _ =>
          apply eat_well_typed in H1;
            destruct (Hfd _ _ _ _ H1 H2 eq_refl) as [Hnode _]
        end.
        split; [ exact Hnode | eapply eat_well_typed; eassumption ].
    + intros elements p elements' p' Hp H Hels. simpl in H.
      destruct (Parser.at_token RBRACKET p); returned;
        [ split; assumption | ].
      match goal with
      | H1 : Parser.expr _ _ = _, H2 : Parser.eat_comma _ = _,
        H3 : Parser.factor_list _ _ _ = _ |- _ =>
        destruct (He _ _ _ Hp H1) as [Hnode Hp1];
          pose proof (eat_comma_well_typed _ _ _ Hp1 H2) as Hp2;
          apply (Hfl _ _ _ _ Hp2 H3)
      end.
      apply forallb_snoc; assumption.
    + intros pairs p pairs' p' Hp H Hpairs. simpl in H.
      destruct (Parser.at_token RBRACE p);
        [ inversion H; subst; split; assumption | ].
      apply bind_Ret in H. destruct H as (key & p1 & Hkey & H).
      apply bind_Ret in H. destruct H as (u1 & p2 & Hcolon & H).
      apply bind_Ret in H. destruct H as (value & p3 & Hvalue & H).
      apply bind_Ret in H. destruct H as (key_value & p4 & Hattr & H).
      apply bind_Ret in H. destruct H as (u2 & p5 & Hcomma & H).
      apply eat_well_typed in Hcolon.
      destruct (He _ _ _ Hcolon Hvalue) as [Hnode Hp3].
      assert (Hp4 : p4 = p3).
      { destruct key; simpl in Hattr; try discriminate;
          unfold ret in Hattr; inversion Hattr; reflexivity. }
      subst p4.
      pose proof (eat_comma_well_typed _ _ _ Hp3 Hcomma) as Hp5.
      apply (Hfd _ _ _ _ Hp5 H).
      cbn [valued] in *.
      apply (dict_set_keeps_values valued); assumption.
    + intros p node p' Hp H. simpl in H. returned.
      match goal with
      | H1 : Parser.factor _ _ = _, H2 : Parser.term_loop _ _ _ = _ |- _ =>
        destruct (Hf _ _ _ Hp H1) as [Hnode Hp1];
          exact (Htl _ _ _ _ Hp1 H2 Hnode)
      end.
    + intros node0 p node p' Hp H Hnode. simpl in H.
      destruct (Token.type (Parser.current_token p)) eqn:Htype; returned;
        try (split; assumption);
        match goal with
        | H1 : Parser.eat _ _ = _, H2 : Parser.factor _ _ = _,
          H3 : Parser.term_loop _ _ _ = _ |- _ =>
          apply eat_well_typed in H1;
            destruct (Hf _ _ _ H1 H2) as [Hright Hp1];
            apply (Htl _ _ _ _ Hp1 H3)
        end;
        cbn [valued]; rewrite Htype, Hnode, Hright; reflexivity.
    + intros p node p' Hp H. simpl in H. returned.
      match goal with
      | H1 : Parser.term _ _ = _, H2 : Parser.expr_loop _ _ _ = _ |- _ =>
        destruct (Ht _ _ _ Hp H1) as [Hnode Hp1];
          exact (Hel _ _ _ _ Hp1 H2 Hnode)
      end.
    + intros node0 p node p' Hp H Hnode. simpl in H.
      destruct (Token.type (Parser.current_token p)) eqn:Htype; returned;
        try (split; assumption);
        match goal with
        | H1 : Parser.eat _ _ = _, H2 : Parser.term _ _ = _,
          H3 : Parser.expr_loop _ _ _ = _ |- _ =>
          apply eat_well_typed in H1;
            destruct (Ht _ _ _ H1 H2) as [Hright Hp1];
            apply (Hel _ _ _ _ Hp1 H3)
        end;
        cbn [valued]; rewrite Htype, Hnode, Hright; reflexivity.
Qed.

End TokenValues.

Section Results.

Local Arguments bind : simpl never.
Local Arguments ret : simpl never.
Local Arguments Parser.eat : simpl never.
Local Arguments Parser.eat_comma : simpl never.

(** What [parse] returns on a well-typed first token is a valued tree. *)
Lemma parse_returns_valued_tree (n : nat) (p p' : Parser.t) (tree : AST) :
  well_typed (Parser.current_token p) = true ->
  Parser.parse n p = Ret tree p' ->
  valued tree = true.
Proof.
  destruct (parser_builds_valued_trees n) as (_ & _ & _ & _ & _ & He & _).
  unfold Parser.parse, Parser.assignment. intros Hp H.
  apply bind_Ret in H. destruct H as (node & p1 & Hleft & H).
  destruct (He _ _ _ Hp Hleft) as [Hnode Hp1].
  destruct (is_Var node && Parser.at_token ASSIGN p1).
  - apply bind_Ret in H. destruct H as (u & p2 & Heat & H).
    apply bind_Ret in H. destruct H as (right & p3 & Hright & H).
    unfold ret in H. inversion H. subst.
    apply eat_well_typed in Heat.
    destruct (He _ _ _ Heat Hright) as [Hvalued _].
    cbn [valued]. rewrite Hnode, Hvalued. reflexivity.
  - inversion H. subst. exact Hnode.
Qed.

(** An operator of the four returns a number or a string. *)
Lemma visit_BinOp_values_not_None (op : Token.t) (lv rv v : value)
  (s s' : SymbolTable.t) :
  is_operator (Token.type op) = true ->
  Interpreter.visit_BinOp_values op lv rv s = Ret v s' ->
  Interpreter.is_None v = false.
Proof.
  unfold Interpreter.visit_BinOp_values, Interpreter.returning.
  intros Hop.
  destruct (Token.type op); try discriminate Hop; clear Hop;
    repeat match goal with
           | |- context [match ?x with _ => _ end] => destruct x
           end;
    unfold ret, raise; intros H; inversion H;
    try reflexivity;
    match goal with
    | |- Interpreter.is_None (of_number ?n) = false => destruct n; reflexivity
    end.
Qed.

(** The visit of a valued tree returns no [None]. *)
Lemma visit_returns_no_None (node : AST) :
  valued node = true ->
  forall s s' v,
    Interpreter.visit node s = Ret v s' -> Interpreter.is_None v = false.
Proof.
  induction node using AST_induction; intros Hvalued s s' v Hvisit;
    cbn [Interpreter.visit] in Hvisit; cbn [valued] in Hvalued.
  - apply andb_true_iff in Hvalued. destruct Hvalued as [Hvalued _].
    apply andb_true_iff in Hvalued. destruct Hvalued as [Hop _].
    apply bind_Ret in Hvisit. destruct Hvisit as (lv & s1 & _ & Hvisit).
    apply bind_Ret in Hvisit. destruct Hvisit as (rv & s2 & _ & Hvisit).
    exact (visit_BinOp_values_not_None _ _ _ _ _ _ Hop Hvisit).
  - unfold ret in Hvisit. inversion Hvisit. subst.
    apply negb_true_iff. exact Hvalued.
  - destruct (Interpreter.is_None _) eqn:E; inversion Hvisit. subst. exact E.
  - apply andb_true_iff in Hvalued. destruct Hvalued as [_ Hright].
    apply bind_Ret in Hvisit. destruct Hvisit as (name & s1 & _ & Hvisit).
    apply bind_Ret in Hvisit. destruct Hvisit as (value & s2 & Hvalue & Hvisit).
    inversion Hvisit. subst.
    exact (IHnode2 Hright _ _ _ Hvalue).
  - apply bind_Ret in Hvisit. destruct Hvisit as (vs & s1 & _ & Hvisit).
    unfold ret in Hvisit. inversion Hvisit. reflexivity.
  - apply bind_Ret in Hvisit. destruct Hvisit as (d & s1 & _ & Hvisit).
    unfold ret in Hvisit. inversion Hvisit. reflexivity.
  - discriminate.
Qed.

(** The token [start_line] leaves with the parser is well typed. *)
Lemma start_line_well_typed (text : string) (i i' : Interpreter.t) (u : unit) :
  Main.start_line text i = Ret u i' ->
  well_typed (Parser.current_token (Interpreter.parser i')) = true.
Proof.
  unfold Main.start_line, Interpreter.on_parser.
  match goal with
  | |- context [Lexer.get_next_token ?l] =>
    destruct (Lexer.get_next_token l) as [token l' | e l' |] eqn:E
  end; try discriminate.
  intros H. inversion H. simpl.
  exact (get_next_token_loop_well_typed _ _ _ _ E).
Qed.

Lemma evaluate_line_returns_no_None
  (fuel : nat) (text : string) (i i' : Interpreter.t) (v : value) :
  Main.evaluate_line fuel text i = Ret v i' -> Interpreter.is_None v = false.
Proof.
  unfold Main.evaluate_line. intros H.
  apply bind_Ret in H. destruct H as (u & i1 & Hstart & H).
  apply start_line_well_typed in Hstart.
  unfold Interpreter.interpret in H.
  apply bind_Ret in H. destruct H as (tree & i2 & Hparse & H).
  unfold Interpreter.on_parser in Hparse.
  destruct (Parser.parse fuel (Interpreter.parser i1)) as [tree' p2 | e p2 |] eqn:E;
    try discriminate.
  inversion Hparse. subst tree' i2. clear Hparse.
  pose proof (parse_returns_valued_tree _ _ _ _ Hstart E) as Hvalued.
  unfold Interpreter.on_symbol_table in H. cbn [Interpreter.symbol_table] in H.
  destruct (Interpreter.visit tree (Interpreter.symbol_table i1))
    as [v' s' | e s' |] eqn:Evisit; try discriminate.
  inversion H. subst v'.
  exact (visit_returns_no_None tree Hvalued _ _ _ Evisit).
Qed.

(** X15: a line that evaluates never gives [None]: whatever the line and
    the session, the result [main] gets from [interpret] is a number, a
    string, a bool, a list or a dict. So the test [result is not None]
    before the [print] of [main] always passes: no round of the loop ends
    without printing either a result or an error. *)
Theorem every_result_is_printed
  (fuel : nat) (text : string) (i : Interpreter.t) :
  (forall v i',
     Main.evaluate_line fuel text i = Ret v i' ->
     Interpreter.is_None v = false) /\
  (forall i', Main.loop_round fuel text i <> Main.Silent i').
Proof.
  split.
  - intros v i'. apply evaluate_line_returns_no_None.
  - intros i'. unfold Main.loop_round.
    destruct (Main.strip text =? "")%string; [ discriminate | ].
    destruct (Main.lower (Main.strip text) =? "exit")%string; [ discriminate | ].
    destruct (Main.evaluate_line fuel text i) as [v i1 | e i1 |] eqn:E;
      try discriminate.
    rewrite (evaluate_line_returns_no_None _ _ _ _ _ E). discriminate.
Qed.

(** X16: an assignment the parser returned binds its name. When the visit
    of the statement returns [v], the right side evaluated to [v] on the
    table as it was, without changing it; the table after the statement is
    the old one with the name set to [v]; the name read on it gives [v]
    again; and every other name reads as before. *)
Theorem assignment_binds_the_name
  (fuel : nat) (p p' : Parser.t) (token op : Token.t) (right : AST)
  (s s' : SymbolTable.t) (v : value) :
  well_typed (Parser.current_token p) = true ->
  Parser.parse fuel p = Ret (Assign (Var token) op right) p' ->
  Interpreter.visit (Assign (Var token) op right) s = Ret v s' ->
  Interpreter.visit right s = Ret v s /\
  s' = SymbolTable.set s (Token.value token) v /\
  Interpreter.visit (Var token) s' = Ret v s' /\
  (forall other : string,
     PyStr other <> Token.value token ->
     SymbolTable.get s' (PyStr other) = SymbolTable.get s (PyStr other)).
Proof.
  intros Hp Hparse Hvisit.
  pose proof (parse_returns_valued_tree _ _ _ _ Hp Hparse) as Hvalued.
  cbn [valued] in Hvalued.
  apply andb_true_iff in Hvalued. destruct Hvalued as [Hname Hvalued].
  destruct (Token.value token) as [| | name | |] eqn:Evalue; try discriminate.
  apply parse_returns_statement in Hparse.
  destruct Hparse as [Hfree | (token' & op' & right' & Heq & Hfree)];
    [ discriminate | ].
  inversion Heq. subst token' op' right'. clear Heq.
  cbn [Interpreter.visit attr_value] in Hvisit.
  apply bind_Ret in Hvisit. destruct Hvisit as (var_name & s1 & Hattr & Hvisit).
  unfold ret in Hattr. inversion Hattr. subst var_name s1. clear Hattr.
  apply bind_Ret in Hvisit. destruct Hvisit as (value & s2 & Hright & Hvisit).
  inversion Hvisit. subst value s'. clear Hvisit.
  pose proof (visit_without_assign right Hfree s) as Hsame.
  rewrite Hright in Hsame. simpl in Hsame. subst s2.
  pose proof (visit_returns_no_None right Hvalued _ _ _ Hright) as Hsome.
  rewrite Evalue.
  split; [ exact Hright | split; [ reflexivity | split ] ].
  - cbn [Interpreter.visit]. rewrite Evalue.
    unfold SymbolTable.get, SymbolTable.set.
    rewrite dict_get_set_same, Hsome. reflexivity.
  - intros other Hother.
    unfold SymbolTable.get, SymbolTable.set.
    rewrite dict_get_set_other; [ reflexivity | ].
    intros Heq. apply Hother. rewrite Heq. reflexivity.
Qed.

End Results.

(** The statement [x = 1 + 2] on a table that holds [y]. *)
Lemma x_reads_back_as_3 :
  Interpreter.visit (Var (Token.make IDENTIFIER (PyStr "x") 1 0))
    [(PyStr "y", Atom (PyInt 7)); (PyStr "x", Atom (PyInt 3))]
  = Ret (Atom (PyInt 3))
        [(PyStr "y", Atom (PyInt 7)); (PyStr "x", Atom (PyInt 3))].
Proof.
  exact (proj1 (proj2 (proj2
    (assignment_binds_the_name 5
       (Parser.make (Lexer.advance (Lexer.init "x = 1 + 2"))
                    (Token.make IDENTIFIER (PyStr "x") 1 0))
       (Parser.make (advances 9 (Lexer.init "x = 1 + 2"))
                    (Token.make EOF PyNone 1 10))
       (Token.make IDENTIFIER (PyStr "x") 1 0)
       (operator_token ASSIGN "=" 3)
       (BinOp (Num (integer_token 1 4)) (operator_token PLUS "+" 7)
              (Num (integer_token 2 8)))
       [(PyStr "y", Atom (PyInt 7))]
       [(PyStr "y", Atom (PyInt 7)); (PyStr "x", Atom (PyInt 3))]
       (Atom (PyInt 3))
       eq_refl eq_refl eq_refl)))).
Defined.

(** * Further properties of the evaluator and the loop *)

Section Lists.

Local Arguments bind : simpl never.
Local Arguments ret : simpl never.

Lemma visit_ends (node : AST) (s : SymbolTable.t) :
  assign_free node = true -> Interpreter.visit node s <> OutOfFuel.
Proof.
  intros Hfree H. pose proof (visit_without_assign node Hfree s) as Hsame.
  rewrite H in Hsame. exact Hsame.
Qed.

Lemma visit_elements_in_order (elements : list AST) (s : SymbolTable.t) :
  forallb assign_free elements = true ->
  match Interpreter.visit_elements Interpreter.visit elements s with
  | Ret vs s' =>
    s' = s /\
    Forall2 (fun element v => Interpreter.visit element s = Ret v s) elements vs
  | Raise e s' =>
    s' = s /\
    exists before failing after vs,
      elements = (before ++ failing :: after)%list /\
      Forall2 (fun element v => Interpreter.visit element s = Ret v s) before vs /\
      Interpreter.visit failing s = Raise e s
  | OutOfFuel => False
  end.
Proof.
  induction elements as [| x elements IH]; intros Hfree;
    cbn [Interpreter.visit_elements].
  - unfold ret. split; [ reflexivity | constructor ].
  - simpl in Hfree. apply andb_true_iff in Hfree. destruct Hfree as [Hx Hfree].
    specialize (IH Hfree).
    pose proof (visit_without_assign x Hx s) as Hsame.
    unfold bind.
    destruct (Interpreter.visit x s) as [v s1 | e s1 |] eqn:Ex; simpl in Hsame.
    + subst s1.
      destruct (Interpreter.visit_elements Interpreter.visit elements s)
        as [vs s2 | e s2 |].
      * destruct IH as [-> IH]. unfold ret.
        split; [ reflexivity | constructor; assumption ].
      * destruct IH as [-> (before & failing & after & vs & Heq & Hbefore & Hfail)].
        split; [ reflexivity | ].
        exists (x :: before), failing, after, (v :: vs).
        split; [ rewrite Heq; reflexivity | ].
        split; [ constructor; assumption | exact Hfail ].
      * exact IH.
    + subst s1. split; [ reflexivity | ].
      exists [], x, elements, [].
      split; [ reflexivity | split; [ apply Forall2_nil | exact Ex ] ].
    + exact Hsame.
Qed.

(** X17: a list literal whose elements hold no assignment (the parser
    builds no other) is evaluated element by element, from left to right,
    each on the same table. When it returns, the result is the list of the
    elements' values, in order; when it raises, the exception is that of
    the first element that fails, the elements before it having returned.
    Either way the table is left as it was. *)
Theorem list_literal_evaluates_in_order
  (elements : list AST) (s : SymbolTable.t) :
  forallb assign_free elements = true ->
  match Interpreter.visit (ListExpr elements) s with
  | Ret v s' =>
    s' = s /\
    exists vs,
      v = PyList vs /\
      Forall2 (fun element x => Interpreter.visit element s = Ret x s) elements vs
  | Raise e s' =>
    s' = s /\
    exists before failing after vs,
      elements = (before ++ failing :: after)%list /\
      Forall2 (fun element x => Interpreter.visit element s = Ret x s) before vs /\
      Interpreter.visit failing s = Raise e s
  | OutOfFuel => False
  end.
Proof.
  intros Hfree. pose proof (visit_elements_in_order elements s Hfree) as H.
  cbn [Interpreter.visit]. unfold bind.
  destruct (Interpreter.visit_elements Interpreter.visit elements s)
    as [vs s1 | e s1 |].
  - destruct H as [-> H]. unfold ret.
    split; [ reflexivity | exists vs; split; [ reflexivity | exact H ] ].
  - exact H.
  - exact H.
Qed.

(** The list [[1, y, 2]] on the empty table: [y] fails. *)
Lemma list_with_an_unbound_name :
  match Interpreter.visit
          (ListExpr [Num (integer_token 1 1);
                     Var (Token.make IDENTIFIER (PyStr "y") 1 4);
                     Num (integer_token 2 7)]) [] with
  | Ret v s' =>
    s' = [] /\
    exists vs,
      v = PyList vs /\
      Forall2 (fun element x => Interpreter.visit element [] = Ret x [])
        [Num (integer_token 1 1);
         Var (Token.make IDENTIFIER (PyStr "y") 1 4);
         Num (integer_token 2 7)] vs
  | Raise e s' =>
    s' = [] /\
    exists before failing after vs,
      [Num (integer_token 1 1);
       Var (Token.make IDENTIFIER (PyStr "y") 1 4);
       Num (integer_token 2 7)] = (before ++ failing :: after)%list /\
      Forall2 (fun element x => Interpreter.visit element [] = Ret x []) before vs /\
      Interpreter.visit failing [] = Raise e []
  | OutOfFuel => False
  end.
Proof.
  exact (list_literal_evaluates_in_order
           [Num (integer_token 1 1);
            Var (Token.make IDENTIFIER (PyStr "y") 1 4);
            Num (integer_token 2 7)] [] eq_refl).
Defined.

End Lists.

Section Tails.

Local Arguments bind : simpl never.
Local Arguments ret : simpl never.
Local Arguments Parser.eat : simpl never.

(** [term] stops before a token that is neither [*] nor [/]; [expr] stops
    before a token that is no operator at all. *)
Lemma loops_stop_at_no_operator (n : nat) :
  (forall node0 p node p',
     Parser.term_loop n node0 p = Ret node p' ->
     is_term_operator (Token.type (Parser.current_token p')) = false) /\
  (forall p node p',
     Parser.term n p = Ret node p' ->
     is_term_operator (Token.type (Parser.current_token p')) = false) /\
  (forall node0 p node p',
     Parser.expr_loop n node0 p = Ret node p' ->
     Token.type (Parser.current_token p) <> MUL ->
     is_operator (Token.type (Parser.current_token p')) = false) /\
  (forall p node p',
     Parser.expr n p = Ret node p' ->
     is_operator (Token.type (Parser.current_token p')) = false).
Proof.
  assert (Hmul : forall p,
            is_term_operator (Token.type (Parser.current_token p)) = false ->
            Token.type (Parser.current_token p) <> MUL).
  { intros p H E. rewrite E in H. discriminate. }
  induction n as [| n (Htl & Ht & Hel & He)].
  - repeat split; intros; simpl in *; discriminate.
  - split; [ | split; [ | split ] ].
    + intros node0 p node p' H. simpl in H.
      destruct (Token.type (Parser.current_token p)) eqn:Htype;
        try (inversion H; subst; rewrite Htype; reflexivity);
        apply bind_Ret in H; destruct H as (u & p1 & _ & H);
        apply bind_Ret in H; destruct H as (right & p2 & _ & H);
        exact (Htl _ _ _ _ H).
    + intros p node p' H. simpl in H.
      apply bind_Ret in H. destruct H as (node0 & p1 & _ & H).
      exact (Htl _ _ _ _ H).
    + intros node0 p node p' H Hp. simpl in H.
      destruct (Token.type (Parser.current_token p)) eqn:Htype;
        try (inversion H; subst; rewrite Htype; reflexivity);
        try (exfalso; apply Hp; reflexivity);
        apply bind_Ret in H; destruct H as (u & p1 & _ & H);
        apply bind_Ret in H; destruct H as (right & p2 & Hterm & H);
        exact (Hel _ _ _ _ H (Hmul _ (Ht _ _ _ Hterm))).
    + intros p node p' H. simpl in H.
      apply bind_Ret in H. destruct H as (node0 & p1 & Hterm & H).
      exact (Hel _ _ _ _ H (Hmul _ (Ht _ _ _ Hterm))).
Qed.

(** X21: when [term] returns, the token it leaves is neither [*] nor [/];
    when [expr] or [parse] returns, the token it leaves is none of the
    four operators. So the loop of [expr] never meets the [/] it tests
    for: [term] has taken every [/] before. *)
Theorem expression_leaves_no_operator
  (fuel : nat) (p p' : Parser.t) (node : AST) :
  (Parser.term fuel p = Ret node p' ->
   is_term_operator (Token.type (Parser.current_token p')) = false) /\
  (Parser.expr fuel p = Ret node p' ->
   is_operator (Token.type (Parser.current_token p')) = false) /\
  (Parser.parse fuel p = Ret node p' ->
   is_operator (Token.type (Parser.current_token p')) = false).
Proof.
  destruct (loops_stop_at_no_operator fuel) as (_ & Ht & _ & He).
  split; [ apply Ht | split; [ apply He | ] ].
  unfold Parser.parse, Parser.assignment. intros H.
  apply bind_Ret in H. destruct H as (left & p1 & Hleft & H).
  destruct (is_Var left && Parser.at_token ASSIGN p1).
  - apply bind_Ret in H. destruct H as (u & p2 & _ & H).
    apply bind_Ret in H. destruct H as (right & p3 & Hright & H).
    unfold ret in H. inversion H. subst. exact (He _ _ _ Hright).
  - inversion H. subst. exact (He _ _ _ Hleft).
Qed.

End Tails.

(** The expression [2 * 3 - 1] before a closing parenthesis. *)
Lemma expression_before_a_parenthesis :
  is_operator RPAREN = false.
Proof.
  exact (proj1 (proj2
    (expression_leaves_no_operator 5
       (Parser.make (Lexer.advance (Lexer.init "2 * 3 - 1)")) (integer_token 2 0))
       (Parser.make (advances 10 (Lexer.init "2 * 3 - 1)"))
                    (operator_token RPAREN ")" 10))
       (BinOp (BinOp (Num (integer_token 2 0)) (operator_token MUL "*" 3)
                     (Num (integer_token 3 4)))
              (operator_token MINUS "-" 7)
              (Num (integer_token 1 8)))))
    eq_refl).
Defined.

Section Loop.

Lemma lstrip_blank (s : string) :
  all_chars isspace s = true -> Main.lstrip s = "".
Proof.
  induction s as [| c s IH]; simpl; [ reflexivity | ].
  destruct (isspace c); [ exact IH | discriminate ].
Qed.

Lemma lstrip_starts_with_no_space (s : string) :
  all_chars isspace s = false ->
  exists c s', Main.lstrip s = String c s' /\ isspace c = false.
Proof.
  induction s as [| c s IH]; simpl; [ discriminate | ].
  destruct (isspace c) eqn:E; [ exact IH | ].
  intros _. exists c, s. split; [ reflexivity | exact E ].
Qed.

Lemma rstrip_blank (s : string) :
  all_chars isspace s = true -> Main.rstrip s = "".
Proof.
  induction s as [| c s IH]; simpl; [ reflexivity | ].
  intros H. apply andb_true_iff in H. destruct H as [Hc Hs].
  rewrite (IH Hs), Hc. reflexivity.
Qed.

Lemma rstrip_keeps_a_first_character (c : ascii) (s : string) :
  isspace c = false -> Main.rstrip (String c s) <> "".
Proof.
  intros Hc. cbn [Main.rstrip].
  destruct (Main.rstrip s); [ rewrite Hc | ]; discriminate.
Qed.

Lemma strip_blank (s : string) :
  Main.strip s = "" <-> all_chars isspace s = true.
Proof.
  unfold Main.strip. split.
  - intros H. destruct (all_chars isspace s) eqn:E; [ reflexivity | ].
    destruct (lstrip_starts_with_no_space s E) as (c & s' & Heq & Hc).
    rewrite Heq in H. exfalso.
    exact (rstrip_keeps_a_first_character c s' Hc H).
  - intros H. rewrite (lstrip_blank s H). reflexivity.
Qed.

(** X18: the loop skips a line exactly when every character of the line
    is white space (the empty line included): such a line is never
    scanned, and every other line is either [exit] or goes to the
    scanner. *)
Theorem blank_line_is_skipped
  (fuel : nat) (text : string) (i : Interpreter.t) :
  Main.loop_round fuel text i = Main.Skipped <-> all_chars isspace text = true.
Proof.
  unfold Main.loop_round. split.
  - intros H. apply strip_blank.
    destruct (Main.strip text =? "")%string eqn:E;
      [ apply String.eqb_eq; exact E | ].
    destruct (Main.lower (Main.strip text) =? "exit")%string;
      [ discriminate | ].
    destruct (Main.evaluate_line fuel text i) as [v i' | e i' |];
      [ destruct (Interpreter.is_None v) | | ]; discriminate.
  - intros H. apply strip_blank in H. rewrite H. reflexivity.
Qed.

Lemma lstrip_leading_spaces (pre s : string) :
  all_chars isspace pre = true -> Main.lstrip (pre ++ s) = Main.lstrip s.
Proof.
  induction pre as [| c pre IH]; simpl; [ reflexivity | ].
  destruct (isspace c); [ exact IH | discriminate ].
Qed.

Lemma rstrip_trailing_spaces (s post : string) :
  all_chars isspace post = true -> Main.rstrip (s ++ post) = Main.rstrip s.
Proof.
  intros Hpost. induction s as [| c s IH]; cbn [append Main.rstrip].
  - apply rstrip_blank. exact Hpost.
  - rewrite IH. reflexivity.
Qed.

(** No white space is changed by [lower]. *)
Lemma lower_char_of_space (c : ascii) :
  isspace c = true -> Main.lower_char c = c.
Proof.
  destruct c as [b0 b1 b2 b3 b4 b5 b6 b7].
  destruct b0, b1, b2, b3, b4, b5, b6, b7;
    intros H; vm_compute in H; try discriminate; reflexivity.
Qed.

Lemma letter_is_no_space (c letter : ascii) :
  Main.lower_char c = letter -> isspace letter = false -> isspace c = false.
Proof.
  intros Hlower Hletter. destruct (isspace c) eqn:E; [ | reflexivity ].
  rewrite (lower_char_of_space c E) in Hlower. subst letter.
  rewrite E in Hletter. discriminate.
Qed.

(** X19: a line that is the word [exit], written in any mix of upper and
    lower case, with any white space before and after it, ends the loop
    before anything of the line is scanned, whatever the session holds. *)
Theorem exit_line_ends_the_loop
  (fuel : nat) (pre word post : string) (i : Interpreter.t) :
  all_chars isspace pre = true ->
  all_chars isspace post = true ->
  Main.lower word = "exit" ->
  Main.loop_round fuel (pre ++ word ++ post) i = Main.Exited.
Proof.
  intros Hpre Hpost Hword.
  destruct word as [| c1 [| c2 [| c3 [| c4 [| c5 word]]]]];
    simpl in Hword; try discriminate.
  inversion Hword as [[H1 H2 H3 H4]].
  pose proof (letter_is_no_space c1 "e" H1 eq_refl) as Hc1.
  pose proof (letter_is_no_space c4 "t" H4 eq_refl) as Hc4.
  assert (Hstrip : Main.strip (pre ++ String c1 (String c2 (String c3 (String c4 "")))
                                 ++ post)
                   = String c1 (String c2 (String c3 (String c4 "")))).
  { unfold Main.strip.
    rewrite lstrip_leading_spaces by exact Hpre.
    cbn [append Main.lstrip]. rewrite Hc1.
    change (String c1 (String c2 (String c3 (String c4 post))))
      with (String c1 (String c2 (String c3 (String c4 ""))) ++ post).
    rewrite rstrip_trailing_spaces by exact Hpost.
    cbn [Main.rstrip]. rewrite Hc4. reflexivity. }
  unfold Main.loop_round. rewrite Hstrip.
  cbn [Main.lower]. rewrite H1, H2, H3, H4. reflexivity.
Qed.

(** The line [  ExIt ]. *)
Lemma exit_in_mixed_case :
  Main.loop_round 0 "  ExIt " Main.fresh = Main.Exited.
Proof.
  exact (exit_line_ends_the_loop 0 "  " "ExIt" " " Main.fresh
           eq_refl eq_refl eq_refl).
Defined.

End Loop.

Section Columns.

Local Arguments bind : simpl never.
Local Arguments ret : simpl never.
Local Arguments Parser.eat : simpl never.
Local Arguments Parser.eat_comma : simpl never.

Lemma count_newlines_nonnegative (s : string) : (0 <= count_newlines s)%Z.
Proof.
  induction s as [| c s IH]; simpl; [ lia | ].
  destruct (c =? Lexer.newline)%char; lia.
Qed.

Lemma get_no_newline (text : string) :
  count_newlines text = 0%Z ->
  forall p, Lexer.is_char Lexer.newline (String.get p text) = false.
Proof.
  induction text as [| c text IH]; intros Hcount p.
  - destruct p; reflexivity.
  - simpl in Hcount. pose proof (count_newlines_nonnegative text) as Hn.
    destruct (c =? Lexer.newline)%char eqn:E; [ lia | ].
    destruct p as [| p]; simpl; [ exact E | ].
    apply IH. lia.
Qed.

(** On a text without newline, every [advance] adds one to the column. *)
Lemma advances_on_one_line (n : nat) :
  forall l,
    in_step l ->
    count_newlines (Lexer.text l) = 0%Z ->
    Lexer.line (advances n l) = Lexer.line l /\
    Lexer.column (advances n l) = (Lexer.column l + Z.of_nat n)%Z.
Proof.
  induction n as [| n IH]; intros l Hstep Hcount.
  - simpl. split; [ reflexivity | lia ].
  - cbn [advances].
    destruct (IH (Lexer.advance l) (advance_in_step l) Hcount) as [Hline Hcolumn].
    rewrite Hline, Hcolumn.
    cbn [Lexer.advance Lexer.line Lexer.column].
    rewrite Hstep, (get_no_newline _ Hcount). split; [ reflexivity | lia ].
Qed.

Lemma ahead_refl (l : Lexer.t) : ahead l l.
Proof. exists 0. reflexivity. Qed.

Lemma ahead_advance (l l' : Lexer.t) : ahead (Lexer.advance l) l' -> ahead l l'.
Proof. intros [n H]. exists (S n). exact H. Qed.

Lemma advances_add (n m : nat) (l : Lexer.t) :
  advances (n + m) l = advances m (advances n l).
Proof. revert l. induction n as [| n IH]; intros l; simpl; [ | rewrite IH ]; reflexivity. Qed.

Lemma ahead_trans (a b c : Lexer.t) : ahead a b -> ahead b c -> ahead a c.
Proof.
  intros [n Hn] [m Hm]. exists (n + m). rewrite advances_add, <- Hn. exact Hm.
Qed.

Lemma stays_ahead_bind {S A B : Type} (scanner : S -> Lexer.t)
  (m : M S A) (k : A -> M S B) (s : S) :
  stays_ahead scanner (m s) s ->
  (forall a s1, m s = Ret a s1 -> stays_ahead scanner (k a s1) s1) ->
  stays_ahead scanner (bind m k s) s.
Proof.
  unfold bind. intros Hm Hk.
  destruct (m s) as [a s1 | e s1 |]; simpl in Hm; [ | exact Hm | exact I ].
  specialize (Hk a s1 eq_refl).
  destruct (k a s1) as [b s2 | e s2 |]; simpl in *;
    [ exact (ahead_trans _ _ _ Hm Hk) | exact (ahead_trans _ _ _ Hm Hk) | exact I ].
Qed.

Lemma scan_while_ahead (fuel : nat) (keep : ascii -> bool) :
  forall (result result' : string) (l l' : Lexer.t),
    Lexer.scan_while fuel keep result l = Some (result', l') -> ahead l l'.
Proof.
  induction fuel as [| fuel IH]; intros result result' l l' H; [ discriminate | ].
  cbn [Lexer.scan_while] in H.
  destruct (Lexer.current_char l) as [c |].
  - destruct (keep c).
    + apply ahead_advance. exact (IH _ _ _ _ H).
    + inversion H. apply ahead_refl.
  - inversion H. apply ahead_refl.
Qed.

Lemma skip_block_ahead (fuel : nat) :
  forall l l', Lexer.skip_block fuel l = Some l' -> ahead l l'.
Proof.
  induction fuel as [| fuel IH]; intros l l' H; [ discriminate | ].
  cbn [Lexer.skip_block] in H.
  destruct (Lexer.current_char l) as [c |].
  - destruct ((c =? "*")%char && Lexer.is_char "/" (Lexer.peek l)).
    + inversion H. exists 2. reflexivity.
    + apply ahead_advance. exact (IH _ _ H).
  - inversion H. apply ahead_refl.
Qed.

Lemma advance_while_ahead (keep : ascii -> bool) (l : Lexer.t) :
  stays_ahead (fun l => l) (Lexer.advance_while keep l) l.
Proof.
  unfold Lexer.advance_while.
  destruct (Lexer.scan_while _ _ _ _) as [[r l'] |] eqn:E; [ | exact I ].
  exact (scan_while_ahead _ _ _ _ _ _ E).
Qed.

Lemma skip_comment_ahead (l : Lexer.t) :
  stays_ahead (fun l => l) (Lexer.skip_comment l) l.
Proof.
  unfold Lexer.skip_comment.
  destruct (Lexer.is_char "/" (Lexer.current_char l)); [ | apply ahead_refl ].
  destruct (Lexer.is_char "/" (Lexer.current_char (Lexer.advance l))).
  - pose proof (advance_while_ahead
                  (fun c => negb (c =? Lexer.newline)%char) (Lexer.advance l)) as H.
    unfold bind.
    destruct (Lexer.advance_while _ (Lexer.advance l)) as [u l2 | e l2 |];
      simpl in *; [ | apply ahead_advance; exact H | exact I ].
    apply ahead_advance. apply (ahead_trans _ _ _ H). exists 1. reflexivity.
  - destruct (Lexer.is_char "*" (Lexer.current_char (Lexer.advance l))).
    + destruct (Lexer.skip_block _ _) as [l3 |] eqn:E; [ | exact I ].
      simpl. apply ahead_advance, ahead_advance.
      exact (skip_block_ahead _ _ _ E).
    + simpl. exists 1. reflexivity.
Qed.

Lemma get_next_token_loop_ahead (fuel : nat) :
  forall l, stays_ahead (fun l => l) (Lexer.get_next_token_loop fuel l) l.
Proof.
  induction fuel as [| fuel IH]; intros l; [ exact I | ].
  cbn [Lexer.get_next_token_loop].
  destruct (Lexer.current_char l) as [c |]; [ | apply ahead_refl ].
  destruct (isspace c).
  { apply stays_ahead_bind; [ apply advance_while_ahead | intros; apply IH ]. }
  destruct (c =? "/")%char.
  { apply stays_ahead_bind; [ apply skip_comment_ahead | ].
    intros [token |] s1 _; [ apply ahead_refl | apply IH ]. }
  destruct (isdigit c || (c =? ".")%char).
  { unfold Lexer.number.
    destruct (Lexer.scan_while _ _ _ _) as [[r l1] |] eqn:E; [ | exact I ].
    apply scan_while_ahead in E.
    destruct (contains_dot r); [ destruct (Py.float r) | destruct (Py.int r) ];
      exact E. }
  destruct (c =? Lexer.quote)%char.
  { unfold Lexer.string_.
    destruct (Lexer.scan_while _ _ _ _) as [[r l1] |] eqn:E; [ | exact I ].
    apply scan_while_ahead in E. apply ahead_advance in E.
    destruct (Lexer.current_char l1); simpl; [ | exact E ].
    apply (ahead_trans _ _ _ E). exists 1. reflexivity. }
  destruct (isalpha c || (c =? "_")%char).
  { unfold Lexer.identifier.
    destruct (Lexer.scan_while _ _ _ _) as [[r l1] |] eqn:E; [ | exact I ].
    apply scan_while_ahead in E.
    destruct (r =? "true")%string; [ exact E | ].
    destruct (r =? "false")%string; exact E. }
  destruct (Lexer.single_character _ _); simpl;
    [ exists 1; reflexivity | apply ahead_refl ].
Qed.

Lemma eat_ahead (token_type : TokenType) (p : Parser.t) :
  stays_ahead Parser.lexer (Parser.eat token_type p) p.
Proof.
  unfold Parser.eat, Parser.error, raise.
  destruct (TokenType_eqb _ _); [ | apply ahead_refl ].
  pose proof (get_next_token_loop_ahead (Lexer.budget (Parser.lexer p))
                (Parser.lexer p)) as H.
  unfold Lexer.get_next_token.
  destruct (Lexer.get_next_token_loop _ _) as [token l' | e l' |]; exact H.
Qed.

Lemma eat_comma_ahead (p : Parser.t) :
  stays_ahead Parser.lexer (Parser.eat_comma p) p.
Proof.
  unfold Parser.eat_comma.
  destruct (Parser.at_token COMMA p); [ apply eat_ahead | apply ahead_refl ].
Qed.

Lemma attr_value_ahead (node : AST) (p : Parser.t) :
  stays_ahead Parser.lexer (attr_value node p) p.
Proof. destruct node; apply ahead_refl. Qed.

Ltac ahead_step :=
  first
    [ apply eat_ahead
    | apply eat_comma_ahead
    | apply attr_value_ahead
    | apply ahead_refl
    | apply stays_ahead_bind; [ | intros ? ? _ ] ].

(** The parser moves its scanner by [advance] only. *)
Lemma parser_ahead (n : nat) :
  (forall p, stays_ahead Parser.lexer (Parser.factor n p) p) /\
  (forall elements p,
     stays_ahead Parser.lexer (Parser.factor_list n elements p) p) /\
  (forall pairs p, stays_ahead Parser.lexer (Parser.factor_dict n pairs p) p) /\
  (forall p, stays_ahead Parser.lexer (Parser.term n p) p) /\
  (forall node p, stays_ahead Parser.lexer (Parser.term_loop n node p) p) /\
  (forall p, stays_ahead Parser.lexer (Parser.expr n p) p) /\
  (forall node p, stays_ahead Parser.lexer (Parser.expr_loop n node p) p).
Proof.
  induction n as [| n (Hf & Hfl & Hfd & Ht & Htl & He & Hel)].
  - repeat split; intros; exact I.
  - split; [ | split; [ | split; [ | split; [ | split; [ | split ] ] ] ] ].
    + intros p. cbn [Parser.factor].
      destruct (Token.type (Parser.current_token p));
        repeat first [ apply He | apply Hfl | apply Hfd | ahead_step ].
    + intros elements p. cbn [Parser.factor_list].
      destruct (Parser.at_token RBRACKET p);
        repeat first [ apply He | apply Hfl | ahead_step ].
    + intros pairs p. cbn [Parser.factor_dict].
      destruct (Parser.at_token RBRACE p);
        repeat first [ apply He | apply Hfd | ahead_step ].
    + intros p. cbn [Parser.term].
      repeat first [ apply Hf | apply Htl | ahead_step ].
    + intros node p. cbn [Parser.term_loop].
      destruct (Token.type (Parser.current_token p));
        repeat first [ apply Hf | apply Htl | ahead_step ].
    + intros p. cbn [Parser.expr].
      repeat first [ apply Ht | apply Hel | ahead_step ].
    + intros node p. cbn [Parser.expr_loop].
      destruct (Token.type (Parser.current_token p));
        repeat first [ apply Ht | apply Hel | ahead_step ].
Qed.

Lemma parse_ahead (n : nat) (p : Parser.t) :
  stays_ahead Parser.lexer (Parser.parse n p) p.
Proof.
  destruct (parser_ahead n) as (_ & _ & _ & _ & _ & He & _).
  unfold Parser.parse, Parser.assignment.
  apply stays_ahead_bind; [ apply He | intros left p1 _ ].
  destruct (is_Var left && Parser.at_token ASSIGN p1);
    repeat first [ apply He | ahead_step ].
Qed.

Lemma interpret_ahead (n : nat) (i : Interpreter.t) :
  stays_ahead scanner_of (Interpreter.interpret n i) i.
Proof.
  unfold Interpreter.interpret.
  apply stays_ahead_bind.
  - unfold Interpreter.on_parser, scanner_of.
    pose proof (parse_ahead n (Interpreter.parser i)) as H.
    destruct (Parser.parse n (Interpreter.parser i)) as [tree p | e p |];
      exact H.
  - intros tree i1 _. unfold Interpreter.on_symbol_table, scanner_of.
    destruct (Interpreter.visit tree (Interpreter.symbol_table i1));
      simpl; try apply ahead_refl; exact I.
Qed.

(** X20: [main] points the scanner at each new line without resetting its
    line and column. On a line without newline (as [input] gives them),
    whether the line evaluates or fails, the scanner ends on the line
    number it had before, and at the column it had before plus the
    characters it went over. So the column of the second and later lines
    of a session, and of every position reported for them, is shifted by
    what the earlier lines were long. *)
Theorem column_runs_on_across_lines
  (fuel : nat) (text : string) (i : Interpreter.t) :
  count_newlines text = 0%Z ->
  match Main.evaluate_line fuel text i with
  | Ret _ i' | Raise _ i' =>
    Lexer.line (scanner_of i') = Lexer.line (scanner_of i) /\
    Lexer.column (scanner_of i')
    = (Lexer.column (scanner_of i) + Z.of_nat (Lexer.pos (scanner_of i')))%Z
  | OutOfFuel => True
  end.
Proof.
  intros Hcount.
  set (l0 := {| Lexer.text := text; Lexer.pos := 0;
                Lexer.current_char := String.get 0 text;
                Lexer.line := Lexer.line (scanner_of i);
                Lexer.column := Lexer.column (scanner_of i) |}).
  assert (Hend : forall l', ahead l0 l' ->
            Lexer.line l' = Lexer.line (scanner_of i) /\
            Lexer.column l'
            = (Lexer.column (scanner_of i) + Z.of_nat (Lexer.pos l'))%Z).
  { intros l' [n ->].
    destruct (advances_on_one_line n l0 eq_refl Hcount) as [Hline Hcolumn].
    rewrite Hline, Hcolumn, advances_pos. split; reflexivity. }
  assert (Hstart : match Main.start_line text i with
                   | Ret _ i' | Raise _ i' => ahead l0 (scanner_of i')
                   | OutOfFuel => True
                   end).
  { unfold Main.start_line, Interpreter.on_parser. fold (scanner_of i). fold l0.
    pose proof (get_next_token_loop_ahead (Lexer.budget l0) l0) as H.
    unfold Lexer.get_next_token.
    destruct (Lexer.get_next_token_loop (Lexer.budget l0) l0)
      as [token l' | e l' |]; exact H. }
  unfold Main.evaluate_line, bind.
  destruct (Main.start_line text i) as [u i1 | e i1 |];
    [ | exact (Hend _ Hstart) | exact I ].
  pose proof (interpret_ahead fuel i1) as Hrest.
  destruct (Interpreter.interpret fuel i1) as [v i2 | e i2 |];
    [ | | exact I ]; simpl in Hrest;
    exact (Hend _ (ahead_trans _ _ _ Hstart Hrest)).
Qed.

(** The line [?] after the line [1 + 2]: the scanner is still at column 6. *)
Lemma second_line_starts_at_column_6 :
  match Main.evaluate_line 1 "?" after_1_plus_2 with
  | Ret _ i' | Raise _ i' =>
    Lexer.line (scanner_of i') = 1%Z /\
    Lexer.column (scanner_of i') = (6 + Z.of_nat (Lexer.pos (scanner_of i')))%Z
  | OutOfFuel => True
  end.
Proof.
  exact (column_runs_on_across_lines 1 "?" after_1_plus_2 eq_refl).
Defined.

End Columns.

(** The session [after_1_plus_2] is the one the line [1 + 2] leaves, and
    the line [?] on it reports column 6. *)
Lemma second_line_reports_column_6 :
  Main.run 5 "1 + 2" = Ret (Atom (PyInt 3)) after_1_plus_2 /\
  answer (Main.evaluate_line 1 "?" after_1_plus_2)
  = Some (inl (InvalidCharacter "?" 1 6)).
Proof. split; vm_compute; reflexivity. Qed.

(** * Properties of the package scanner *)

Section PackageScanner.

Local Arguments bind : simpl never.

Ltac decide_tests :=
  repeat match goal with
         | |- context [if ?b then _ else _] =>
           first [ change b with false | change b with true ]; cbv iota
         end.

Lemma advance_off_newline (l : Lexer.t) (c : ascii) :
  Lexer.current_char l = Some c ->
  (c =? Lexer.newline)%char = false ->
  Lexer.line (Lexer.advance l) = Lexer.line l /\
  Lexer.column (Lexer.advance l) = (Lexer.column l + 1)%Z.
Proof.
  intros Hc Hn. cbn [Lexer.advance Lexer.line Lexer.column].
  rewrite Hc. cbn [Lexer.is_char]. rewrite Hn. split; reflexivity.
Qed.

(** X22: the package scanner reads [=], [!], [<] and [>] with one
    character of lookahead. Followed by [=], each gives the comparison of
    two characters ([==], [!=], [<=], [>=]) and the scanner moves two
    characters on; the token's column is that of its second character.
    Otherwise [=], [<] and [>] give the token of one character, at the
    character's own column, and the next character is left unread; a [!]
    alone raises the invalid-character exception, with the column of the
    character after it, and the scanner has already moved past the [!]. *)
Theorem operator_of_one_or_two_characters
  (l : Lexer.t) (c : ascii) (double : Kex.TokenType) (single : option Kex.TokenType) :
  Lexer.current_char l = Some c ->
  operator_pair c = Some (double, single) ->
  (Lexer.current_char (Lexer.advance l) = Some "="%char ->
   Kex.get_next_token l
   = Ret (Kex.Token.make double (PyStr (String c "=")) (Lexer.line l)
            (Lexer.column l + 1))
         (advances 2 l)) /\
  (Lexer.is_char "=" (Lexer.current_char (Lexer.advance l)) = false ->
   Kex.get_next_token l
   = match single with
     | Some token_type =>
       Ret (Kex.Token.make token_type (PyStr (String c "")) (Lexer.line l)
              (Lexer.column l))
           (Lexer.advance l)
     | None =>
       Raise (InvalidCharacter c (Lexer.line l) (Lexer.column l + 1))
             (Lexer.advance l)
     end).
Proof.
  intros Hc Hpair. unfold operator_pair in Hpair.
  assert (Hline : Lexer.line (Lexer.advance l) = Lexer.line l /\
                  Lexer.column (Lexer.advance l) = (Lexer.column l + 1)%Z).
  { cbn [Lexer.advance Lexer.line Lexer.column]. rewrite Hc.
    repeat match type of Hpair with
           | context [if (c =? ?x)%char then _ else _] =>
             destruct (Ascii.eqb_spec c x) as [-> | _];
               [ split; reflexivity | ]
           end.
    discriminate. }
  destruct Hline as [Hline Hcolumn].
  unfold Kex.get_next_token, Lexer.budget. cbn [Kex.get_next_token_loop].
  rewrite Hc.
  repeat match type of Hpair with
         | context [if (c =? ?x)%char then _ else _] =>
           destruct (Ascii.eqb_spec c x) as [-> | _]
         end;
    try discriminate; inversion Hpair; subst double single; decide_tests.
  all: unfold Kex.advance_and_return, Kex.token_before.
  all: split; intros Hnext;
    [ destruct (advance_off_newline (Lexer.advance l) "=" Hnext eq_refl)
        as [Hline2 Hcolumn2];
      rewrite Hnext; cbn [Lexer.is_char];
      change ("=" =? "=")%char with true; cbv iota;
      rewrite Hline2, Hcolumn2, Hline, Hcolumn;
      cbn [advances]; f_equal; f_equal; lia
    | rewrite Hnext, Hline, Hcolumn;
      try reflexivity; f_equal; f_equal; lia ].
Qed.

(** The text [<= 1]. *)
Lemma less_or_equal_is_one_token :
  Kex.get_next_token (Lexer.init "<= 1")
  = Ret (Kex.Token.make Kex.LE (PyStr "<=") 1 2) (advances 2 (Lexer.init "<= 1")).
Proof.
  exact (proj1 (operator_of_one_or_two_characters (Lexer.init "<= 1") "<"
                  Kex.LE (Some Kex.LT) eq_refl eq_refl) eq_refl).
Defined.

(** X23: on each of the twelve characters [+ - * / ( ) [ ] { } , :] the
    package scanner returns the token of that character, with the
    character as its value and the character's line and column, and moves
    one character on. The slash is among them whatever follows it: the
    package scanner has no comments, and two slashes are two [DIV] tokens. *)
Theorem plain_character_token (l : Lexer.t) (c : ascii) (token_type : Kex.TokenType) :
  Lexer.current_char l = Some c ->
  plain_character c = Some token_type ->
  Kex.get_next_token l
  = Ret (Kex.Token.make token_type (PyStr (String c "")) (Lexer.line l)
           (Lexer.column l))
        (Lexer.advance l).
Proof.
  intros Hc Hplain. unfold plain_character in Hplain.
  assert (Hline : Lexer.line (Lexer.advance l) = Lexer.line l /\
                  Lexer.column (Lexer.advance l) = (Lexer.column l + 1)%Z).
  { apply (advance_off_newline l c Hc).
    repeat match type of Hplain with
           | context [if (c =? ?x)%char then _ else _] =>
             destruct (Ascii.eqb_spec c x) as [-> | _]; [ reflexivity | ]
           end.
    discriminate. }
  destruct Hline as [Hline Hcolumn].
  unfold Kex.get_next_token, Lexer.budget. cbn [Kex.get_next_token_loop].
  rewrite Hc.
  repeat match type of Hplain with
         | context [if (c =? ?x)%char then _ else _] =>
           destruct (Ascii.eqb_spec c x) as [-> | _]
         end;
    try discriminate; inversion Hplain; subst token_type; decide_tests;
    unfold Kex.advance_and_return, Kex.token_before;
    rewrite Hline, Hcolumn; f_equal; f_equal; lia.
Qed.

(** The first of two slashes. *)
Lemma slash_before_a_slash_is_DIV :
  Kex.get_next_token (Lexer.init "// x")
  = Ret (Kex.Token.make Kex.DIV (PyStr "/") 1 1) (Lexer.advance (Lexer.init "// x")).
Proof.
  exact (plain_character_token (Lexer.init "// x") "/" Kex.DIV eq_refl eq_refl).
Defined.

(** X24: [identifier_or_keyword] consumes the whole run of letters,
    digits and underscores under the cursor and never raises. The runs
    [if], [elif] and [else] give the keyword tokens, with the word as
    value; [true] and [false] give a [BOOLEAN]; every other run, also one
    that only starts with a keyword, gives an [IDENTIFIER] with the run as
    its value. The token's column is the offset where the run starts. *)
Theorem keyword_rule (l : Lexer.t) (pre run rest : string) :
  Lexer.text l = pre ++ run ++ rest ->
  Lexer.pos l = String.length pre ->
  in_step l ->
  all_chars word_char run = true ->
  stops word_char rest = true ->
  let l' := advances (String.length run) l in
  let start_pos := Z.of_nat (Lexer.pos l) in
  Kex.identifier_or_keyword l = Ret (keyword_token run (Lexer.line l') start_pos) l' /\
  (is_reserved run = false ->
   Kex.identifier_or_keyword l
   = Ret (Kex.Token.make Kex.IDENTIFIER (PyStr run) (Lexer.line l') start_pos) l').
Proof.
  intros Htext Hpos Hstep Hall Hstop l' start_pos.
  assert (H : Kex.identifier_or_keyword l
              = Ret (keyword_token run (Lexer.line l') start_pos) l').
  { unfold Kex.identifier_or_keyword.
    change (fun c : ascii => isalnum c || (c =? "_")%char) with word_char.
    rewrite (scan_while_run word_char run _ "" l pre rest); try assumption.
    - cbn [append]. unfold keyword_token. fold l'. fold start_pos.
      repeat match goal with
             | |- context [if ?b then _ else _] => destruct b; [ reflexivity | ]
             end.
      reflexivity.
    - apply (budget_covers l pre run rest); assumption. }
  rewrite H. split; [ reflexivity | ].
  unfold is_reserved, keyword_token. intros Hfree.
  repeat (apply orb_false_iff in Hfree; destruct Hfree as [Hfree ?]).
  repeat match goal with
         | H : (run =? _)%string = false |- _ => rewrite H; clear H
         end.
  reflexivity.
Qed.

(** The name [iffy] is an identifier. *)
Lemma iffy_is_an_identifier :
  Kex.identifier_or_keyword (Lexer.init "iffy = 1")
  = Ret (Kex.Token.make Kex.IDENTIFIER (PyStr "iffy") 1 0)
        (advances 4 (Lexer.init "iffy = 1")).
Proof.
  exact (proj2 (keyword_rule (Lexer.init "iffy = 1") "" "iffy" " = 1"
                  eq_refl eq_refl eq_refl eq_refl eq_refl) eq_refl).
Defined.

Lemma package_number_progress (l : Lexer.t) (c : ascii) :
  in_step l ->
  Lexer.current_char l = Some c ->
  isdigit c || (c =? ".")%char = true ->
  package_token_or_error (Kex.number l) l.
Proof.
  intros Hstep Hc Hk. unfold Kex.number.
  destruct (scan_while_progress (fun c => isdigit c || (c =? ".")%char)
              (Lexer.budget l) "" l Hstep (budget_suffices l))
    as (r & l' & -> & _ & Hm).
  specialize (Hm c Hc Hk).
  destruct (Py.int r); simpl; [ split; [ exact Hm | discriminate ] | reflexivity ].
Qed.

Lemma package_string_progress (l : Lexer.t) :
  package_token_or_error (Kex.string_ l) l.
Proof.
  unfold Kex.string_.
  destruct (scan_while_progress (fun c => negb (c =? Lexer.quote)%char)
              (Lexer.budget (Lexer.advance l)) "" (Lexer.advance l)
              (advance_in_step l) (budget_suffices _))
    as (r & l' & -> & Hf & _).
  simpl. split; [ | discriminate ].
  apply (moved_follows _ _ _ (moved_advance l)).
  apply moved_is_follows.
  exact (follows_moved _ _ _ Hf (moved_advance l')).
Qed.

Lemma package_identifier_progress (l : Lexer.t) (c : ascii) :
  in_step l ->
  Lexer.current_char l = Some c ->
  isalpha c || (c =? "_")%char = true ->
  package_token_or_error (Kex.identifier_or_keyword l) l.
Proof.
  intros Hstep Hc Hk. unfold Kex.identifier_or_keyword.
  destruct (scan_while_progress (fun c => isalnum c || (c =? "_")%char)
              (Lexer.budget l) "" l Hstep (budget_suffices l))
    as (r & l' & -> & _ & Hm).
  assert (Hkeep : isalnum c || (c =? "_")%char = true).
  { unfold isalnum. apply orb_true_iff in Hk. destruct Hk as [-> | ->].
    - reflexivity.
    - apply orb_true_r. }
  specialize (Hm c Hc Hkeep).
  repeat match goal with
         | |- context [if ?b then _ else _] =>
           destruct b; [ split; [ exact Hm | discriminate ] | ]
         end.
  split; [ exact Hm | discriminate ].
Qed.

Lemma package_token_or_error_scanned
  (o : outcome Lexer.t Kex.Token.t) (l : Lexer.t) :
  0 < remaining l -> package_token_or_error o l -> package_scanned o l.
Proof.
  intros Hpos. destruct o as [token l' | e l' |]; simpl; auto.
  intros [Hm Htype]. split; [ apply moved_is_follows; exact Hm | ].
  right. split; [ exact Htype | apply remaining_moved; assumption ].
Qed.

Lemma package_scanned_later (o : outcome Lexer.t Kex.Token.t) (l l1 : Lexer.t) :
  moved l l1 -> 0 < remaining l -> package_scanned o l1 -> package_scanned o l.
Proof.
  intros Hm Hpos. destruct o as [token l' | e l' |]; simpl; auto.
  intros [Hf H].
  split; [ apply moved_is_follows; exact (moved_follows _ _ _ Hm Hf) | ].
  destruct H as [H | [Htype Hless]]; [ left; exact H | right ].
  split; [ exact Htype | ].
  pose proof (remaining_moved _ _ Hm Hpos). lia.
Qed.

Lemma moved_twice (l : Lexer.t) : moved l (Lexer.advance (Lexer.advance l)).
Proof.
  apply (moved_follows _ _ _ (moved_advance l)).
  apply moved_is_follows. apply moved_advance.
Qed.

Ltac package_settle Hpos :=
  apply package_token_or_error_scanned; [ exact Hpos | ]; simpl;
  first [ reflexivity
        | split; [ first [ apply moved_advance | apply moved_twice ]
                 | discriminate ] ].

Lemma package_get_next_token_loop_scanned (fuel : nat) :
  forall l : Lexer.t,
    in_step l ->
    remaining l < fuel ->
    package_scanned (Kex.get_next_token_loop fuel l) l.
Proof.
  induction fuel as [| fuel IH]; intros l Hstep Hfuel; [ lia | ].
  cbn [Kex.get_next_token_loop].
  destruct (Lexer.current_char l) as [c |] eqn:Ec.
  2:{ simpl. split; [ apply follows_refl; exact Hstep | ].
      left. split; [ reflexivity | exact Ec ]. }
  pose proof (remaining_positive l c Hstep Ec) as Hpos.
  destruct (isspace c) eqn:Espace.
  { unfold bind, Kex.skip_whitespace.
    destruct (advance_while_progress isspace l Hstep) as (l1 & -> & Hf & Hm).
    specialize (Hm c Ec Espace).
    apply (package_scanned_later _ l l1 Hm Hpos).
    apply IH; [ apply Hm | ].
    pose proof (remaining_moved _ _ Hm Hpos). lia. }
  destruct (isalpha c || (c =? "_")%char) eqn:Ealpha.
  { apply package_token_or_error_scanned; [ exact Hpos | ].
    exact (package_identifier_progress l c Hstep Ec Ealpha). }
  destruct (isdigit c || (c =? ".")%char) eqn:Enum.
  { apply package_token_or_error_scanned; [ exact Hpos | ].
    exact (package_number_progress l c Hstep Ec Enum). }
  destruct (c =? Lexer.quote)%char.
  { apply package_token_or_error_scanned;
      [ exact Hpos | apply package_string_progress ]. }
  unfold Kex.advance_and_return, Kex.token_before.
  repeat match goal with
         | |- context [if (c =? ?x)%char then _ else _] =>
           destruct (c =? x)%char;
             [ first [ package_settle Hpos
                     | destruct (Lexer.is_char "=" (Lexer.current_char (Lexer.advance l)));
                       package_settle Hpos ]
             | ]
         end.
  simpl. reflexivity.
Qed.

(** X25: one call of the package's [get_next_token] on a scanner whose
    cached character is the one under its cursor always ends: it returns
    a token, or raises the invalid-character exception or the
    [ValueError] of [int] on a numeral with a point. It never reports an
    unterminated string. When it returns, the text is the same; [EOF] is
    returned only at the end of the text, where the scanner stays; any
    other token has cost at least one character of the text. *)
Theorem package_get_next_token_ends (l : Lexer.t) :
  in_step l ->
  match Kex.get_next_token l with
  | Ret token l' =>
    Lexer.text l' = Lexer.text l /\ in_step l' /\
    (token = Kex.Token.make Kex.EOF PyNone (Lexer.line l') (Lexer.column l') /\
     Lexer.current_char l' = None /\ Lexer.pos l <= Lexer.pos l'
     \/
     Kex.Token.type token <> Kex.EOF /\
     Lexer.pos l < Lexer.pos l' /\ Lexer.pos l < String.length (Lexer.text l))
  | Raise e _ => is_package_lexical e = true
  | OutOfFuel => False
  end.
Proof.
  intros Hstep.
  pose proof (package_get_next_token_loop_scanned (Lexer.budget l) l Hstep
                (budget_suffices l)) as Hscan.
  unfold Kex.get_next_token.
  destruct (Kex.get_next_token_loop (Lexer.budget l) l) as [token l' | e l' |];
    simpl in Hscan; [ | exact Hscan | exact Hscan ].
  destruct Hscan as [(Htext & Hstep' & Hpos) H].
  split; [ exact Htext | split; [ exact Hstep' | ] ].
  destruct H as [[Heof Hend] | [Htype Hless]].
  - left. repeat split; assumption.
  - right. unfold remaining in Hless. rewrite Htext in Hless.
    repeat split; [ exact Htype | lia | lia ].
Qed.

(** A string literal that is never closed: the package returns a token. *)
Lemma unclosed_string_is_a_token :
  match Kex.get_next_token (Lexer.init (String Lexer.quote "ab")) with
  | Ret token l' =>
    Lexer.text l' = String Lexer.quote "ab" /\ in_step l' /\
    (token = Kex.Token.make Kex.EOF PyNone (Lexer.line l') (Lexer.column l') /\
     Lexer.current_char l' = None /\ 0 <= Lexer.pos l'
     \/
     Kex.Token.type token <> Kex.EOF /\ 0 < Lexer.pos l' /\ 0 < 3)
  | Raise e _ => is_package_lexical e = true
  | OutOfFuel => False
  end.
Proof.
  exact (package_get_next_token_ends (Lexer.init (String Lexer.quote "ab")) eq_refl).
Defined.

(** [reset] gives the scanner of the constructor, whatever the scanner
    was. *)
Lemma reset_is_init (text : string) (l : Lexer.t) :
  Kex.reset text l = Lexer.init text.
Proof. reflexivity. Qed.

End PackageScanner.

(** * Termination of the parser *)

Section Termination.

Local Arguments bind : simpl never.
Local Arguments ret : simpl never.
Local Arguments Parser.eat : simpl never.
Local Arguments Parser.eat_comma : simpl never.

Lemma get_all_chars (keep : ascii -> bool) (s : string) :
  all_chars keep s = true ->
  forall n c, String.get n s = Some c -> keep c = true.
Proof.
  induction s as [| c' s IH]; intros Hall n c Hget; simpl in *;
    [ discriminate | ].
  apply andb_true_iff in Hall. destruct Hall as [Hc Hs].
  destruct n as [| n]; [ inversion Hget; subst; exact Hc | ].
  exact (IH Hs n c Hget).
Qed.

(** On a text without opening bracket the scanner returns no [LBRACKET]. *)
Lemma get_next_token_loop_no_bracket (fuel : nat) :
  forall (l l' : Lexer.t) (token : Token.t),
    in_step l ->
    all_chars not_bracket (Lexer.text l) = true ->
    Lexer.get_next_token_loop fuel l = Ret token l' ->
    Token.type token <> LBRACKET.
Proof.
  induction fuel as [| fuel IH]; intros l l' token Hstep Hfree H;
    [ discriminate | ].
  cbn [Lexer.get_next_token_loop] in H.
  destruct (Lexer.current_char l) as [c |] eqn:Ec;
    [ | inversion H; discriminate ].
  destruct (isspace c).
  { unfold bind, Lexer.skip_whitespace in H.
    destruct (advance_while_progress isspace l Hstep) as (l1 & E & Hf & _).
    rewrite E in H. destruct Hf as (Htext & Hstep1 & _).
    apply (IH _ _ _ Hstep1) in H; [ exact H | rewrite Htext; exact Hfree ]. }
  destruct (c =? "/")%char eqn:Eslash.
  { apply Ascii.eqb_eq in Eslash. subst c. unfold bind in H.
    destruct (skip_comment_progress l Ec) as (ct & l1 & E & Hm & Hdiv).
    rewrite E in H. destruct Hm as (Htext & Hstep1 & _).
    destruct ct as [comment |].
    - unfold ret in H. inversion H. subst.
      rewrite (Hdiv _ eq_refl). discriminate.
    - apply (IH _ _ _ Hstep1) in H; [ exact H | rewrite Htext; exact Hfree ]. }
  destruct (isdigit c || (c =? ".")%char).
  { unfold Lexer.number in H.
    destruct (Lexer.scan_while _ _ _ _) as [[r l1] |]; [ | discriminate ].
    destruct (contains_dot r); [ destruct (Py.float r) | destruct (Py.int r) ];
      inversion H; discriminate. }
  destruct (c =? Lexer.quote)%char.
  { unfold Lexer.string_ in H.
    destruct (Lexer.scan_while _ _ _ _) as [[r l1] |]; [ | discriminate ].
    destruct (Lexer.current_char l1); inversion H; discriminate. }
  destruct (isalpha c || (c =? "_")%char).
  { unfold Lexer.identifier in H.
    destruct (Lexer.scan_while _ _ _ _) as [[r l1] |]; [ | discriminate ].
    destruct (r =? "true")%string; [ inversion H; discriminate | ].
    destruct (r =? "false")%string; inversion H; discriminate. }
  rewrite Hstep in Ec.
  pose proof (get_all_chars not_bracket _ Hfree _ _ Ec) as Hc.
  unfold not_bracket in Hc. apply negb_true_iff in Hc.
  unfold Lexer.single_character_tokens in H.
  cbn [Lexer.single_character] in H.
  repeat match type of H with
         | context [if (c =? ?x)%char then _ else _] =>
           destruct (c =? x)%char eqn:?;
             [ inversion H; first [ discriminate | congruence ] | ]
         end.
  discriminate.
Qed.

(** The parser a successful scan leaves. *)
Lemma scanned_parser (l l' : Lexer.t) (token : Token.t) :
  in_step l ->
  all_chars not_bracket (Lexer.text l) = true ->
  Lexer.get_next_token l = Ret token l' ->
  bracket_free (Parser.make l' token) /\
  left_to_parse (Parser.make l' token) <= remaining l.
Proof.
  intros Hstep Hfree H.
  pose proof (get_next_token_scanned l Hstep) as Hscan.
  pose proof (get_next_token_loop_no_bracket _ _ _ _ Hstep Hfree H) as Hno.
  rewrite H in Hscan. simpl in Hscan.
  destruct Hscan as [(Htext & Hstep' & Hpos) Hcases].
  pose proof (remaining_follows l l' (conj Htext (conj Hstep' Hpos))) as Hle.
  unfold bracket_free, left_to_parse, Parser.at_token.
  cbn [Parser.lexer Parser.current_token].
  rewrite Htext.
  assert (Hb : TokenType_eqb (Token.type token) LBRACKET = false).
  { destruct (Token.type token); try reflexivity. exfalso. apply Hno. reflexivity. }
  destruct Hcases as [[-> Hend] | [Htype Hless]].
  - simpl. split; [ | lia ].
    split; [ exact Hstep' | split; [ exact Hfree | split; [ intros _; exact Hend | reflexivity ] ] ].
  - assert (He : TokenType_eqb (Token.type token) EOF = false).
    { destruct (Token.type token); try reflexivity. exfalso. apply Htype. reflexivity. }
    rewrite He. split; [ | lia ].
    split; [ exact Hstep' | split; [ exact Hfree | split; [ discriminate | exact Hb ] ] ].
Qed.

Lemma eat_consumes (token_type : TokenType) (p : Parser.t) :
  bracket_free p ->
  token_type <> EOF ->
  consumes (Parser.eat token_type p) p.
Proof.
  intros (Hstep & Hfree & Heof & Hb) Hkind.
  unfold Parser.eat, Parser.error, raise.
  destruct (TokenType_eqb (Token.type (Parser.current_token p)) token_type) eqn:E;
    [ | exact I ].
  assert (Hnot : Parser.at_token EOF p = false).
  { unfold Parser.at_token.
    destruct (Token.type (Parser.current_token p)), token_type;
      try discriminate; try reflexivity.
    exfalso. apply Hkind. reflexivity. }
  pose proof (get_next_token_scanned _ Hstep) as Hscan.
  destruct (Lexer.get_next_token (Parser.lexer p)) as [token l' | e l' |] eqn:En;
    [ | exact I | exact Hscan ].
  destruct (scanned_parser _ _ _ Hstep Hfree En) as (Hfree' & Hle).
  simpl. split; [ exact Hfree' | ].
  unfold left_to_parse at 2. rewrite Hnot. lia.
Qed.

Lemma consumes_settles {A : Type} (o : outcome Parser.t A) (p : Parser.t) :
  consumes o p -> settles o p.
Proof.
  destruct o as [a p' | e p' |]; simpl; auto.
  intros [H Hlt]. split; [ exact H | lia ].
Qed.

Lemma settles_ret {A : Type} (a : A) (p : Parser.t) :
  bracket_free p -> settles (Ret a p) p.
Proof. intros H. split; [ exact H | lia ]. Qed.

Lemma eat_comma_settles (p : Parser.t) :
  bracket_free p -> settles (Parser.eat_comma p) p.
Proof.
  intros Hp. unfold Parser.eat_comma.
  destruct (Parser.at_token COMMA p).
  - apply consumes_settles. apply eat_consumes; [ exact Hp | discriminate ].
  - apply settles_ret. exact Hp.
Qed.

(** Chaining: the continuation starts from a state with no more left. *)
Lemma settles_bind {A B : Type} (m : M Parser.t A) (k : A -> M Parser.t B)
  (p : Parser.t) :
  settles (m p) p ->
  (forall a p1,
     bracket_free p1 -> left_to_parse p1 <= left_to_parse p ->
     settles (k a p1) p1) ->
  settles (bind m k p) p.
Proof.
  unfold bind. intros Hm Hk.
  destruct (m p) as [a p1 | e p1 |]; simpl in Hm; [ | exact I | exact Hm ].
  destruct Hm as [Hfree Hle]. specialize (Hk a p1 Hfree Hle).
  destruct (k a p1) as [b p2 | e p2 |]; simpl in *; [ | exact I | exact Hk ].
  destruct Hk as [Hfree2 Hle2]. split; [ exact Hfree2 | lia ].
Qed.

Lemma consumes_bind {A B : Type} (m : M Parser.t A) (k : A -> M Parser.t B)
  (p : Parser.t) :
  consumes (m p) p ->
  (forall a p1,
     bracket_free p1 -> left_to_parse p1 < left_to_parse p ->
     settles (k a p1) p1) ->
  consumes (bind m k p) p.
Proof.
  unfold bind. intros Hm Hk.
  destruct (m p) as [a p1 | e p1 |]; simpl in Hm; [ | exact I | exact Hm ].
  destruct Hm as [Hfree Hlt]. specialize (Hk a p1 Hfree Hlt).
  destruct (k a p1) as [b p2 | e p2 |]; simpl in *; [ | exact I | exact Hk ].
  destruct Hk as [Hfree2 Hle2]. split; [ exact Hfree2 | lia ].
Qed.

Lemma attr_value_settles (node : AST) (p : Parser.t) :
  bracket_free p -> settles (attr_value node p) p.
Proof.
  intros Hp. destruct node; unfold attr_value, ret, raise; simpl;
    try exact I; split; try exact Hp; lia.
Qed.

(** With four units of fuel for each thing left to parse, and a few more,
    the methods of a parser on a text without opening bracket end. *)
Lemma parser_settles (n : nat) :
  (forall p, bracket_free p -> 4 * left_to_parse p + 1 <= n ->
             settles (Parser.factor n p) p) /\
  (forall pairs p, bracket_free p -> 4 * left_to_parse p + 4 <= n ->
                   settles (Parser.factor_dict n pairs p) p) /\
  (forall p, bracket_free p -> 4 * left_to_parse p + 2 <= n ->
             settles (Parser.term n p) p) /\
  (forall node p, bracket_free p -> 4 * left_to_parse p + 1 <= n ->
                  settles (Parser.term_loop n node p) p) /\
  (forall p, bracket_free p -> 4 * left_to_parse p + 3 <= n ->
             settles (Parser.expr n p) p) /\
  (forall node p, bracket_free p -> 4 * left_to_parse p + 2 <= n ->
                  settles (Parser.expr_loop n node p) p).
Proof.
  induction n as [| n (Hf & Hfd & Ht & Htl & He & Hel)].
  - repeat split; intros; lia.
  - split; [ | split; [ | split; [ | split; [ | split ] ] ] ].
    + intros p Hp Hfuel. cbn [Parser.factor].
      assert (Hb : Token.type (Parser.current_token p) <> LBRACKET).
      { destruct Hp as (_ & _ & _ & Hb). unfold Parser.at_token in Hb.
        intros E. rewrite E in Hb. discriminate. }
      destruct (Token.type (Parser.current_token p)) eqn:Htype;
        try (apply settles_ret; exact Hp);
        try (exfalso; apply Hb; reflexivity);
        apply consumes_settles;
        (apply consumes_bind;
         [ apply eat_consumes; [ exact Hp | discriminate ] | intros u p1 Hp1 Hlt ]);
        try (apply settles_ret; exact Hp1).
      * apply settles_bind; [ apply He; [ exact Hp1 | lia ] | intros node p2 Hp2 Hle ].
        apply settles_bind;
          [ apply consumes_settles, eat_consumes; [ exact Hp2 | discriminate ]
          | intros u' p3 Hp3 _; apply settles_ret; exact Hp3 ].
      * apply settles_bind; [ apply Hfd; [ exact Hp1 | lia ] | intros pairs p2 Hp2 Hle ].
        apply settles_bind;
          [ apply consumes_settles, eat_consumes; [ exact Hp2 | discriminate ]
          | intros u' p3 Hp3 _; apply settles_ret; exact Hp3 ].
    + intros pairs p Hp Hfuel. cbn [Parser.factor_dict].
      destruct (Parser.at_token RBRACE p); [ apply settles_ret; exact Hp | ].
      apply settles_bind; [ apply He; [ exact Hp | lia ] | intros key p1 Hp1 Hle1 ].
      apply consumes_settles.
      apply consumes_bind;
        [ apply eat_consumes; [ exact Hp1 | discriminate ] | intros u p2 Hp2 Hlt2 ].
      apply settles_bind; [ apply He; [ exact Hp2 | lia ] | intros value p3 Hp3 Hle3 ].
      apply settles_bind; [ apply attr_value_settles; exact Hp3 | intros kv p4 Hp4 Hle4 ].
      apply settles_bind; [ apply eat_comma_settles; exact Hp4 | intros u' p5 Hp5 Hle5 ].
      apply Hfd; [ exact Hp5 | lia ].
    + intros p Hp Hfuel. cbn [Parser.term].
      apply settles_bind; [ apply Hf; [ exact Hp | lia ] | intros node p1 Hp1 Hle ].
      apply Htl; [ exact Hp1 | lia ].
    + intros node p Hp Hfuel. cbn [Parser.term_loop].
      destruct (Token.type (Parser.current_token p)) eqn:Htype;
        try (apply settles_ret; exact Hp);
        apply consumes_settles;
        (apply consumes_bind;
         [ apply eat_consumes; [ exact Hp | discriminate ] | intros u p1 Hp1 Hlt ]);
        (apply settles_bind;
         [ apply Hf; [ exact Hp1 | lia ] | intros right p2 Hp2 Hle ]);
        (apply Htl; [ exact Hp2 | lia ]).
    + intros p Hp Hfuel. cbn [Parser.expr].
      apply settles_bind; [ apply Ht; [ exact Hp | lia ] | intros node p1 Hp1 Hle ].
      apply Hel; [ exact Hp1 | lia ].
    + intros node p Hp Hfuel. cbn [Parser.expr_loop].
      destruct (Token.type (Parser.current_token p)) eqn:Htype;
        try (apply settles_ret; exact Hp);
        apply consumes_settles;
        (apply consumes_bind;
         [ apply eat_consumes; [ exact Hp | discriminate ] | intros u p1 Hp1 Hlt ]);
        (apply settles_bind;
         [ apply Ht; [ exact Hp1 | lia ] | intros right p2 Hp2 Hle ]);
        (apply Hel; [ exact Hp2 | lia ]).
Qed.

Lemma parse_settles (n : nat) (p : Parser.t) :
  bracket_free p -> 4 * left_to_parse p + 3 <= n ->
  settles (Parser.parse n p) p.
Proof.
  destruct (parser_settles n) as (_ & _ & _ & _ & He & _).
  intros Hp Hfuel. unfold Parser.parse, Parser.assignment.
  apply settles_bind; [ apply He; assumption | intros left p1 Hp1 Hle ].
  destruct (is_Var left && Parser.at_token ASSIGN p1);
    [ | apply settles_ret; exact Hp1 ].
  apply consumes_settles.
  apply consumes_bind;
    [ apply eat_consumes; [ exact Hp1 | discriminate ] | intros u p2 Hp2 Hlt ].
  apply settles_bind; [ apply He; [ exact Hp2 | lia ] | intros right p3 Hp3 _ ].
  apply settles_ret. exact Hp3.
Qed.

Lemma bind_ends {S A B : Type} (m : M S A) (k : A -> M S B) (s : S) :
  m s <> OutOfFuel ->
  (forall a s1, m s = Ret a s1 -> k a s1 <> OutOfFuel) ->
  bind m k s <> OutOfFuel.
Proof.
  unfold bind. intros Hm Hk.
  destruct (m s) as [a s1 | e s1 |];
    [ apply Hk; reflexivity | discriminate | exfalso; apply Hm; reflexivity ].
Qed.

(** The evaluator has no loop of its own. *)
Lemma visit_always_ends (node : AST) :
  forall s, Interpreter.visit node s <> OutOfFuel.
Proof.
  induction node using AST_induction; intros s; cbn [Interpreter.visit].
  - apply bind_ends; [ apply IHnode1 | intros lv s1 _ ].
    apply bind_ends; [ apply IHnode2 | intros rv s2 _ ].
    pose proof (visit_BinOp_values_unchanged op lv rv s2) as Hsame.
    intros E. rewrite E in Hsame. exact Hsame.
  - discriminate.
  - destruct (Interpreter.is_None _); discriminate.
  - apply bind_ends; [ destruct node1; discriminate | intros name s1 _ ].
    apply bind_ends; [ apply IHnode2 | intros v s2 _ ]. discriminate.
  - apply bind_ends; [ | intros vs s1 _; discriminate ].
    revert s. induction H as [| x l Hx Hl IH]; intros s;
      cbn [Interpreter.visit_elements]; [ discriminate | ].
    apply bind_ends; [ apply Hx | intros v s1 _ ].
    apply bind_ends; [ apply IH | intros vs s2 _; discriminate ].
  - apply bind_ends; [ | intros d s1 _; discriminate ].
    generalize (@nil (atom * value)) as result. revert s.
    induction H as [| [k x] l Hx Hl IH]; intros s result;
      cbn [Interpreter.visit_items]; [ discriminate | ].
    apply bind_ends; [ apply Hx | intros v s1 _ ]. apply IH.
  - discriminate.
Qed.

(** X26: a line without opening bracket cannot hang the interpreter.
    Whatever the session, the scanner, the parser and the evaluator end on
    such a line, with a result or with an exception: four units of fuel
    for each character of the line and seven more are enough (the loop of
    a dict literal ends because each round must eat a colon; the loop of a
    list literal is the only one that can go round without consuming
    anything). So a round of [main] on such a line never hangs. *)
Theorem line_without_bracket_ends
  (fuel : nat) (text : string) (i : Interpreter.t) :
  all_chars not_bracket text = true ->
  4 * String.length text + 7 <= fuel ->
  (exists r, answer (Main.evaluate_line fuel text i) = Some r) /\
  Main.loop_round fuel text i <> Main.Hung.
Proof.
  intros Hfree Hfuel.
  assert (H : Main.evaluate_line fuel text i <> OutOfFuel).
  { unfold Main.evaluate_line.
    set (l0 := {| Lexer.text := text; Lexer.pos := 0;
                  Lexer.current_char := String.get 0 text;
                  Lexer.line := Lexer.line (scanner_of i);
                  Lexer.column := Lexer.column (scanner_of i) |}).
    assert (Hstep0 : in_step l0) by reflexivity.
    pose proof (get_next_token_scanned l0 Hstep0) as Hscan.
    unfold bind, Main.start_line, Interpreter.on_parser.
    fold (scanner_of i). fold l0.
    destruct (Lexer.get_next_token l0) as [token l' | e l' |] eqn:E;
      [ | discriminate | exfalso; exact Hscan ].
    destruct (scanned_parser l0 l' token Hstep0 Hfree E) as (Hp & Hle).
    unfold Interpreter.interpret.
    apply bind_ends.
    - unfold Interpreter.on_parser. cbn [Interpreter.parser].
      pose proof (parse_settles fuel (Parser.make l' token) Hp) as Hparse.
      assert (Hlen : remaining l0 = String.length text).
      { unfold remaining. simpl. lia. }
      specialize (Hparse ltac:(lia)).
      destruct (Parser.parse fuel (Parser.make l' token));
        [ discriminate | discriminate | exfalso; exact Hparse ].
    - intros tree i1 _. unfold Interpreter.on_symbol_table.
      pose proof (visit_always_ends tree (Interpreter.symbol_table i1)) as Hv.
      destruct (Interpreter.visit tree (Interpreter.symbol_table i1));
        [ discriminate | discriminate | exfalso; apply Hv; reflexivity ]. }
  split.
  - destruct (Main.evaluate_line fuel text i) as [v i1 | e i1 |];
      [ exists (inr v); reflexivity | exists (inl e); reflexivity | ].
    exfalso. apply H. reflexivity.
  - unfold Main.loop_round.
    destruct (Main.strip text =? "")%string; [ discriminate | ].
    destruct (Main.lower (Main.strip text) =? "exit")%string; [ discriminate | ].
    destruct (Main.evaluate_line fuel text i) as [v i1 | e i1 |];
      [ destruct (Interpreter.is_None v); discriminate | discriminate | ].
    exfalso. apply H. reflexivity.
Qed.

(** The line [(1 + 2], never closed, ends. *)
Lemma unclosed_parenthesis_ends :
  exists r, answer (Main.evaluate_line 31 "(1 + 2" Main.fresh) = Some r.
Proof.
  exact (proj1 (line_without_bracket_ends 31 "(1 + 2" Main.fresh
                  eq_refl (le_n 31))).
Defined.

End Termination.

Section PackageLiterals.

(** X27: the package's [number] consumes the whole run of digits and
    points under the cursor, as the scanner of [kex_main.py] does, but it
    knows no float: a run of decimal digits gives an [INTEGER] with their
    value, and every run with a point in it raises the [ValueError] of
    [int]. The token's column is the scanner's column after the run. *)
Theorem package_number_rule (l : Lexer.t) (pre run rest : string) :
  Lexer.text l = pre ++ run ++ rest ->
  Lexer.pos l = String.length pre ->
  in_step l ->
  all_chars numeral_char run = true ->
  stops numeral_char rest = true ->
  let l' := advances (String.length run) l in
  (run <> "" -> all_decimal run = true ->
   Kex.number l
   = Ret (Kex.Token.make Kex.INTEGER (PyInt (digits_value 0 run))
            (Lexer.line l') (Lexer.column l'))
         l') /\
  (1 <= count_dots run -> Kex.number l = Raise (ValueError run) l').
Proof.
  intros Htext Hpos Hstep Hall Hstop l'.
  assert (H : Kex.number l
              = match Py.int run with
                | Some z =>
                  Ret (Kex.Token.make Kex.INTEGER (PyInt z)
                         (Lexer.line l') (Lexer.column l')) l'
                | None => Raise (ValueError run) l'
                end).
  { unfold Kex.number.
    change (fun c : ascii => isdigit c || (c =? ".")%char) with numeral_char.
    rewrite (scan_while_run numeral_char run _ "" l pre rest); try assumption.
    - reflexivity.
    - apply (budget_covers l pre run rest); assumption. }
  rewrite H. split.
  - intros Hne Hdec. rewrite (int_of_decimal run Hne Hdec). reflexivity.
  - intros Hdots. unfold Py.int. destruct run as [| c run]; [ simpl in Hdots; lia | ].
    destruct (all_decimal (String c run)) eqn:E; [ | reflexivity ].
    apply all_decimal_no_dots in E. lia.
Qed.

(** The numeral [1.5]. *)
Lemma package_rejects_1_5 :
  Kex.number (Lexer.init "1.5 + 2")
  = Raise (ValueError "1.5") (advances 3 (Lexer.init "1.5 + 2")).
Proof.
  exact (proj2 (package_number_rule (Lexer.init "1.5 + 2") "" "1.5" " + 2"
                  eq_refl eq_refl eq_refl eq_refl eq_refl)
               (le_n 1)).
Defined.

(** X28: the package's [string] never raises. At an opening quote it
    consumes the characters up to the next quote or, when there is none,
    to the end of the text, and one position more; the token is a
    [STRING] with the characters read, exactly as they stand, and its
    line and column are the scanner's after that last step. On an
    unterminated literal the scanner is left one position past the end of
    the text. *)
Theorem package_string_rule (l : Lexer.t) (pre body rest : string) :
  Lexer.text l = pre ++ String Lexer.quote (body ++ rest) ->
  Lexer.pos l = String.length pre ->
  all_chars not_quote body = true ->
  stops not_quote rest = true ->
  let l' := advances (2 + String.length body) l in
  Kex.string_ l
  = Ret (Kex.Token.make Kex.STRING (PyStr body) (Lexer.line l') (Lexer.column l')) l' /\
  (rest = "" -> Lexer.pos l' = S (String.length (Lexer.text l))).
Proof.
  intros Htext Hpos Hall Hstop l'.
  assert (Htext0 : Lexer.text (Lexer.advance l)
                   = (pre ++ String Lexer.quote "") ++ body ++ rest).
  { rewrite advance_text, Htext, append_associative. reflexivity. }
  assert (Hpos0 : Lexer.pos (Lexer.advance l)
                  = String.length (pre ++ String Lexer.quote "")).
  { rewrite advance_pos, Hpos, length_of_append. simpl. lia. }
  split.
  - unfold Kex.string_.
    change (fun c : ascii => negb (c =? Lexer.quote)%char) with not_quote.
    rewrite (scan_while_run not_quote body _ "" (Lexer.advance l)
               (pre ++ String Lexer.quote "") rest);
      try solve [ reflexivity | assumption | apply advance_in_step ].
    + cbn [append]. unfold l'. cbn [Nat.add].
      rewrite advances_last. reflexivity.
    + apply (budget_covers _ (pre ++ String Lexer.quote "") body rest);
        assumption.
  - intros ->. unfold l'. rewrite advances_pos, Htext, Hpos.
    rewrite length_of_append. simpl. rewrite length_of_append. simpl. lia.
Qed.

(** A literal that is never closed. *)
Lemma package_reads_an_unclosed_string :
  Kex.string_ (Lexer.init (String Lexer.quote "abc"))
  = Ret (Kex.Token.make Kex.STRING (PyStr "abc") 1 6)
        (advances 5 (Lexer.init (String Lexer.quote "abc"))).
Proof.
  exact (proj1 (package_string_rule (Lexer.init (String Lexer.quote "abc"))
                  "" "abc" "" eq_refl eq_refl eq_refl eq_refl)).
Defined.

End PackageLiterals.

(** * Properties of the package parser *)

Section PackageParser.

Local Arguments KexParser.and_then : simpl never.
Local Arguments KexParser.eat : simpl never.

Lemma package_eat_consumes (token_type : Kex.TokenType) (p : KexParser.t) :
  in_step (KexParser.lexer p) ->
  token_type <> Kex.EOF ->
  package_consumes (KexParser.eat token_type p) p.
Proof.
  intros Hstep Hkind. unfold KexParser.eat, KexParser.error.
  destruct (KexParser.TokenType_eqb
              (Kex.Token.type (KexParser.current_token p)) token_type) eqn:E;
    [ | exact I ].
  assert (Hnot : KexParser.TokenType_eqb
                   (Kex.Token.type (KexParser.current_token p)) Kex.EOF = false).
  { destruct (Kex.Token.type (KexParser.current_token p)), token_type;
      try discriminate; try reflexivity.
    exfalso. apply Hkind. reflexivity. }
  pose proof (package_get_next_token_loop_scanned
                (Lexer.budget (KexParser.lexer p)) (KexParser.lexer p) Hstep
                (budget_suffices _)) as Hscan.
  unfold Kex.get_next_token.
  destruct (Kex.get_next_token_loop _ _) as [token l' | e l' |];
    simpl in Hscan; [ | exact I | exact Hscan ].
  destruct Hscan as [(Htext & Hstep' & Hpos) Hcases].
  pose proof (remaining_follows _ l' (conj Htext (conj Hstep' Hpos))) as Hle.
  simpl. split; [ exact Hstep' | ].
  unfold package_left_to_parse. cbn [KexParser.lexer KexParser.current_token].
  rewrite Hnot.
  destruct Hcases as [[-> _] | [Htype Hless]]; [ simpl; lia | ].
  destruct (KexParser.TokenType_eqb (Kex.Token.type token) Kex.EOF); lia.
Qed.

Lemma package_consumes_settles {A : Type} (o : KexParser.result A) (p : KexParser.t) :
  package_consumes o p -> package_settles o p.
Proof.
  destruct o as [a p' | e p' |]; simpl; auto.
  intros [H Hlt]. split; [ exact H | lia ].
Qed.

Lemma package_settles_then {A B : Type}
  (m : KexParser.run A) (k : A -> KexParser.run B) (p : KexParser.t) :
  package_settles (m p) p ->
  (forall a p1,
     in_step (KexParser.lexer p1) ->
     package_left_to_parse p1 <= package_left_to_parse p ->
     package_settles (k a p1) p1) ->
  package_settles (KexParser.and_then m k p) p.
Proof.
  unfold KexParser.and_then. intros Hm Hk.
  destruct (m p) as [a p1 | e p1 |]; simpl in Hm; [ | exact I | exact Hm ].
  destruct Hm as [Hstep Hle]. specialize (Hk a p1 Hstep Hle).
  destruct (k a p1) as [b p2 | e p2 |]; simpl in *; [ | exact I | exact Hk ].
  destruct Hk as [Hstep2 Hle2]. split; [ exact Hstep2 | lia ].
Qed.

Lemma package_consumes_then {A B : Type}
  (m : KexParser.run A) (k : A -> KexParser.run B) (p : KexParser.t) :
  package_consumes (m p) p ->
  (forall a p1,
     in_step (KexParser.lexer p1) ->
     package_left_to_parse p1 < package_left_to_parse p ->
     package_settles (k a p1) p1) ->
  package_consumes (KexParser.and_then m k p) p.
Proof.
  unfold KexParser.and_then. intros Hm Hk.
  destruct (m p) as [a p1 | e p1 |]; simpl in Hm; [ | exact I | exact Hm ].
  destruct Hm as [Hstep Hlt]. specialize (Hk a p1 Hstep Hlt).
  destruct (k a p1) as [b p2 | e p2 |]; simpl in *; [ | exact I | exact Hk ].
  destruct Hk as [Hstep2 Hle2]. split; [ exact Hstep2 | lia ].
Qed.

Lemma package_settles_pure {A : Type} (a : A) (p : KexParser.t) :
  in_step (KexParser.lexer p) -> package_settles (KexParser.pure a p) p.
Proof. intros H. split; [ exact H | lia ]. Qed.

Ltac eats Hp :=
  apply package_consumes_settles;
  apply package_consumes_then;
  [ apply package_eat_consumes; [ exact Hp | discriminate ] | ].

Lemma package_variable_settles (p : KexParser.t) :
  in_step (KexParser.lexer p) ->
  package_consumes (KexParser.variable p) p.
Proof.
  intros Hp. unfold KexParser.variable.
  apply package_consumes_then;
    [ apply package_eat_consumes; [ exact Hp | discriminate ] | ].
  intros u p1 Hp1 _. apply package_settles_pure. exact Hp1.
Qed.

(** With two units of fuel for each thing left to parse, and two more,
    [term] and [expr] end. *)
Lemma package_parser_settles (n : nat) :
  (forall p, in_step (KexParser.lexer p) ->
             2 * package_left_to_parse p + 1 <= n ->
             package_settles (KexParser.term n p) p) /\
  (forall p, in_step (KexParser.lexer p) ->
             2 * package_left_to_parse p + 2 <= n ->
             package_settles (KexParser.expr n p) p) /\
  (forall node p, in_step (KexParser.lexer p) ->
                  2 * package_left_to_parse p + 1 <= n ->
                  package_settles (KexParser.expr_loop n node p) p).
Proof.
  induction n as [| n (Ht & He & Hel)].
  - repeat split; intros; lia.
  - split; [ | split ].
    + intros p Hp Hfuel. cbn [KexParser.term].
      destruct (Kex.Token.type (KexParser.current_token p));
        try exact I;
        try (apply package_consumes_settles, package_variable_settles; exact Hp);
        eats Hp; intros u p1 Hp1 Hlt;
        try (apply package_settles_pure; exact Hp1).
      apply package_settles_then; [ apply He; [ exact Hp1 | lia ] | ].
      intros node p2 Hp2 Hle. eats Hp2.
      intros u' p3 Hp3 _. apply package_settles_pure. exact Hp3.
    + intros p Hp Hfuel. cbn [KexParser.expr].
      apply package_settles_then; [ apply Ht; [ exact Hp | lia ] | ].
      intros node p1 Hp1 Hle. apply Hel; [ exact Hp1 | lia ].
    + intros node p Hp Hfuel. cbn [KexParser.expr_loop].
      destruct (Kex.Token.type (KexParser.current_token p));
        try (split; [ exact Hp | lia ]);
        eats Hp; intros u p1 Hp1 Hlt;
        (apply package_settles_then; [ apply Ht; [ exact Hp1 | lia ] | ]);
        intros right p2 Hp2 Hle; (apply Hel; [ exact Hp2 | lia ]).
Qed.

(** [parse] ends, and not by returning. *)
Lemma package_parse_raises (fuel : nat) (p : KexParser.t) :
  in_step (KexParser.lexer p) ->
  2 * package_left_to_parse p + 2 <= fuel ->
  package_raises (KexParser.parse fuel p).
Proof.
  intros Hp Hfuel.
  destruct (package_parser_settles fuel) as (_ & He & _).
  unfold KexParser.parse, KexParser.assignment, KexParser.and_then.
  pose proof (package_variable_settles p Hp) as Hvar.
  destruct (KexParser.variable p) as [node p1 | e p1 |];
    simpl in Hvar; [ | exact I | exact Hvar ].
  destruct Hvar as [Hp1 Hlt1].
  pose proof (package_eat_consumes Kex.ASSIGN p1 Hp1 ltac:(discriminate)) as Heat.
  destruct (KexParser.eat Kex.ASSIGN p1) as [u p2 | e p2 |];
    simpl in Heat; [ | exact I | exact Heat ].
  destruct Heat as [Hp2 Hlt2].
  pose proof (He p2 Hp2 ltac:(lia)) as Hexpr.
  destruct (KexParser.expr fuel p2) as [right p3 | e p3 |];
    simpl in Hexpr; [ exact I | exact I | exact Hexpr ].
Qed.

Lemma package_parse_returns_nothing
  (fuel : nat) (p p' : KexParser.t) (tree : KexParser.AST) :
  KexParser.parse fuel p <> KexParser.Returned tree p'.
Proof.
  unfold KexParser.parse, KexParser.assignment, KexParser.and_then.
  destruct (KexParser.variable p) as [node p1 | e p1 |]; try discriminate.
  destruct (KexParser.eat Kex.ASSIGN p1) as [u p2 | e p2 |]; try discriminate.
  destruct (KexParser.expr fuel p2) as [right p3 | e p3 |]; discriminate.
Qed.

(** X29: the parser of the package accepts no line. [parse] goes straight
    to [assignment], which builds its node without the operator that the
    node's constructor requires; so a line that is not of the form
    [name = expression] raises the parser's or the scanner's exception,
    and a line of that form raises the [TypeError] of the constructor.
    Whatever the line and whatever the parser held before, reading the
    line ends (two units of fuel for each character and four more are
    enough) and ends with an exception: no tree ever reaches the
    evaluator. *)
Theorem package_parser_accepts_no_line
  (fuel : nat) (text : string) (p : KexParser.t) :
  2 * String.length text + 4 <= fuel ->
  (exists e p', KexParser.read_line fuel text p = KexParser.Raised e p') /\
  (forall fuel' tree p',
     KexParser.read_line fuel' text p <> KexParser.Returned tree p').
Proof.
  intros Hfuel. unfold KexParser.read_line, KexParser.and_then, KexParser.reset.
  cbn [KexParser.lexer KexParser.current_token].
  set (l0 := Kex.reset text (KexParser.lexer p)).
  assert (Hstep0 : in_step l0) by reflexivity.
  assert (Hlen : remaining l0 = String.length text).
  { unfold remaining. simpl. lia. }
  pose proof (package_get_next_token_loop_scanned (Lexer.budget l0) l0 Hstep0
                (budget_suffices _)) as Hscan.
  unfold Kex.get_next_token.
  destruct (Kex.get_next_token_loop (Lexer.budget l0) l0) as [token l' | e l' |];
    simpl in Hscan.
  - destruct Hscan as [(Htext & Hstep' & Hpos) Hcases].
    split.
    + assert (Hleft : package_left_to_parse (KexParser.make l' token)
                      <= String.length text + 1).
      { pose proof (remaining_follows _ l' (conj Htext (conj Hstep' Hpos))) as Hle.
        unfold package_left_to_parse.
        cbn [KexParser.lexer KexParser.current_token].
        destruct (KexParser.TokenType_eqb (Kex.Token.type token) Kex.EOF); lia. }
      pose proof (package_parse_raises fuel (KexParser.make l' token) Hstep'
                    ltac:(lia)) as Hraise.
      destruct (KexParser.parse fuel (KexParser.make l' token)) as [a p1 | e p1 |];
        simpl in Hraise; try contradiction.
      exists e, p1. reflexivity.
    + intros fuel' tree p'. apply package_parse_returns_nothing.
  - split; [ eexists _, _; reflexivity | intros; discriminate ].
  - contradiction.
Qed.

(** The line [x = 1] on the parser as [main] creates it. *)
Lemma package_rejects_an_assignment :
  exists e p',
    KexParser.read_line 14 "x = 1"
      (KexParser.make (Lexer.init "") (Kex.Token.make Kex.EOF PyNone 1 1))
    = KexParser.Raised e p'.
Proof.
  exact (proj1 (package_parser_accepts_no_line 14 "x = 1"
                  (KexParser.make (Lexer.init "") (Kex.Token.make Kex.EOF PyNone 1 1))
                  (le_n 14))).
Defined.

(** What the two kinds of line raise: an assignment fails in the
    constructor of its node, any other line in [variable]. *)
Lemma package_exceptions_of_two_lines :
  (exists p',
     KexParser.read_line 14 "x = 1"
       (KexParser.make (Lexer.init "") (Kex.Token.make Kex.EOF PyNone 1 1))
     = KexParser.Raised (KexParser.MissingArgument "Assign" "op") p') /\
  (exists p',
     KexParser.read_line 14 "1 + 2"
       (KexParser.make (Lexer.init "") (Kex.Token.make Kex.EOF PyNone 1 1))
     = KexParser.Raised
         (KexParser.ParserError (KexParser.Kind Kex.IDENTIFIER) Kex.INTEGER) p').
Proof. split; eexists; vm_compute; reflexivity. Qed.

End PackageParser.

(** * Dict literals *)

Section DictLiterals.

Local Arguments bind : simpl never.
Local Arguments ret : simpl never.
Local Arguments Parser.eat : simpl never.
Local Arguments Parser.eat_comma : simpl never.

(** On keys that are no floats, [==] is the equality of their codes. *)
Lemma eqb_plain (a b : atom) :
  plain_key a = true -> plain_key b = true ->
  eqb a b = true <-> key_code a = key_code b.
Proof.
  intros Ha Hb.
  destruct a, b; try discriminate; unfold eqb; simpl; split; intros H;
    try discriminate; try reflexivity;
    try (apply Z.eqb_eq in H; rewrite H; reflexivity);
    try (apply String.eqb_eq in H; rewrite H; reflexivity);
    try (injection H as H; apply Z.eqb_eq; exact H);
    try (injection H as H; apply String.eqb_eq; exact H).
Qed.

Lemma eqb_plain_same (a b c : atom) :
  plain_key a = true -> plain_key b = true -> plain_key c = true ->
  eqb a b = true -> eqb a c = eqb b c.
Proof.
  intros Ha Hb Hc Hab. apply (eqb_plain a b Ha Hb) in Hab.
  destruct (eqb a c) eqn:Eac, (eqb b c) eqn:Ebc; try reflexivity.
  - apply (eqb_plain a c Ha Hc) in Eac.
    assert (H : eqb b c = true) by (apply (eqb_plain b c Hb Hc); congruence).
    congruence.
  - apply (eqb_plain b c Hb Hc) in Ebc.
    assert (H : eqb a c = true) by (apply (eqb_plain a c Ha Hc); congruence).
    congruence.
Qed.

Section Filing.

Context {V : Type}.

(** Lookup after an assignment, on keys that are no floats. *)
Lemma dict_get_after_set (d : dict V) (k1 k : atom) (v1 : V) :
  forallb (fun kv => plain_key (fst kv)) d = true ->
  plain_key k1 = true -> plain_key k = true ->
  dict_get (dict_set d k1 v1) k
  = if eqb k1 k then Some v1 else dict_get d k.
Proof.
  intros Hd Hk1 Hk.
  induction d as [| [k' v'] d IH]; cbn [dict_get dict_set]; [ reflexivity | ].
  simpl in Hd. apply andb_true_iff in Hd. destruct Hd as [Hk' Hd].
  destruct (eqb k' k1) eqn:E; cbn [dict_get].
  - rewrite (eqb_plain_same k' k1 k Hk' Hk1 Hk E).
    destruct (eqb k1 k); reflexivity.
  - rewrite (IH Hd).
    destruct (eqb k' k) eqn:Ek; [ | reflexivity ].
    destruct (eqb k1 k) eqn:E1; [ | reflexivity ].
    exfalso.
    apply (eqb_plain k' k Hk' Hk) in Ek. apply (eqb_plain k1 k Hk1 Hk) in E1.
    assert (H : eqb k' k1 = true) by (apply (eqb_plain k' k1 Hk' Hk1); congruence).
    congruence.
Qed.

Lemma dict_get_app (d1 d2 : dict V) (k : atom) :
  dict_get (d1 ++ d2)%list k
  = match dict_get d1 k with
    | Some v => Some v
    | None => dict_get d2 k
    end.
Proof.
  induction d1 as [| [k' v'] d1 IH]; simpl; [ reflexivity | ].
  destruct (eqb k' k); [ reflexivity | exact IH ].
Qed.

(** The last pair filed under a key is the one found. *)
Lemma file_pairs_last_wins (items : list (atom * V)) :
  forall (pairs : dict V) (k : atom),
    forallb (fun kv => plain_key (fst kv)) items = true ->
    forallb (fun kv => plain_key (fst kv)) pairs = true ->
    plain_key k = true ->
    dict_get (file_pairs items pairs) k
    = match dict_get (rev items) k with
      | Some v => Some v
      | None => dict_get pairs k
      end.
Proof.
  unfold file_pairs.
  induction items as [| [k1 v1] items IH]; intros pairs k Hitems Hpairs Hk;
    cbn [fold_left rev]; [ reflexivity | ].
  simpl in Hitems. apply andb_true_iff in Hitems. destruct Hitems as [Hk1 Hitems].
  cbn [fst snd].
  rewrite (IH (dict_set pairs k1 v1) k Hitems
             (dict_set_keeps_keys plain_key pairs k1 v1 Hpairs Hk1) Hk).
  rewrite dict_get_app.
  destruct (dict_get (rev items) k); [ reflexivity | ].
  rewrite (dict_get_after_set pairs k1 k v1 Hpairs Hk1 Hk).
  cbn [dict_get]. destruct (eqb k1 k); reflexivity.
Qed.

Lemma file_pairs_distinct (items : list (atom * V)) :
  forall pairs : dict V,
    distinct_keys pairs = true -> distinct_keys (file_pairs items pairs) = true.
Proof.
  unfold file_pairs.
  induction items as [| [k1 v1] items IH]; intros pairs H; cbn [fold_left];
    [ exact H | ].
  apply IH. apply dict_set_distinct. exact H.
Qed.

End Filing.

(** The loop of a dict literal files each pair it reads, in source order. *)
Lemma factor_dict_files_pairs (n : nat) (p p' : Parser.t)
  (items : list (atom * AST)) :
  reads_pairs n p items p' ->
  forall (start : dict AST) (extra : nat),
    Parser.factor_dict (n + S (List.length items) + extra) start p
    = Ret (file_pairs items start) p'.
Proof.
  induction 1 as [p Hclose | p p1 p2 p3 p4 p' key value k items
                              Hopen Hkey Hcolon Hvalue Hattr Hcomma Hrest IH];
    intros start extra.
  - replace (n + S (List.length (@nil (atom * AST))) + extra)
      with (S (n + extra)) by (simpl; lia).
    cbn [Parser.factor_dict]. rewrite Hclose. reflexivity.
  - replace (n + S (List.length ((k, value) :: items)) + extra)
      with (S (n + S (List.length items) + extra)) by (simpl; lia).
    cbn [Parser.factor_dict]. rewrite Hopen.
    replace (n + S (List.length items) + extra)
      with (n + (S (List.length items) + extra)) by lia.
    unfold bind.
    rewrite (expr_with_more_fuel n _ p p1 key Hkey), Hcolon,
      (expr_with_more_fuel n _ p2 p3 value Hvalue), Hattr, Hcomma.
    replace (n + (S (List.length items) + extra))
      with (n + S (List.length items) + extra) by lia.
    apply IH.
Qed.

(** The comprehension of [visit_DictExpr] on pairs with distinct keys and
    values free of assignments, pair by pair in their order, each on the
    same table: when it returns, the keys are there in their order, each
    with the value of its expression; when it raises, the exception is
    that of the first value expression that fails. *)
Lemma visit_items_in_order (items : dict AST) :
  forall (result : dict value) (s : SymbolTable.t),
    distinct_keys items = true ->
    values_assign_free items = true ->
    (forall k, In k (map fst items) -> key_absent result k = true) ->
    match Interpreter.visit_items Interpreter.visit items result s with
    | Ret d s' =>
      s' = s /\
      exists evaluated,
        d = (result ++ evaluated)%list /\
        Forall2 (fun kv item =>
                   fst item = fst kv /\
                   Interpreter.visit (snd kv) s = Ret (snd item) s)
                items evaluated
    | Raise e s' =>
      s' = s /\
      exists before failing after evaluated,
        items = (before ++ failing :: after)%list /\
        Forall2 (fun kv item =>
                   fst item = fst kv /\
                   Interpreter.visit (snd kv) s = Ret (snd item) s)
                before evaluated /\
        Interpreter.visit (snd failing) s = Raise e s
    | OutOfFuel => False
    end.
Proof.
  unfold values_assign_free.
  induction items as [| [k node] items IH];
    intros result s Hdistinct Hfree Hfresh;
    cbn [Interpreter.visit_items].
  - unfold ret. split; [ reflexivity | ].
    exists []. split; [ rewrite app_nil_r; reflexivity | constructor ].
  - simpl in Hdistinct, Hfree.
    apply andb_true_iff in Hdistinct. destruct Hdistinct as [Hk Hitems].
    apply andb_true_iff in Hfree. destruct Hfree as [Hnode Hfree].
    pose proof (visit_without_assign node Hnode s) as Hsame.
    unfold bind.
    destruct (Interpreter.visit node s) as [v s1 | e s1 |] eqn:Evisit;
      simpl in Hsame.
    + subst s1.
      rewrite (dict_set_absent result k v)
        by (apply Hfresh; left; reflexivity).
      assert (Hnext : forall k', In k' (map fst items) ->
                key_absent (result ++ [(k, v)])%list k' = true).
      { intros k' Hin.
        pose proof (Hfresh k' (or_intror Hin)) as Hf.
        unfold key_absent in *. rewrite forallb_app, Hf. simpl.
        rewrite forallb_forall in Hk.
        apply in_map_iff in Hin. destruct Hin as [[k1 n1] [<- Hin]].
        rewrite (Hk _ Hin). reflexivity. }
      specialize (IH (result ++ [(k, v)])%list s Hitems Hfree Hnext).
      destruct (Interpreter.visit_items Interpreter.visit items
                  (result ++ [(k, v)])%list s) as [d s2 | e s2 |].
      * destruct IH as (-> & evaluated & -> & Hall). split; [ reflexivity | ].
        exists ((k, v) :: evaluated).
        split; [ rewrite <- app_assoc; reflexivity | ].
        constructor; [ split; [ reflexivity | exact Evisit ] | exact Hall ].
      * destruct IH as (-> & before & failing & after & evaluated
                        & Heq & Hbefore & Hfail).
        split; [ reflexivity | ].
        exists ((k, node) :: before), failing, after, ((k, v) :: evaluated).
        split; [ rewrite Heq; reflexivity | ].
        split; [ | exact Hfail ].
        constructor; [ split; [ reflexivity | exact Evisit ] | exact Hbefore ].
      * exact IH.
    + subst s1. split; [ reflexivity | ].
      exists [], (k, node), items, [].
      split; [ reflexivity | split; [ apply Forall2_nil | exact Evisit ] ].
    + exact Hsame.
Qed.

(** What [parse] returns as a dict literal holds no assignment. *)
Lemma parsed_dict_values (fuel : nat) (p p' : Parser.t) (parsed : dict AST) :
  Parser.parse fuel p = Ret (DictExpr parsed) p' ->
  distinct_keys parsed = true /\ values_assign_free parsed = true.
Proof.
  intros Hparse.
  assert (Hfree : assign_free (DictExpr parsed) = true).
  { destruct (parse_returns_statement _ _ _ _ Hparse)
      as [H | (token & op & right & H & _)]; [ exact H | discriminate ]. }
  assert (Hdistinct : dicts_distinct (DictExpr parsed) = true).
  { destruct (parser_builds_distinct_dicts fuel) as (_ & _ & _ & _ & _ & He & _).
    unfold Parser.parse, Parser.assignment in Hparse.
    apply bind_Ret in Hparse. destruct Hparse as (left & p1 & Hleft & H).
    destruct (is_Var left && Parser.at_token ASSIGN p1).
    - apply bind_Ret in H. destruct H as (u & p2 & _ & H).
      apply bind_Ret in H. destruct H as (right & p3 & _ & H).
      unfold ret in H. inversion H.
    - inversion H. subst. exact (He _ _ _ Hleft). }
  cbn [dicts_distinct] in Hdistinct.
  apply andb_true_iff in Hdistinct. destruct Hdistinct as [Hkeys _].
  split; [ exact Hkeys | exact Hfree ].
Qed.

(** C9, as the code has it: the parser files each pair of a dict literal
    at once in a dict keyed by the key node's [value]. A pair whose key is
    already there takes the place of the earlier one: the key stays where
    it first stood, the value expression is the later one, and the dict
    grows by nothing; a pair whose key is new goes last. The loop of the
    literal does this for each pair it reads, in source order, whatever
    the keys and the value expressions are, and [factor] returns the dict
    so filled: its keys are pairwise different, and under each key that
    is no float it holds the value expression of the last pair read with
    that key. So [{"a": 1, "a": 2}] parses to a single pair, with the
    expression [2], and [{"a": 1, "b": 2, "a": 3}] to the pair of ["a"]
    with the expression [3] followed by the pair of ["b"]; they evaluate
    to the dicts with 2 under ["a"], and with 3 under ["a"] and 2 under
    ["b"]. A key is never evaluated: an identifier key stands for its own
    name, bound or not. The evaluation of a parsed dict takes the pairs
    that are left in their order, each value expression on the same
    table: when it returns, the dict has the keys in that order, each
    with the value of its expression; when it raises, the exception is
    that of the first value expression that fails. Either way the table
    is left as it was. *)
Theorem dict_literal_collapses_at_parse_time
  (pairs : dict AST) (key : atom) (earlier later : AST) :
  dict_get pairs key = Some earlier ->
  dict_get (dict_set pairs key later) key = Some later /\
  map fst (dict_set pairs key later) = map fst pairs /\
  (forall extra,
     answer (parse_line (8 + extra) dict_with_a_twice)
     = Some (inr (DictExpr [(PyStr "a", Num (integer_token 2 14))]))) /\
  (forall extra,
     answer (Main.run (8 + extra) dict_with_a_twice)
     = Some (inr (PyDict [(PyStr "a", Atom (PyInt 2))]))) /\
  (forall extra,
     answer (Main.run (7 + extra) "{a: 1}")
     = Some (inr (PyDict [(PyStr "a", Atom (PyInt 1))]))) /\
  (forall (s s' : SymbolTable.t) (d : dict value),
     distinct_keys pairs = true ->
     Interpreter.visit (DictExpr pairs) s = Ret (PyDict d) s' ->
     map fst d = map fst pairs) /\
  (forall (k : atom) (v : AST),
     key_absent pairs k = true -> dict_set pairs k v = (pairs ++ [(k, v)])%list) /\
  (forall n p items p',
     reads_pairs n p items p' ->
     forall start extra,
       Parser.factor_dict (n + S (List.length items) + extra) start p
       = Ret (file_pairs items start) p') /\
  (forall n p0 p items p' p_end,
     Token.type (Parser.current_token p0) = LBRACE ->
     Parser.eat LBRACE p0 = Ret tt p ->
     reads_pairs n p items p' ->
     Parser.eat RBRACE p' = Ret tt p_end ->
     forall extra,
       Parser.factor (n + S (S (List.length items)) + extra) p0
       = Ret (DictExpr (file_pairs items [])) p_end) /\
  (forall items : list (atom * AST),
     distinct_keys (file_pairs items []) = true) /\
  (forall (items : list (atom * AST)) (k : atom),
     forallb (fun kv => plain_key (fst kv)) items = true ->
     plain_key k = true ->
     dict_get (file_pairs items []) k = dict_get (rev items) k) /\
  (forall fuel p p' parsed s,
     Parser.parse fuel p = Ret (DictExpr parsed) p' ->
     match Interpreter.visit (DictExpr parsed) s with
     | Ret v s' =>
       s' = s /\
       exists d,
         v = PyDict d /\
         Forall2 (fun kv item =>
                    fst item = fst kv /\
                    Interpreter.visit (snd kv) s = Ret (snd item) s)
                 parsed d
     | Raise e s' =>
       s' = s /\
       exists before failing after evaluated,
         parsed = (before ++ failing :: after)%list /\
         Forall2 (fun kv item =>
                    fst item = fst kv /\
                    Interpreter.visit (snd kv) s = Ret (snd item) s)
                 before evaluated /\
         Interpreter.visit (snd failing) s = Raise e s
     | OutOfFuel => False
     end) /\
  (forall extra,
     answer (parse_line (9 + extra) dict_with_three_pairs)
     = Some (inr (DictExpr [(PyStr "a", Num (integer_token 3 22));
                            (PyStr "b", Num (integer_token 2 14))])) /\
     answer (Main.run (9 + extra) dict_with_three_pairs)
     = Some (inr (PyDict [(PyStr "a", Atom (PyInt 3));
                          (PyStr "b", Atom (PyInt 2))]))).
Proof.
  intros Hget.
  destruct (dict_set_present pairs key earlier later Hget) as [H1 H2].
  split; [ exact H1 | split; [ exact H2 | ] ].
  split; [ intros extra; apply parse_line_more_fuel; vm_compute; reflexivity | ].
  split; [ intros extra; apply run_more_fuel; vm_compute; reflexivity | ].
  split; [ intros extra; apply run_more_fuel; vm_compute; reflexivity | ].
  split.
  { intros s s' d Hdistinct H. cbn [Interpreter.visit] in H. unfold bind in H.
    destruct (Interpreter.visit_items Interpreter.visit pairs [] s)
      as [d' s1 | e s1 |] eqn:E; try discriminate.
    unfold ret in H. inversion H. subst d' s1.
    apply (visit_items_keys pairs [] d s s' Hdistinct) in E.
    - exact E.
    - intros k _. reflexivity. }
  split; [ intros k v; apply dict_set_absent | ].
  split; [ intros n p items p'; apply factor_dict_files_pairs | ].
  split.
  { intros n p0 p items p' p_end Hbrace Hopen Hread Hclose extra.
    replace (n + S (S (List.length items)) + extra)
      with (S (n + S (List.length items) + extra)) by lia.
    cbn [Parser.factor]. rewrite Hbrace. unfold bind, ret.
    rewrite Hopen, (factor_dict_files_pairs n p p' items Hread [] extra), Hclose.
    reflexivity. }
  split; [ intros items; apply file_pairs_distinct; reflexivity | ].
  split.
  { intros items k Hitems Hk.
    rewrite (file_pairs_last_wins items [] k Hitems eq_refl Hk).
    destruct (dict_get (rev items) k); reflexivity. }
  split.
  { intros fuel p p' parsed s Hparse.
    destruct (parsed_dict_values fuel p p' parsed Hparse) as [Hdistinct Hfree].
    pose proof (visit_items_in_order parsed [] s Hdistinct Hfree
                  ltac:(intros k _; reflexivity)) as H.
    cbn [Interpreter.visit]. unfold bind.
    destruct (Interpreter.visit_items Interpreter.visit parsed [] s)
      as [d s1 | e s1 |].
    - destruct H as (-> & evaluated & -> & Hall). unfold ret.
      split; [ reflexivity | ].
      exists evaluated. split; [ reflexivity | exact Hall ].
    - exact H.
    - exact H. }
  intros extra. split;
    [ apply parse_line_more_fuel | apply run_more_fuel ]; vm_compute; reflexivity.
Qed.

(** C9, where the claim fails: the two pairs of [{"a": 1, "a": 2}] are
    one pair when the parser returns, with the later expression; the
    duplicate was resolved during parsing, and the first pair is gone. Of
    the three pairs of [{"a": 1, "b": 2, "a": 3}] two are left when the
    parser returns: the key ["a"] where it first stood, with the last
    expression. *)
Lemma duplicate_key_is_collapsed_by_the_parser :
  answer (parse_line 8 dict_with_a_twice)
  = Some (inr (DictExpr [(PyStr "a", Num (integer_token 2 14))])) /\
  match answer (parse_line 8 dict_with_a_twice) with
  | Some (inr (DictExpr pairs)) => List.length pairs
  | _ => 0
  end = 1 /\
  answer (parse_line 9 dict_with_three_pairs)
  = Some (inr (DictExpr [(PyStr "a", Num (integer_token 3 22));
                         (PyStr "b", Num (integer_token 2 14))])).
Proof. repeat split; vm_compute; reflexivity. Qed.

(** The second pair of [{"a": 1, "a": 2}] replaces the first in the dict
    the parser is building; and on [{"a": 1, "b": 2, "a": 3}] the loop
    reads three pairs and [factor] returns two, the key ["a"] first with
    the expression [3]. *)
Lemma second_pair_replaces_first :
  dict_get (dict_set [(PyStr "a", Num (integer_token 1 6))] (PyStr "a")
                     (Num (integer_token 2 14)))
           (PyStr "a")
  = Some (Num (integer_token 2 14)) /\
  Parser.factor 8
    (reading dict_with_three_pairs 1 (operator_token LBRACE "{" 1))
  = Ret (DictExpr [(PyStr "a", Num (integer_token 3 22));
                   (PyStr "b", Num (integer_token 2 14))])
        (reading dict_with_three_pairs 24 (Token.make EOF PyNone 1 25)).
Proof.
  split.
  - exact (proj1 (dict_literal_collapses_at_parse_time
                    [(PyStr "a", Num (integer_token 1 6))] (PyStr "a")
                    (Num (integer_token 1 6)) (Num (integer_token 2 14))
                    eq_refl)).
  - assert (Hread :
      reads_pairs 3 (reading dict_with_three_pairs 4 (Token.make STRING (PyStr "a") 1 1))
        [(PyStr "a", Num (integer_token 1 6));
         (PyStr "b", Num (integer_token 2 14));
         (PyStr "a", Num (integer_token 3 22))]
        (reading dict_with_three_pairs 24 (operator_token RBRACE "}" 24))).
    { apply (reads_one_pair 3 _
               (reading dict_with_three_pairs 5 (operator_token COLON ":" 5))
               (reading dict_with_three_pairs 7 (integer_token 1 6))
               (reading dict_with_three_pairs 8 (operator_token COMMA "," 8))
               (reading dict_with_three_pairs 12 (Token.make STRING (PyStr "b") 1 9)) _
               (Num (Token.make STRING (PyStr "a") 1 1)));
        try (vm_compute; reflexivity).
      apply (reads_one_pair 3 _
               (reading dict_with_three_pairs 13 (operator_token COLON ":" 13))
               (reading dict_with_three_pairs 15 (integer_token 2 14))
               (reading dict_with_three_pairs 16 (operator_token COMMA "," 16))
               (reading dict_with_three_pairs 20 (Token.make STRING (PyStr "a") 1 17)) _
               (Num (Token.make STRING (PyStr "b") 1 9)));
        try (vm_compute; reflexivity).
      apply (reads_one_pair 3 _
               (reading dict_with_three_pairs 21 (operator_token COLON ":" 21))
               (reading dict_with_three_pairs 23 (integer_token 3 22))
               (reading dict_with_three_pairs 24 (operator_token RBRACE "}" 24))
               (reading dict_with_three_pairs 24 (operator_token RBRACE "}" 24)) _
               (Num (Token.make STRING (PyStr "a") 1 17)));
        try (vm_compute; reflexivity).
      apply reads_no_pair. vm_compute; reflexivity. }
    assert (Hopen :
      Parser.eat LBRACE (reading dict_with_three_pairs 1 (operator_token LBRACE "{" 1))
      = Ret tt (reading dict_with_three_pairs 4 (Token.make STRING (PyStr "a") 1 1)))
      by (vm_compute; reflexivity).
    assert (Hclose :
      Parser.eat RBRACE (reading dict_with_three_pairs 24 (operator_token RBRACE "}" 24))
      = Ret tt (reading dict_with_three_pairs 24 (Token.make EOF PyNone 1 25)))
      by (vm_compute; reflexivity).
    exact (proj1 (proj2 (proj2 (proj2 (proj2 (proj2 (proj2 (proj2 (proj2
             (dict_literal_collapses_at_parse_time
                [(PyStr "a", Num (integer_token 1 6))] (PyStr "a")
                (Num (integer_token 1 6)) (Num (integer_token 2 14))
                eq_refl)))))))))
             3 (reading dict_with_three_pairs 1 (operator_token LBRACE "{" 1))
             _ _ _ _ eq_refl Hopen Hread Hclose 0).
Defined.

End DictLiterals.
